(** * Two-proportion significance tests and sample-size calculation

    A verification development for the notebook
    [Hypothesis_test_review_and_power.ipynb]: the proportion estimator
    [rate], the analytic test [get_p_value_analytic], the Monte Carlo test
    [get_p_value_from_simulation] and the sample-size calculator
    [power_function].

    The notebook is embedded twice.

    The exact embedding (Parts III to VI) reads every finite float as the
    real number it approximates.
    - Python integers are [Z].  Python and numpy floats are modelled by
      [npfloat]: an exact real number, or one of the IEEE special values
      +inf, -inf, NaN.  Finite arithmetic is exact real arithmetic, and the
      two zeros are identified (division of a nonzero finite value by zero
      takes the sign of the dividend).
    - [scipy.stats.norm] is not part of the notebook.  [norm.cdf] is the
      standard normal distribution function [Phi] and [norm.ppf] its
      inverse, both constructed in Part I from the Riemann integral of the
      Gaussian kernel.
    It carries the numerical values of the worked examples, the behaviour on
    a zero trial count or a zero delta, and the symmetry of the tests.

    The binary64 embedding (Part VII, [Machine]) computes as the interpreter
    does.
    - Floats are IEEE 754 binary64 values ([spec_float] at precision 53),
      every operation correctly rounded; the theory of rounding it needs is
      Part II.
    - Integer division [a / b] of Python integers is the correctly rounded
      quotient and raises OverflowError when that is not finite; the
      conversion of an integer to a float raises OverflowError likewise.
    - [np.random.binomial] converts its number of trials to a C long of 64
      bits and raises OverflowError outside its range; an array longer than
      the platform can allocate raises MemoryError ([Platform]).
    - [scipy.stats.norm] and the C library's [pow] are interfaces
      ([NormalDist], [Libm]) with the few laws the proofs use; the functions
      of Part I, rounded, are an instance.
    It carries the statements that depend on rounding, overflow or the
    representation of the arguments.

    In both embeddings Python exceptions are values of [exn], a computation
    that can raise returns a [result], and [np.random] is an interface
    ([RandomSource]) whose global generator state is threaded explicitly
    through the simulation. *)

From Stdlib Require Import Reals Lra Lia ZArith List Zfloor Psatz Machin SpecFloat Bool.
Import ListNotations.
Open Scope R_scope.

(** * Part I: the standard normal distribution *)

Module Normal.

(** Side conditions left by [field] on series terms *)
Ltac nz :=
  repeat split;
  first [ apply INR_fact_neq_0 | apply pow_nonzero; lra | apply not_0_INR; lia | lra ].

(** ** The Gaussian kernel and its integral from 0 *)

Definition gauss (t : R) : R := exp (- (t * t / 2)).

Lemma gauss_pos t : 0 < gauss t.
Proof. apply exp_pos. Qed.

Lemma derivable_pt_lim_gauss x : derivable_pt_lim gauss x (- x * gauss x).
Proof.
  unfold gauss.
  replace (- x * exp (- (x * x / 2))) with (exp (- (x * x / 2)) * (- x)) by ring.
  apply (derivable_pt_lim_comp (fun t => - (t * t / 2)) exp).
  - replace (- x) with (- ((1 * x + x * 1) * / 2)) by field.
    apply derivable_pt_lim_opp.
    apply (derivable_pt_lim_scal_right (fun t => t * t)).
    apply (derivable_pt_lim_mult id id); apply derivable_pt_lim_id.
  - apply derivable_pt_lim_exp.
Qed.

Lemma gauss_derivable : derivable gauss.
Proof. intro x. exists (- x * gauss x). apply derivable_pt_lim_gauss. Qed.

Lemma gauss_continuity : continuity gauss.
Proof. apply derivable_continuous, gauss_derivable. Qed.

Lemma gauss_integrable (a b : R) : Riemann_integrable gauss a b.
Proof.
  destruct (Rle_dec a b) as [h|h].
  - apply continuity_implies_RiemannInt; [exact h|]. intros; apply gauss_continuity.
  - apply RiemannInt_P1, continuity_implies_RiemannInt; [lra|]. intros; apply gauss_continuity.
Qed.

(** [G x] is the integral of [gauss] from 0 to [x]. *)
Definition G (x : R) : R := RiemannInt (gauss_integrable 0 x).

Lemma G_0 : G 0 = 0.
Proof. apply RiemannInt_P9. Qed.

Lemma derivable_pt_lim_G x : derivable_pt_lim G x (gauss x).
Proof.
  set (a := - (Rabs x + 1)). set (b := Rabs x + 1).
  assert (Hx : a < x < b).
  { unfold a, b. pose proof (Rle_abs x). pose proof (Rle_abs (- x)) as H1.
    rewrite Rabs_Ropp in H1. lra. }
  assert (h : a <= b) by lra.
  pose (C0 := fun (y : R) (_ : a <= y <= b) => gauss_continuity y).
  pose proof (RiemannInt_P27 h C0 Hx) as HP.
  apply derivable_pt_lim_locally_ext with
    (f := fun y => G a + primitive h (FTC_P1 h C0) y) (a := a) (b := b); [exact Hx | |].
  - intros z Hz. unfold primitive.
    destruct (Rle_dec a z) as [r|r]; [|lra].
    destruct (Rle_dec z b) as [r0|r0]; [|lra].
    unfold G. apply RiemannInt_P26.
  - replace (gauss x) with (0 + gauss x) by ring.
    apply (derivable_pt_lim_plus (fun _ => G a)); [apply derivable_pt_lim_const | exact HP].
Qed.

Lemma G_derivable : derivable G.
Proof. intro x. exists (gauss x). apply derivable_pt_lim_G. Qed.

Lemma derive_pt_G x : derive_pt G x (G_derivable x) = gauss x.
Proof. apply derive_pt_eq_0, derivable_pt_lim_G. Qed.

Lemma G_increasing x y : x < y -> G x < G y.
Proof.
  apply (positive_derivative G G_derivable).
  intro t. rewrite derive_pt_G. apply gauss_pos.
Qed.

(** Two functions ordered at [a] whose derivatives are ordered beyond [a]
    stay ordered beyond [a]. *)
Lemma compare_from (f g f' g' : R -> R) (a : R) :
  (forall x, derivable_pt_lim f x (f' x)) ->
  (forall x, derivable_pt_lim g x (g' x)) ->
  f a <= g a ->
  (forall t, a <= t -> f' t <= g' t) ->
  forall x, a <= x -> f x <= g x.
Proof.
  intros Hf Hg Ha Hd x Hx.
  destruct (Req_dec a x) as [->|Hne]; [exact Ha|].
  pose (h := fun t => g t - f t).
  assert (Hh : forall t, derivable_pt_lim h t (g' t - f' t)).
  { intro t. apply (derivable_pt_lim_minus g f); auto. }
  assert (pr : derivable h) by (intro t; exists (g' t - f' t); apply Hh).
  assert (h a <= h x); [|unfold h in *; lra].
  apply (derive_increasing_interv_var a x h pr); try lra.
  intros t Ht. rewrite (derive_pt_eq_0 _ _ _ (pr t) (Hh t)).
  specialize (Hd t). lra.
Qed.

Lemma G_odd x : G (- x) = - G x.
Proof.
  pose (K := fun t => G t + G (- t)).
  assert (HK : forall t, derivable_pt_lim K t 0).
  { intro t. unfold K.
    replace 0 with (gauss t + gauss (- t) * (- 1)).
    - apply (derivable_pt_lim_plus G (fun y => G (- y))); [apply derivable_pt_lim_G|].
      apply (derivable_pt_lim_comp (fun y => - y) G).
      + replace (-1) with (- (1)) by ring. apply (derivable_pt_lim_opp id), derivable_pt_lim_id.
      + apply derivable_pt_lim_G.
    - unfold gauss. replace (- t * - t) with (t * t) by ring. ring. }
  assert (H0 : K 0 = 0) by (unfold K; rewrite Ropp_0, G_0; ring).
  assert (Hpos : forall t, 0 <= t -> K t = 0).
  { intros t Ht. apply Rle_antisym.
    - apply (compare_from K (fun _ => 0) (fun _ => 0) (fun _ => 0) 0); auto; try lra; try (intros; lra).
      intro; apply derivable_pt_lim_const.
    - apply (compare_from (fun _ => 0) K (fun _ => 0) (fun _ => 0) 0); auto; try lra; try (intros; lra).
      intro; apply derivable_pt_lim_const. }
  destruct (Rle_dec 0 x) as [Hx|Hx].
  - specialize (Hpos x Hx). unfold K in Hpos. lra.
  - assert (Hn : 0 <= - x) by lra. specialize (Hpos (- x) Hn). unfold K in Hpos.
    rewrite Ropp_involutive in Hpos. lra.
Qed.

(** ** Taylor polynomials of [exp (- u)] enclose it for [0 <= u] *)
Definition exp_term (k : nat) (u : R) : R := (- u) ^ k / INR (fact k).

Fixpoint exp_sum (N : nat) (u : R) : R :=
  match N with
  | O => exp_term 0 u
  | S n => exp_sum n u + exp_term (S n) u
  end.

Lemma derivable_pt_lim_exp_term k u :
  derivable_pt_lim (exp_term (S k)) u (- exp_term k u).
Proof.
  unfold exp_term.
  replace (- ((- u) ^ k / INR (fact k)))
    with ((INR (S k) * (- u) ^ pred (S k) * (- 1)) * / INR (fact (S k))).
  - apply (derivable_pt_lim_scal_right (fun t => (- t) ^ S k)).
    apply (derivable_pt_lim_comp (fun t => - t) (fun y => y ^ S k)).
    + replace (-1) with (- (1)) by ring. apply (derivable_pt_lim_opp id), derivable_pt_lim_id.
    + apply derivable_pt_lim_pow.
  - rewrite fact_simpl, mult_INR. simpl pred.
    field. split; [apply INR_fact_neq_0 | apply not_0_INR; lia].
Qed.

Lemma derivable_pt_lim_exp_sum N u : derivable_pt_lim (exp_sum (S N)) u (- exp_sum N u).
Proof.
  induction N as [|N IH].
  - simpl. replace (- exp_term 0 u) with (0 + - exp_term 0 u) by ring.
    apply (derivable_pt_lim_plus (exp_term 0) (exp_term 1)).
    + apply (derivable_pt_lim_ext (fun _ => 1)).
      * intro z; unfold exp_term; simpl; field.
      * apply derivable_pt_lim_const.
    + apply derivable_pt_lim_exp_term.
  - change (exp_sum (S (S N))) with (fun t => exp_sum (S N) t + exp_term (S (S N)) t).
    simpl (exp_sum (S N) u).
    replace (- (exp_sum N u + exp_term (S N) u)) with (- exp_sum N u + - exp_term (S N) u) by ring.
    apply derivable_pt_lim_plus; [exact IH | apply derivable_pt_lim_exp_term].
Qed.

Lemma exp_sum_at_0 N : exp_sum N 0 = 1.
Proof.
  induction N as [|N IH]; simpl.
  - unfold exp_term; simpl; field.
  - rewrite IH. unfold exp_term. rewrite Ropp_0, pow_ne_zero by lia. unfold Rdiv; ring.
Qed.

Lemma exp_sum_bounds N : forall u, 0 <= u -> 0 <= (- 1) ^ N * (exp_sum N u - exp (- u)).
Proof.
  induction N as [|N IH]; intros u Hu.
  - simpl. unfold exp_term; simpl.
    assert (exp (- u) <= 1); [|lra].
    rewrite <- exp_0. destruct (Req_dec u 0) as [->|Hne].
    + rewrite Ropp_0; lra.
    + left; apply exp_increasing; lra.
  - apply (compare_from (fun _ => 0) (fun t => (- 1) ^ S N * (exp_sum (S N) t - exp (- t)))
             (fun _ => 0) (fun t => (- 1) ^ N * (exp_sum N t - exp (- t))) 0); auto.
    + intro; apply derivable_pt_lim_const.
    + intro x.
      replace ((- 1) ^ N * (exp_sum N x - exp (- x)))
        with ((- 1) ^ S N * (- exp_sum N x - exp (- x) * (- 1))) by (simpl; ring).
      apply (derivable_pt_lim_scal (fun t => exp_sum (S N) t - exp (- t))).
      apply (derivable_pt_lim_minus (exp_sum (S N)) (fun t => exp (- t))).
      * apply derivable_pt_lim_exp_sum.
      * apply (derivable_pt_lim_comp (fun t => - t) exp).
        -- replace (-1) with (- (1)) by ring. apply (derivable_pt_lim_opp id), derivable_pt_lim_id.
        -- apply derivable_pt_lim_exp.
    + rewrite exp_sum_at_0, Ropp_0, exp_0. lra.
Qed.

(** Term-wise primitive of exp_sum N (x^2/2) *)
Definition G_term (k : nat) (x : R) : R :=
  (- 1) ^ k / (2 ^ k * INR (fact k) * INR (2 * k + 1)) * x ^ (2 * k + 1).

Fixpoint G_sum (N : nat) (x : R) : R :=
  match N with
  | O => G_term 0 x
  | S n => G_sum n x + G_term (S n) x
  end.

Lemma exp_term_half_square k x :
  exp_term k (x * x / 2) = (- 1) ^ k / (2 ^ k * INR (fact k)) * x ^ (2 * k).
Proof.
  unfold exp_term.
  replace (- (x * x / 2)) with ((- 1) * (x ^ 2 * / 2)) by (simpl; field).
  rewrite !Rpow_mult_distr, <- pow_mult, pow_inv.
  field. nz.
Qed.

Lemma derivable_pt_lim_G_term k x :
  derivable_pt_lim (G_term k) x (exp_term k (x * x / 2)).
Proof.
  rewrite exp_term_half_square. unfold G_term.
  replace ((- 1) ^ k / (2 ^ k * INR (fact k)) * x ^ (2 * k))
    with ((- 1) ^ k / (2 ^ k * INR (fact k) * INR (2 * k + 1))
          * (INR (2 * k + 1) * x ^ pred (2 * k + 1))).
  - apply (derivable_pt_lim_scal (fun t => t ^ (2 * k + 1))), derivable_pt_lim_pow.
  - replace (pred (2 * k + 1)) with (2 * k)%nat by lia.
    field. nz.
Qed.

Lemma derivable_pt_lim_G_sum N x : derivable_pt_lim (G_sum N) x (exp_sum N (x * x / 2)).
Proof.
  induction N as [|N IH].
  - apply derivable_pt_lim_G_term.
  - change (G_sum (S N)) with (fun t => G_sum N t + G_term (S N) t). simpl exp_sum.
    apply derivable_pt_lim_plus; [exact IH | apply derivable_pt_lim_G_term].
Qed.

Lemma G_sum_at_0 N : G_sum N 0 = 0.
Proof.
  assert (Ht : forall k, G_term k 0 = 0).
  { intro k. unfold G_term. rewrite pow_ne_zero by lia. ring. }
  induction N as [|N IH]; simpl; rewrite ?IH, Ht; ring.
Qed.

Lemma G_bounds N x : 0 <= x -> 0 <= (- 1) ^ N * (G_sum N x - G x).
Proof.
  intro Hx.
  apply (compare_from (fun _ => 0) (fun t => (- 1) ^ N * (G_sum N t - G t))
           (fun _ => 0) (fun t => (- 1) ^ N * (exp_sum N (t * t / 2) - gauss t)) 0); auto.
  - intro; apply derivable_pt_lim_const.
  - intro t. apply (derivable_pt_lim_scal (fun t => G_sum N t - G t)).
    apply derivable_pt_lim_minus; [apply derivable_pt_lim_G_sum | apply derivable_pt_lim_G].
  - rewrite G_sum_at_0, G_0. lra.
  - intros t Ht. apply exp_sum_bounds. nra.
Qed.

Lemma G_upper k x : 0 <= x -> G x <= G_sum (2 * k) x.
Proof.
  intro Hx. pose proof (G_bounds (2 * k) x Hx) as H.
  rewrite pow_1_even in H. lra.
Qed.

Lemma G_lower k x : 0 <= x -> G_sum (2 * k + 1) x <= G x.
Proof.
  intro Hx. pose proof (G_bounds (2 * k + 1) x Hx) as H.
  replace (2 * k + 1)%nat with (S (2 * k)) in H by lia.
  rewrite pow_1_odd in H. replace (2 * k + 1)%nat with (S (2 * k)) by lia. lra.
Qed.

(** ** The tail of the integral beyond [X] *)
Lemma G_tail X x : 0 < X -> X <= x -> G x - G X <= gauss X / X.
Proof.
  intros HX Hx.
  assert (H : G x <= G X + (gauss X / X - gauss x / X)).
  { apply (compare_from G (fun t => G X + (gauss X / X - gauss t / X))
             gauss (fun t => t / X * gauss t) X); auto.
    - apply derivable_pt_lim_G.
    - intro t.
      replace (t / X * gauss t) with (0 + (0 - (- t * gauss t) * / X)) by (field; lra).
      apply (derivable_pt_lim_plus (fun _ => G X)); [apply derivable_pt_lim_const|].
      apply (derivable_pt_lim_minus (fun _ => gauss X / X)); [apply derivable_pt_lim_const|].
      apply (derivable_pt_lim_scal_right gauss), derivable_pt_lim_gauss.
    - lra.
    - intros t Ht. pose proof (gauss_pos t).
      assert (1 <= t / X).
      { apply Rmult_le_reg_r with X; [lra|]. unfold Rdiv. rewrite Rmult_assoc, Rinv_l; lra. }
      nra. }
  assert (0 < gauss x / X).
  { apply Rdiv_lt_0_compat; [apply gauss_pos | lra]. }
  lra.
Qed.
(** ** The total mass and the distribution function *)

Definition G_range (y : R) : Prop := exists x, y = G x.

Lemma G_le_bound X x : 0 < X -> G x <= G X + gauss X / X.
Proof.
  intro HX. assert (0 < gauss X / X) by (apply Rdiv_lt_0_compat; [apply gauss_pos | lra]).
  destruct (Rle_dec X x) as [Hx|Hx].
  - pose proof (G_tail X x HX Hx). lra.
  - assert (G x < G X) by (apply G_increasing; lra). lra.
Qed.

Lemma G_range_bound : bound G_range.
Proof.
  exists (G 1 + gauss 1 / 1). intros y [x ->]. apply G_le_bound; lra.
Qed.

Lemma G_range_inhabited : exists y, G_range y.
Proof. exists (G 0), 0; reflexivity. Qed.

(** [G_inf] is the integral of [gauss] over the positive half line. *)
Definition G_inf : R :=
  proj1_sig (completeness G_range G_range_bound G_range_inhabited).

Lemma G_inf_lub : is_lub G_range G_inf.
Proof. unfold G_inf. destruct (completeness _ _ _) as [m Hm]. exact Hm. Qed.

Lemma G_lt_inf x : G x < G_inf.
Proof.
  apply Rlt_le_trans with (G (x + 1)); [apply G_increasing; lra|].
  apply (proj1 G_inf_lub). exists (x + 1); reflexivity.
Qed.

Lemma G_inf_le X : 0 < X -> G_inf <= G X + gauss X / X.
Proof.
  intro HX. apply (proj2 G_inf_lub). intros y [x ->]. apply G_le_bound, HX.
Qed.

Lemma G_inf_pos : 0 < G_inf.
Proof. rewrite <- G_0. apply G_lt_inf. Qed.

Lemma G_inf_approach eps : 0 < eps -> exists x, G_inf - eps < G x.
Proof.
  intro He. apply Classical_Prop.NNPP. intro Hn.
  assert (Hub : is_upper_bound G_range (G_inf - eps)).
  { intros y [x ->]. apply Rnot_lt_le. intro Hlt. apply Hn. exists x; exact Hlt. }
  pose proof (proj2 G_inf_lub _ Hub). lra.
Qed.

(** The standard normal distribution function: density proportional to
    [gauss], symmetric about 0, total mass 1. *)
Definition Phi (x : R) : R := 1 / 2 + G x / (2 * G_inf).

Lemma Phi_0 : Phi 0 = 1 / 2.
Proof. unfold Phi. rewrite G_0. unfold Rdiv. ring. Qed.

Lemma Phi_increasing x y : x < y -> Phi x < Phi y.
Proof.
  intro H. unfold Phi. pose proof G_inf_pos. pose proof (G_increasing x y H).
  apply Rplus_lt_compat_l. unfold Rdiv. apply Rmult_lt_compat_r; [|assumption].
  apply Rinv_0_lt_compat; lra.
Qed.

Lemma Phi_monotone x y : x <= y -> Phi x <= Phi y.
Proof. intros [H| ->]; [left; apply Phi_increasing, H | right; reflexivity]. Qed.

Lemma Phi_injective x y : Phi x = Phi y -> x = y.
Proof.
  intro H. destruct (Rtotal_order x y) as [Hlt|[Heq|Hgt]]; [|exact Heq|].
  - apply Phi_increasing in Hlt; lra.
  - apply Phi_increasing in Hgt; lra.
Qed.

Lemma Phi_symmetry x : Phi (- x) = 1 - Phi x.
Proof. unfold Phi. rewrite G_odd. field. pose proof G_inf_pos; lra. Qed.

Lemma Phi_range x : 0 < Phi x < 1.
Proof.
  assert (Hu : forall t, Phi t < 1).
  { intro t. unfold Phi. pose proof G_inf_pos. pose proof (G_lt_inf t).
    assert (G t / (2 * G_inf) < 1 / 2); [|lra].
    apply Rmult_lt_reg_r with (2 * G_inf); [lra|]. field_simplify; lra. }
  split; [|apply Hu]. pose proof (Hu (- x)). rewrite Phi_symmetry in H. lra.
Qed.

Lemma Phi_continuity : continuity Phi.
Proof.
  apply derivable_continuous. intro x. exists (0 + gauss x * / (2 * G_inf)).
  apply (derivable_pt_lim_plus (fun _ => 1 / 2)); [apply derivable_pt_lim_const|].
  apply (derivable_pt_lim_scal_right G), derivable_pt_lim_G.
Qed.

Lemma Phi_above q : q < 1 -> exists x, q < Phi x.
Proof.
  intro Hq. pose proof G_inf_pos as Hc.
  destruct (G_inf_approach (2 * (1 - q) * G_inf)) as [x Hx]; [nra|].
  exists x. unfold Phi.
  assert (q - 1 / 2 < G x / (2 * G_inf)); [|lra].
  apply Rmult_lt_reg_r with (2 * G_inf); [lra|]. field_simplify; lra.
Qed.

Lemma Phi_below q : 0 < q -> exists x, Phi x < q.
Proof.
  intro Hq. destruct (Phi_above (1 - q)) as [x Hx]; [lra|].
  exists (- x). rewrite Phi_symmetry. lra.
Qed.

Lemma Phi_surjective q : 0 < q < 1 -> exists x, Phi x = q.
Proof.
  intros [H0 H1].
  destruct (Phi_below q H0) as [a Ha]. destruct (Phi_above q H1) as [b Hb].
  assert (Hab : a < b).
  { apply Rnot_le_lt. intro Hle. apply Phi_monotone in Hle. lra. }
  destruct (IVT (fun x => Phi x - q) a b) as [z [_ Hz]]; try lra.
  - apply (continuity_minus Phi (fun _ => q)); [apply Phi_continuity|].
    apply continuity_const. intros u v; reflexivity.
  - exists z. lra.
Qed.

(** ** The quantile function: least upper bound of [{ x | Phi x <= q }] *)
Definition below_quantile (q x : R) : Prop := Phi x <= q.

Lemma below_quantile_bound q : q < 1 -> bound (below_quantile q).
Proof.
  intro Hq. destruct (Phi_above q Hq) as [b Hb]. exists b. intros x Hx.
  apply Rnot_lt_le. intro Hlt. apply Phi_increasing in Hlt. unfold below_quantile in Hx. lra.
Qed.

Lemma below_quantile_inhabited q : 0 < q -> exists x, below_quantile q x.
Proof. intro Hq. destruct (Phi_below q Hq) as [a Ha]. exists a. unfold below_quantile; lra. Qed.

Definition Phi_inv (q : R) (H : 0 < q < 1) : R :=
  proj1_sig (completeness (below_quantile q)
               (below_quantile_bound q (proj2 H))
               (below_quantile_inhabited q (proj1 H))).

Lemma Phi_Phi_inv q H : Phi (Phi_inv q H) = q.
Proof.
  unfold Phi_inv. destruct (completeness _ _ _) as [m [Hub Hleast]]. simpl.
  destruct (Phi_surjective q H) as [x Hx].
  assert (Hm : m = x); [|rewrite Hm; exact Hx].
  apply Rle_antisym.
  - apply Hleast. intros y Hy. unfold below_quantile in Hy.
    apply Rnot_lt_le. intro Hlt. apply Phi_increasing in Hlt. lra.
  - apply Hub. unfold below_quantile. lra.
Qed.

Lemma Phi_inv_irrelevant q H1 H2 : Phi_inv q H1 = Phi_inv q H2.
Proof. apply Phi_injective. rewrite !Phi_Phi_inv. reflexivity. Qed.

Lemma Phi_inv_pos q H : 1 / 2 < q -> 0 < Phi_inv q H.
Proof.
  intro Hq. apply Rnot_le_lt. intro Hle. apply Phi_monotone in Hle.
  rewrite Phi_Phi_inv, Phi_0 in Hle. lra.
Qed.

Lemma Phi_inv_bounds q H a b :
  Phi a <= q -> q <= Phi b -> a <= Phi_inv q H <= b.
Proof.
  intros Ha Hb. pose proof (Phi_Phi_inv q H) as Hq. split; apply Rnot_lt_le; intro Hlt;
    apply Phi_increasing in Hlt; lra.
Qed.

(** ** Fixed-point evaluation of the enclosures *)

Lemma G_term_succ k x :
  G_term (S k) x =
  G_term k x * (- (x * x)) * (INR (2 * k + 1) / (2 * INR (k + 1) * INR (2 * k + 3))).
Proof.
  unfold G_term.
  replace (2 * S k + 1)%nat with (S (S (2 * k + 1))) by lia.
  replace (2 * k + 3)%nat with (S (S (2 * k + 1))) by lia.
  replace (k + 1)%nat with (S k) by lia.
  rewrite fact_simpl, mult_INR. simpl pow.
  field. nz.
Qed.

(** Floor division, read in the reals *)
Lemma IZR_div_floor m d : (0 < d)%Z -> IZR (m / d) <= IZR m / IZR d < IZR (m / d) + 1.
Proof.
  intro Hd. assert (Hd' : 0 < IZR d) by (apply IZR_lt; exact Hd).
  pose proof (Z.mul_div_le m d Hd) as H1. pose proof (Z.mul_succ_div_gt m d Hd) as H2.
  apply IZR_le in H1. apply IZR_lt in H2. unfold Z.succ in H2.
  rewrite mult_IZR in H1. rewrite mult_IZR, plus_IZR in H2.
  split.
  - apply Rmult_le_reg_r with (IZR d); [exact Hd'|].
    replace (IZR m / IZR d * IZR d) with (IZR m) by (field; lra). lra.
  - apply Rmult_lt_reg_r with (IZR d); [exact Hd'|].
    replace (IZR m / IZR d * IZR d) with (IZR m) by (field; lra). lra.
Qed.

(** Fixed-point enclosures, scaled by [D], of the absolute value of the
    current term and of the partial sum of [G_sum] at [x = a / b] *)
Record enclosure : Type := { tlo : Z; thi : Z; slo : Z; shi : Z }.

Definition enclosure_step (a b : Z) (k : nat) (e : enclosure) : enclosure :=
  let n := (a * a * (2 * Z.of_nat k + 1))%Z in
  let d := (b * b * (2 * (Z.of_nat k + 1) * (2 * Z.of_nat k + 3)))%Z in
  let tl := (tlo e * n / d)%Z in
  let th := (thi e * n / d + 1)%Z in
  if Nat.even k
  then {| tlo := tl; thi := th; slo := slo e - th; shi := shi e - tl |}
  else {| tlo := tl; thi := th; slo := slo e + tl; shi := shi e + th |}.

Fixpoint G_enclosure (N : nat) (a b D : Z) : enclosure :=
  match N with
  | O => let t := (a * D / b)%Z in {| tlo := t; thi := t + 1; slo := t; shi := t + 1 |}
  | S k => enclosure_step a b k (G_enclosure k a b D)
  end.

Lemma pow_m1_even k : Nat.even k = true -> (- 1) ^ k = 1.
Proof.
  intro H. apply Nat.even_spec in H. destruct H as [m ->]. apply pow_1_even.
Qed.

Lemma pow_m1_odd k : Nat.even k = false -> (- 1) ^ k = - 1.
Proof.
  intro H. rewrite <- Nat.negb_odd in H. apply Bool.negb_false_iff, Nat.odd_spec in H.
  destruct H as [m ->]. replace (2 * m + 1)%nat with (S (2 * m)) by lia. apply pow_1_odd.
Qed.

Lemma G_enclosure_sound N a b D :
  (0 <= a)%Z -> (0 < b)%Z -> (0 < D)%Z ->
  let x := IZR a / IZR b in
  let e := G_enclosure N a b D in
  (0 <= tlo e)%Z /\
  IZR (tlo e) <= IZR D * ((- 1) ^ N * G_term N x) <= IZR (thi e) /\
  IZR (slo e) <= IZR D * G_sum N x <= IZR (shi e).
Proof.
  intros Ha Hb HD x.
  assert (Hb' : 0 < IZR b) by (apply IZR_lt; exact Hb).
  assert (HD' : 0 < IZR D) by (apply IZR_lt; exact HD).
  assert (Ha' : 0 <= IZR a) by (apply IZR_le; exact Ha).
  induction N as [|N IH].
  - cbn [G_enclosure tlo thi slo shi G_sum]. unfold G_term. cbv zeta.
    pose proof (IZR_div_floor (a * D) b Hb) as [H1 H2]. rewrite mult_IZR in H1, H2.
    rewrite plus_IZR.
    assert (Hx : IZR D * x = IZR a * IZR D / IZR b) by (unfold x; field; lra).
    replace (IZR D * ((- 1) ^ 0 * ((- 1) ^ 0 / (2 ^ 0 * INR (fact 0) * INR (2 * 0 + 1))
                                   * x ^ (2 * 0 + 1)))) with (IZR D * x) by (simpl; field).
    replace (IZR D * ((- 1) ^ 0 / (2 ^ 0 * INR (fact 0) * INR (2 * 0 + 1)) * x ^ (2 * 0 + 1)))
      with (IZR D * x) by (simpl; field).
    rewrite Hx. repeat split; try lra.
    apply Z.div_pos; [apply Z.mul_nonneg_nonneg; lia | exact Hb].
  - cbv zeta in IH. destruct IH as (H0 & [Htl Hth] & [Hsl Hsh]).
    cbn [G_enclosure G_sum]. set (e := G_enclosure N a b D) in *.
    unfold enclosure_step. cbv zeta.
    set (n := (a * a * (2 * Z.of_nat N + 1))%Z).
    set (d := (b * b * (2 * (Z.of_nat N + 1) * (2 * Z.of_nat N + 3)))%Z).
    assert (Hn : (0 <= n)%Z) by (unfold n; apply Z.mul_nonneg_nonneg; nia).
    assert (Hd : (0 < d)%Z) by (unfold d; nia).
    assert (Hd' : 0 < IZR d) by (apply IZR_lt; exact Hd).
    assert (Hn' : 0 <= IZR n) by (apply IZR_le; exact Hn).
    set (U := (- 1) ^ N * G_term N x) in *.
    assert (HU : (- 1) ^ S N * G_term (S N) x = U * (IZR n / IZR d)).
    { rewrite G_term_succ. unfold U, n, d, x.
      rewrite !mult_IZR, !plus_IZR, !mult_IZR, <- !INR_IZR_INZ.
      replace (INR (2 * N + 1)) with (2 * INR N + 1)
        by (rewrite plus_INR, mult_INR; simpl; ring).
      replace (INR (N + 1)) with (INR N + 1) by (rewrite plus_INR; simpl; ring).
      replace (INR (2 * N + 3)) with (2 * INR N + 3)
        by (rewrite plus_INR, mult_INR; simpl; ring).
      simpl pow. field. pose proof (pos_INR N). repeat split; lra. }
    pose proof (IZR_div_floor (tlo e * n) d Hd) as [L1 _].
    pose proof (IZR_div_floor (thi e * n) d Hd) as [_ L2].
    rewrite mult_IZR in L1, L2.
    assert (Hr : 0 <= IZR n / IZR d) by (apply Rmult_le_pos; [lra | left; apply Rinv_0_lt_compat; lra]).
    assert (Hlo : IZR (tlo e * n / d) <= IZR D * (U * (IZR n / IZR d))).
    { apply Rle_trans with (IZR (tlo e) * IZR n / IZR d); [exact L1|].
      replace (IZR (tlo e) * IZR n / IZR d) with (IZR (tlo e) * (IZR n / IZR d))
        by (field; lra).
      replace (IZR D * (U * (IZR n / IZR d))) with (IZR D * U * (IZR n / IZR d)) by ring.
      apply Rmult_le_compat_r; assumption. }
    assert (Hhi : IZR D * (U * (IZR n / IZR d)) <= IZR (thi e * n / d + 1)).
    { rewrite plus_IZR.
      apply Rle_trans with (IZR (thi e) * IZR n / IZR d); [|lra].
      replace (IZR (thi e) * IZR n / IZR d) with (IZR (thi e) * (IZR n / IZR d))
        by (field; lra).
      replace (IZR D * (U * (IZR n / IZR d))) with (IZR D * U * (IZR n / IZR d)) by ring.
      apply Rmult_le_compat_r; assumption. }
    assert (H0' : (0 <= tlo e * n / d)%Z)
      by (apply Z.div_pos; [apply Z.mul_nonneg_nonneg; assumption | exact Hd]).
    assert (Hterm : G_term (S N) x = (- 1) ^ S N * (U * (IZR n / IZR d))).
    { rewrite <- HU, <- Rmult_assoc, <- Rpow_mult_distr.
      replace (-1 * -1) with 1 by ring. rewrite pow1. ring. }
    rewrite HU, Hterm.
    set (tl := (tlo e * n / d)%Z) in *. set (th := (thi e * n / d + 1)%Z) in *.
    destruct (Nat.even N) eqn:Ev; cbn [tlo thi slo shi].
    + replace ((- 1) ^ S N) with (- 1) by (simpl; rewrite (pow_m1_even _ Ev); ring).
      rewrite !minus_IZR. repeat split; try assumption; lra.
    + replace ((- 1) ^ S N) with 1 by (simpl; rewrite (pow_m1_odd _ Ev); ring).
      rewrite !plus_IZR. repeat split; try assumption; lra.
Qed.

Definition G_upper_test (k : nat) (a b D u : Z) : bool :=
  (0 <=? a)%Z && (0 <? b)%Z && (0 <? D)%Z && (shi (G_enclosure (2 * k) a b D) <=? u)%Z.

Definition G_lower_test (k : nat) (a b D l : Z) : bool :=
  (0 <=? a)%Z && (0 <? b)%Z && (0 <? D)%Z && (l <=? slo (G_enclosure (2 * k + 1) a b D))%Z.

Lemma G_upper_Z k a b D u :
  G_upper_test k a b D u = true -> G (IZR a / IZR b) <= IZR u / IZR D.
Proof.
  unfold G_upper_test. rewrite !Bool.andb_true_iff.
  intros [[[Ha Hb] HD] Hu].
  apply Z.leb_le in Ha, Hu. apply Z.ltb_lt in Hb, HD.
  pose proof (G_enclosure_sound (2 * k) a b D Ha Hb HD) as (_ & _ & _ & Hs).
  assert (HD' : 0 < IZR D) by (apply IZR_lt; exact HD).
  assert (Hx : 0 <= IZR a / IZR b).
  { apply Rmult_le_pos; [apply IZR_le; exact Ha | left; apply Rinv_0_lt_compat, IZR_lt, Hb]. }
  pose proof (G_upper k _ Hx) as HG. apply IZR_le in Hu.
  apply Rmult_le_reg_r with (IZR D); [exact HD'|].
  replace (IZR u / IZR D * IZR D) with (IZR u) by (field; lra). nra.
Qed.

Lemma G_lower_Z k a b D l :
  G_lower_test k a b D l = true -> IZR l / IZR D <= G (IZR a / IZR b).
Proof.
  unfold G_lower_test. rewrite !Bool.andb_true_iff.
  intros [[[Ha Hb] HD] Hl].
  apply Z.leb_le in Ha, Hl. apply Z.ltb_lt in Hb, HD.
  pose proof (G_enclosure_sound (2 * k + 1) a b D Ha Hb HD) as (_ & _ & Hs & _).
  assert (HD' : 0 < IZR D) by (apply IZR_lt; exact HD).
  assert (Hx : 0 <= IZR a / IZR b).
  { apply Rmult_le_pos; [apply IZR_le; exact Ha | left; apply Rinv_0_lt_compat, IZR_lt, Hb]. }
  pose proof (G_lower k _ Hx) as HG. apply IZR_le in Hl.
  apply Rmult_le_reg_r with (IZR D); [exact HD'|].
  replace (IZR l / IZR D * IZR D) with (IZR l) by (field; lra). nra.
Qed.

(** ** Numerical value of the total mass *)

Lemma exp_neg_1_le : exp (- (1)) <= 3 / 8.
Proof.
  pose proof (exp_sum_bounds 4 1 ltac:(lra)) as H. simpl in H. unfold exp_term in H. simpl in H.
  lra.
Qed.

Lemma exp_neg_nat_le n : exp (- INR n) <= (3 / 8) ^ n.
Proof.
  induction n as [|n IH].
  - simpl. rewrite Ropp_0, exp_0. lra.
  - rewrite S_INR. replace (- (INR n + 1)) with (- INR n + - (1)) by ring.
    rewrite exp_plus. simpl pow. rewrite (Rmult_comm (3 / 8)).
    apply Rmult_le_compat; try (left; apply exp_pos); [exact IH | apply exp_neg_1_le].
Qed.

Lemma gauss_7_le : gauss 7 <= 1 / 10000000000.
Proof.
  unfold gauss. apply Rle_trans with (exp (- INR 24)).
  - left. apply exp_increasing. rewrite INR_IZR_INZ. simpl. lra.
  - apply Rle_trans with ((3 / 8) ^ 24); [apply exp_neg_nat_le|]. simpl. lra.
Qed.

Lemma G_inf_lower : 12533141373 / 10000000000 <= G_inf.
Proof.
  apply Rle_trans with (G (7 / 1)); [|left; apply G_lt_inf].
  pose proof (G_lower_Z 45 7 1 1000000000000000000000000000000
                1253314137300000000000000000000 eq_refl) as H.
  lra.
Qed.

Lemma G_inf_upper : G_inf <= 12533141374 / 10000000000.
Proof.
  apply Rle_trans with (G 7 + gauss 7 / 7); [apply G_inf_le; lra|].
  pose proof (G_upper_Z 45 7 1 1000000000000000000000000000000
                1253314137320000000000000000000 eq_refl) as H.
  replace (7 / 1) with 7 in H by lra.
  pose proof gauss_7_le as Hg. lra.
Qed.

(** ** Enclosures of [Phi] *)

Lemma G_nonneg x : 0 <= x -> 0 <= G x.
Proof.
  intros [Hx|Hx]; [left; rewrite <- G_0; apply G_increasing, Hx | rewrite <- Hx, G_0; lra].
Qed.

Lemma Phi_upper_R x U q :
  0 <= x -> G x <= U -> U <= (2 * q - 1) * (12533141373 / 10000000000) -> Phi x <= q.
Proof.
  intros Hx HU Hq. pose proof (G_nonneg x Hx) as H0.
  pose proof G_inf_lower as Hc. pose proof G_inf_pos as Hp.
  assert (Hq0 : 0 <= 2 * q - 1) by nra.
  unfold Phi.
  assert (G x / (2 * G_inf) <= (2 * q - 1) / 2); [|lra].
  apply Rmult_le_reg_r with (2 * G_inf); [lra|]. field_simplify; [|lra]. nra.
Qed.

Lemma Phi_lower_R x L q :
  1 / 2 <= q -> L <= G x -> (2 * q - 1) * (12533141374 / 10000000000) <= L -> q <= Phi x.
Proof.
  intros Hq HL Hc'. pose proof G_inf_upper as Hc. pose proof G_inf_pos as Hp.
  unfold Phi.
  assert ((2 * q - 1) / 2 <= G x / (2 * G_inf)); [|lra].
  apply Rmult_le_reg_r with (2 * G_inf); [lra|]. field_simplify; [|lra]. nra.
Qed.

Lemma sqrt_bounds v lo hi :
  0 <= lo -> 0 <= hi -> lo * lo <= v -> v <= hi * hi -> lo <= sqrt v <= hi.
Proof.
  intros Hlo Hhi H1 H2. split.
  - rewrite <- (sqrt_square lo Hlo). apply sqrt_le_1_alt, H1.
  - rewrite <- (sqrt_square hi Hhi). apply sqrt_le_1_alt, H2.
Qed.

(** The normalisation agrees with [sqrt (PI / 2)], that is, [Phi] has the
    density [gauss x / sqrt (2 * PI)], to nine decimal places. *)
Lemma half_PI_bounds : 15707963267 / 10000000000 <= PI / 2 <= 15707963268 / 10000000000.
Proof.
  pose proof (PI_2_3_7_ineq 5) as [Hl Hu].
  unfold sum_f_R0, tg_alt, PI_2_3_7_tg, Ratan_seq in Hl, Hu.
  simpl in Hl, Hu. lra.
Qed.

Lemma G_inf_near_sqrt_half_PI : Rabs (G_inf - sqrt (PI / 2)) <= 1 / 1000000000.
Proof.
  pose proof half_PI_bounds as [Hl Hu].
  pose proof (sqrt_bounds (PI / 2) (12533141372 / 10000000000) (12533141374 / 10000000000)
                ltac:(lra) ltac:(lra) ltac:(lra) ltac:(lra)) as [Sl Su].
  pose proof G_inf_lower as Gl. pose proof G_inf_upper as Gu.
  apply Rabs_le. lra.
Qed.

(** Enclosures of [Phi] at the points used by the notebook's examples *)
Lemma Phi_at_2_5675 : 9948 / 10000 <= Phi (25675 / 10000).
Proof.
  pose proof (G_lower_Z 12 25675 10000 1000000000000000000000000000000
                1240475000000000000000000000000 eq_refl) as H.
  eapply Phi_lower_R; [|exact H|]; lra.
Qed.

Lemma Phi_at_2_5676 : Phi (25676 / 10000) <= 9950 / 10000.
Proof.
  pose proof (G_upper_Z 12 25676 10000 1000000000000000000000000000000
                1240480000000000000000000000000 eq_refl) as H.
  eapply Phi_upper_R; [|exact H|]; lra.
Qed.

Lemma Phi_at_0_841621 : Phi (841621 / 1000000) <= 8 / 10.
Proof.
  pose proof (G_upper_Z 12 841621 1000000 1000000000000000000000000000000
                751988400000000000000000000000 eq_refl) as H.
  eapply Phi_upper_R; [|exact H|]; lra.
Qed.

Lemma Phi_at_0_841622 : 8 / 10 <= Phi (841622 / 1000000).
Proof.
  pose proof (G_lower_Z 12 841622 1000000 1000000000000000000000000000000
                751989000000000000000000000000 eq_refl) as H.
  eapply Phi_lower_R; [|exact H|]; lra.
Qed.

Lemma Phi_at_1_959963 : Phi (1959963 / 1000000) <= 975 / 1000.
Proof.
  pose proof (G_upper_Z 15 1959963 1000000 1000000000000000000000000000000
                1190648300000000000000000000000 eq_refl) as H.
  eapply Phi_upper_R; [|exact H|]; lra.
Qed.

Lemma Phi_at_1_959965 : 975 / 1000 <= Phi (1959965 / 1000000).
Proof.
  pose proof (G_lower_Z 15 1959965 1000000 1000000000000000000000000000000
                1190648500000000000000000000000 eq_refl) as H.
  eapply Phi_lower_R; [|exact H|]; lra.
Qed.

End Normal.
Import Normal.

(** * Part II: binary64 arithmetic *)

Module Binary64.

Definition prec : Z := 53.
Definition emax : Z := 1024.

(** ** Powers of two *)

Definition pow2 (e : Z) : R := powerRZ 2 e.

Lemma pow2_pos e : 0 < pow2 e.
Proof. apply powerRZ_lt. lra. Qed.

Lemma pow2_add a b : pow2 (a + b) = pow2 a * pow2 b.
Proof. apply powerRZ_add. lra. Qed.

Lemma pow2_0 : pow2 0 = 1.
Proof. reflexivity. Qed.

Lemma pow2_1 : pow2 1 = 2.
Proof. unfold pow2. simpl. lra. Qed.

Lemma pow2_succ e : pow2 (e + 1) = 2 * pow2 e.
Proof. rewrite pow2_add, pow2_1. ring. Qed.

Lemma pow2_opp e : pow2 (- e) = / pow2 e.
Proof. apply powerRZ_neg'. Qed.

Lemma pow2_sub a b : pow2 (a - b) = pow2 a / pow2 b.
Proof. unfold Z.sub. rewrite pow2_add, pow2_opp. reflexivity. Qed.

Lemma pow2_IZR k : (0 <= k)%Z -> pow2 k = IZR (2 ^ k).
Proof.
  intros Hk. destruct k as [|p|p]; [reflexivity| |lia].
  unfold pow2. change (2 ^ Z.pos p)%Z with (Z.pow_pos 2 p).
  rewrite Zpower_pos_powerRZ. reflexivity.
Qed.

Lemma pow2_ge_1 k : (0 <= k)%Z -> 1 <= pow2 k.
Proof.
  intros Hk. rewrite pow2_IZR by assumption. apply IZR_le.
  pose proof (Z.pow_pos_nonneg 2 k ltac:(lia) Hk). lia.
Qed.

Lemma pow2_le a b : (a <= b)%Z -> pow2 a <= pow2 b.
Proof.
  intros H. replace b with (a + (b - a))%Z by lia. rewrite pow2_add.
  pose proof (pow2_pos a). pose proof (pow2_ge_1 (b - a) ltac:(lia)). nra.
Qed.

Lemma pow2_lt a b : (a < b)%Z -> pow2 a < pow2 b.
Proof.
  intros H. apply Rlt_le_trans with (pow2 (a + 1)).
  - rewrite pow2_succ. pose proof (pow2_pos a). lra.
  - apply pow2_le. lia.
Qed.

Lemma pow2_lt_inv a b : pow2 a < pow2 b -> (a < b)%Z.
Proof.
  intros H. destruct (Z.lt_ge_cases a b) as [|Hge]; [assumption|].
  apply pow2_le in Hge. lra.
Qed.

Lemma pow2_le_inv a b : pow2 a <= pow2 b -> (a <= b)%Z.
Proof.
  intros H. destruct (Z.le_gt_cases a b) as [|Hgt]; [assumption|].
  apply pow2_lt in Hgt. lra.
Qed.

(** An integer multiple of [pow2 e], for [e' <= e], is an integer multiple
    of [pow2 e']. *)
Lemma pow2_split e e' : (e' <= e)%Z -> pow2 e = IZR (2 ^ (e - e')) * pow2 e'.
Proof.
  intros H. rewrite <- pow2_IZR by lia. rewrite <- pow2_add. f_equal. lia.
Qed.

(** ** The format *)

Definition fexp (e : Z) : Z := SpecFloat.fexp prec emax e.

Lemma fexp_eq e : fexp e = Z.max (e - 53) (-1074).
Proof. reflexivity. Qed.

Lemma fexp_mono a b : (a <= b)%Z -> (fexp a <= fexp b)%Z.
Proof. rewrite !fexp_eq. lia. Qed.

(** The real value of a finite float; 0 for the others *)
Definition F2R (x : spec_float) : R :=
  match x with
  | S754_finite s m e => IZR (cond_Zopp s (Zpos m)) * pow2 e
  | _ => 0
  end.

Definition is_finite (x : spec_float) : bool :=
  match x with
  | S754_zero _ | S754_finite _ _ _ => true
  | _ => false
  end.

Definition is_nan (x : spec_float) : bool :=
  match x with S754_nan => true | _ => false end.

Definition is_infinite (x : spec_float) : bool :=
  match x with S754_infinity _ => true | _ => false end.

Definition is_zero (x : spec_float) : bool :=
  match x with S754_zero _ => true | _ => false end.

Definition valid (x : spec_float) : bool := valid_binary prec emax x.

(** Real numbers of the format: [m * 2^e] with [|m| < 2^53] and
    [-1074 <= e] (no upper bound on the exponent) *)
Definition representable (y : R) : Prop :=
  exists m e, y = IZR m * pow2 e /\ (Z.abs m < 2 ^ 53)%Z /\ (-1074 <= e)%Z.

Lemma representable_opp y : representable y -> representable (- y).
Proof.
  intros (m & e & -> & Hm & He). exists (- m)%Z, e. rewrite opp_IZR.
  split; [ring|]. split; [lia|assumption].
Qed.

Lemma representable_0 : representable 0.
Proof. exists 0%Z, 0%Z. split; [simpl; ring|]. split; lia. Qed.

Lemma representable_IZR n : (Z.abs n <= 2 ^ 53)%Z -> representable (IZR n).
Proof.
  intros Hn. destruct (Z.eq_dec (Z.abs n) (2 ^ 53)) as [E|E].
  - exists (n / 2)%Z, 1%Z. rewrite pow2_1.
    assert (Hn2 : (n = 2 * (n / 2))%Z).
    { assert (n = 2 ^ 53 \/ n = - 2 ^ 53)%Z as [-> | ->] by lia; reflexivity. }
    split; [|split; [|lia]].
    + rewrite Hn2 at 1. rewrite mult_IZR. ring.
    + assert (n = 2 ^ 53 \/ n = - 2 ^ 53)%Z as [-> | ->] by lia; reflexivity.
  - exists n, 0%Z. rewrite pow2_0. split; [ring|]. split; lia.
Qed.

Lemma representable_pow2 k : (-1074 <= k)%Z -> representable (pow2 k).
Proof. intros Hk. exists 1%Z, k. split; [ring|]. split; [reflexivity|assumption]. Qed.

Lemma representable_mul_pow2 m e :
  (Z.abs m < 2 ^ 53)%Z -> (-1074 <= e)%Z -> representable (IZR m * pow2 e).
Proof. intros Hm He. exists m, e. auto. Qed.

(** ** Binary digits *)

Lemma digits2_pos_size p : digits2_pos p = Pos.size p.
Proof. induction p; simpl; congruence. Qed.

Lemma digits_bounds p :
  (2 ^ (Zpos (digits2_pos p) - 1) <= Zpos p < 2 ^ Zpos (digits2_pos p))%Z.
Proof.
  rewrite digits2_pos_size.
  pose proof (Pos.size_gt p) as Hgt. pose proof (Pos.size_le p) as Hle.
  apply Pos2Z.pos_lt_pos in Hgt. apply Pos2Z.pos_le_pos in Hle.
  rewrite Pos2Z.inj_pow in Hgt, Hle. change (Z.pos p~0) with (2 * Z.pos p)%Z in Hle.
  split; [|exact Hgt].
  assert (E : (2 ^ Z.pos (Pos.size p) = 2 * 2 ^ (Z.pos (Pos.size p) - 1))%Z).
  { rewrite <- Z.pow_succ_r by lia. f_equal. lia. }
  lia.
Qed.

Lemma Zdigits2_nonneg m : (0 <= Zdigits2 m)%Z.
Proof. destruct m; simpl; lia. Qed.

Lemma Zdigits2_bounds m :
  (0 < m)%Z -> (2 ^ (Zdigits2 m - 1) <= m < 2 ^ Zdigits2 m)%Z.
Proof. destruct m as [|p|p]; try lia. intros _. apply digits_bounds. Qed.

(** The number of digits is characterised by the power-of-two bracket *)
Lemma Zdigits2_unique m d :
  (0 <= d)%Z -> (2 ^ (d - 1) <= m < 2 ^ d)%Z -> (0 < m)%Z -> Zdigits2 m = d.
Proof.
  intros Hd [H1 H2] Hm. pose proof (Zdigits2_bounds m Hm) as [H3 H4].
  pose proof (Zdigits2_nonneg m) as H0.
  destruct (Z.lt_trichotomy (Zdigits2 m) d) as [Hlt|[E|Hgt]]; [|assumption|].
  - assert ((2 ^ Zdigits2 m <= 2 ^ (d - 1))%Z) by (apply Z.pow_le_mono_r; lia). lia.
  - assert ((2 ^ d <= 2 ^ (Zdigits2 m - 1))%Z) by (apply Z.pow_le_mono_r; lia). lia.
Qed.

Lemma Zdigits2_le_of_lt m k : (0 <= k)%Z -> (0 <= m < 2 ^ k)%Z -> (Zdigits2 m <= k)%Z.
Proof.
  intros Hk [H0 H1]. destruct (Z.eq_dec m 0) as [->|Hm]; [simpl; lia|].
  pose proof (Zdigits2_bounds m ltac:(lia)) as [H3 H4].
  destruct (Z.le_gt_cases (Zdigits2 m) k) as [|Hgt]; [assumption|].
  assert ((2 ^ k <= 2 ^ (Zdigits2 m - 1))%Z) by (apply Z.pow_le_mono_r; lia). lia.
Qed.

Lemma Zdigits2_ge_of_ge m k : (0 <= k)%Z -> (2 ^ k <= m)%Z -> (k + 1 <= Zdigits2 m)%Z.
Proof.
  intros Hk H1. assert (Hm : (0 < m)%Z) by (pose proof (Z.pow_pos_nonneg 2 k); lia).
  pose proof (Zdigits2_bounds m Hm) as [H3 H4]. pose proof (Zdigits2_nonneg m).
  destruct (Z.le_gt_cases (k + 1) (Zdigits2 m)) as [|Hgt]; [assumption|].
  assert ((2 ^ Zdigits2 m <= 2 ^ k)%Z) by (apply Z.pow_le_mono_r; lia). lia.
Qed.

(** ** Locations and right shifts *)

(** [inbetween m e l x]: the real [x] lies in [[m * 2^e, (m+1) * 2^e)], at
    the position described by [l]. *)
Definition inbetween (m e : Z) (l : location) (x : R) : Prop :=
  match l with
  | loc_Exact => x = IZR m * pow2 e
  | loc_Inexact Lt => IZR m * pow2 e < x < (IZR m + 1 / 2) * pow2 e
  | loc_Inexact Eq => x = (IZR m + 1 / 2) * pow2 e
  | loc_Inexact Gt => (IZR m + 1 / 2) * pow2 e < x < (IZR m + 1) * pow2 e
  end.

Lemma inbetween_bounds m e l x :
  inbetween m e l x -> IZR m * pow2 e <= x < (IZR m + 1) * pow2 e.
Proof.
  pose proof (pow2_pos e). destruct l as [|[| |]]; simpl; intros; nra.
Qed.

Lemma inbetween_exact m e l x :
  inbetween m e l x -> x = IZR m * pow2 e -> l = loc_Exact.
Proof.
  pose proof (pow2_pos e). destruct l as [|[| |]]; simpl; intros; try reflexivity; nra.
Qed.

Lemma loc_of_shr_record_of_loc m l :
  loc_of_shr_record (shr_record_of_loc m l) = l /\ shr_m (shr_record_of_loc m l) = m.
Proof. destruct l as [|[| |]]; split; reflexivity. Qed.

Lemma shr_1_m mrs : (0 <= shr_m mrs)%Z -> shr_m (shr_1 mrs) = (shr_m mrs / 2)%Z.
Proof.
  destruct mrs as [m r s]. simpl. intros Hm.
  rewrite <- Z.div2_div. destruct m as [|[p|p|]|p]; try lia; reflexivity.
Qed.

Lemma shr_1_inbetween mrs e x :
  (0 <= shr_m mrs)%Z ->
  inbetween (shr_m mrs) e (loc_of_shr_record mrs) x ->
  inbetween (shr_m (shr_1 mrs)) (e + 1) (loc_of_shr_record (shr_1 mrs)) x.
Proof.
  destruct mrs as [m r s]. cbn [shr_m]. intros Hm H.
  pose proof (pow2_pos e) as Hp. rewrite <- (Z.add_comm 1).
  destruct m as [|[p|p|]|p]; try lia.
  - (* 0 *)
    destruct r, s; cbn [shr_1 shr_m loc_of_shr_record orb inbetween] in *;
      rewrite pow2_add, pow2_1; nra.
  - (* 2p+1 *)
    assert (E : IZR (Z.pos p~1) = 2 * IZR (Z.pos p) + 1).
    { change (Z.pos p~1) with (2 * Z.pos p + 1)%Z. rewrite plus_IZR, mult_IZR. ring. }
    destruct r, s; cbn [shr_1 shr_m loc_of_shr_record orb inbetween] in *;
      rewrite ?E in H; rewrite pow2_add, pow2_1; nra.
  - (* 2p *)
    assert (E : IZR (Z.pos p~0) = 2 * IZR (Z.pos p)).
    { change (Z.pos p~0) with (2 * Z.pos p)%Z. rewrite mult_IZR. ring. }
    destruct r, s; cbn [shr_1 shr_m loc_of_shr_record orb inbetween] in *;
      rewrite ?E in H; rewrite pow2_add, pow2_1; nra.
  - (* 1 *)
    destruct r, s; cbn [shr_1 shr_m loc_of_shr_record orb inbetween] in *;
      rewrite pow2_add, pow2_1; nra.
Qed.

Lemma iter_pos_nat {X : Type} (f : X -> X) p x :
  iter_pos f p x = Nat.iter (Pos.to_nat p) f x.
Proof.
  revert x. induction p as [p IH|p IH|]; intros x; cbn [iter_pos].
  - rewrite !IH. rewrite Pos2Nat.inj_xI.
    replace (S (2 * Pos.to_nat p)) with (Pos.to_nat p + (Pos.to_nat p + 1))%nat by lia.
    rewrite !Nat.iter_add. reflexivity.
  - rewrite !IH. rewrite Pos2Nat.inj_xO.
    replace (2 * Pos.to_nat p)%nat with (Pos.to_nat p + Pos.to_nat p)%nat by lia.
    rewrite Nat.iter_add. reflexivity.
  - reflexivity.
Qed.

Lemma shr_iter k mrs e x :
  (0 <= shr_m mrs)%Z ->
  inbetween (shr_m mrs) e (loc_of_shr_record mrs) x ->
  let mrs' := Nat.iter k shr_1 mrs in
  shr_m mrs' = (shr_m mrs / 2 ^ Z.of_nat k)%Z /\
  inbetween (shr_m mrs') (e + Z.of_nat k) (loc_of_shr_record mrs') x.
Proof.
  intros Hm H. induction k as [|k IH].
  - simpl. rewrite Z.div_1_r, Z.add_0_r. auto.
  - cbn zeta in *. destruct IH as [IH1 IH2].
    change (Nat.iter (S k) shr_1 mrs) with (shr_1 (Nat.iter k shr_1 mrs)).
    assert (H0 : (0 <= shr_m (Nat.iter k shr_1 mrs))%Z).
    { rewrite IH1. apply Z.div_pos; [assumption|]. apply Z.pow_pos_nonneg; lia. }
    split.
    + rewrite shr_1_m by assumption. rewrite IH1, Z.div_div by (try apply Z.pow_pos_nonneg; lia).
      f_equal. rewrite Nat2Z.inj_succ, Z.pow_succ_r by lia. ring.
    + replace (e + Z.of_nat (S k))%Z with (e + Z.of_nat k + 1)%Z by lia.
      apply shr_1_inbetween; assumption.
Qed.

Lemma shr_spec mrs e n x :
  (0 <= shr_m mrs)%Z -> (0 <= n)%Z ->
  inbetween (shr_m mrs) e (loc_of_shr_record mrs) x ->
  let '(mrs', e') := shr mrs e n in
  e' = (e + n)%Z /\
  shr_m mrs' = (shr_m mrs / 2 ^ n)%Z /\
  inbetween (shr_m mrs') e' (loc_of_shr_record mrs') x.
Proof.
  intros Hm Hn H. destruct n as [|p|p]; [| |lia]; cbn [shr].
  - rewrite Z.add_0_r, Z.div_1_r. auto.
  - rewrite iter_pos_nat.
    destruct (shr_iter (Pos.to_nat p) mrs e x Hm H) as [H1 H2].
    rewrite positive_nat_Z in H1, H2. auto.
Qed.

Lemma shr_nonpos mrs e n : (n <= 0)%Z -> shr mrs e n = (mrs, e).
Proof. destruct n; try reflexivity. lia. Qed.

Lemma shr_fexp_spec m e l x :
  (0 <= m)%Z -> inbetween m e l x -> (e <= fexp (Zdigits2 m + e))%Z ->
  let '(mrs', e') := shr_fexp prec emax m e l in
  e' = fexp (Zdigits2 m + e) /\
  shr_m mrs' = (m / 2 ^ (e' - e))%Z /\
  inbetween (shr_m mrs') e' (loc_of_shr_record mrs') x.
Proof.
  intros Hm H He. unfold shr_fexp. fold (fexp (Zdigits2 m + e)).
  destruct (loc_of_shr_record_of_loc m l) as [E1 E2].
  pose proof (shr_spec (shr_record_of_loc m l) e (fexp (Zdigits2 m + e) - e) x) as S.
  rewrite E1, E2 in S. specialize (S Hm ltac:(lia) H).
  destruct (shr _ _ _) as [mrs' e']. destruct S as (-> & S2 & S3).
  replace (e + (fexp (Zdigits2 m + e) - e))%Z with (fexp (Zdigits2 m + e)) in * by lia.
  auto.
Qed.

(** ** Rounding *)

Definition sign_of (x : spec_float) : bool :=
  match x with
  | S754_zero s | S754_infinity s | S754_finite s _ _ => s
  | S754_nan => false
  end.

(** [rounds_mag s x r]: the float [r], of sign [s], is a rounding of the
    magnitude [x]: it is a valid float, not NaN, and its magnitude lies
    between any two representable numbers that enclose [x]; it is an
    infinity only if no representable number below [2^1024] bounds [x]. *)
Definition rounds_mag (s : bool) (x : R) (r : spec_float) : Prop :=
  valid r = true /\ is_nan r = false /\ sign_of r = s /\
  (forall lo, representable lo -> lo <= x ->
     if is_infinite r then True else lo <= Rabs (F2R r)) /\
  (forall hi, representable hi -> x <= hi ->
     if is_infinite r then pow2 1024 <= hi else Rabs (F2R r) <= hi).

Lemma repr_grid_le lo m e :
  representable lo -> (0 <= m)%Z -> (-1074 <= e)%Z ->
  (e = -1074 \/ 2 ^ 52 <= m)%Z ->
  lo < (IZR m + 1) * pow2 e -> lo <= IZR m * pow2 e.
Proof.
  intros (ml & el & -> & Hml & Hel) Hm He Hc H.
  pose proof (pow2_pos e) as Hp. pose proof (pow2_pos el) as Hpl.
  destruct (Z.le_gt_cases e el) as [Hle|Hgt].
  - rewrite (pow2_split el e Hle) in *.
    rewrite <- Rmult_assoc, <- mult_IZR in *.
    set (k := (ml * 2 ^ (el - e))%Z) in *.
    assert (Hk : (k < m + 1)%Z).
    { apply lt_IZR. rewrite plus_IZR. nra. }
    assert (IZR k <= IZR m) by (apply IZR_le; lia). nra.
  - assert (H52 : (2 ^ 52 <= m)%Z) by lia.
    apply IZR_le in H52.
    assert (Hel' : pow2 el <= pow2 (e - 1)) by (apply pow2_le; lia).
    rewrite pow2_sub, pow2_1 in Hel'.
    assert (Hml' : IZR ml < IZR (2 ^ 53)) by (apply IZR_lt; lia).
    change (2 ^ 53)%Z with 9007199254740992%Z in Hml'.
    change (2 ^ 52)%Z with 4503599627370496%Z in H52.
    assert (0 <= IZR m) by (apply IZR_le; lia).
    destruct (Rle_or_lt (IZR ml) 0) as [Hn|Hpos]; nra.
Qed.

Lemma repr_grid_ge hi m e :
  representable hi -> (0 <= m)%Z -> (-1074 <= e)%Z ->
  (e = -1074 \/ 2 ^ 52 <= m)%Z ->
  IZR m * pow2 e < hi -> (IZR m + 1) * pow2 e <= hi.
Proof.
  intros (mh & eh & -> & Hmh & Heh) Hm He Hc H.
  pose proof (pow2_pos e) as Hp. pose proof (pow2_pos eh) as Hph.
  destruct (Z.le_gt_cases e eh) as [Hle|Hgt].
  - rewrite (pow2_split eh e Hle) in *.
    rewrite <- Rmult_assoc, <- mult_IZR in *.
    set (k := (mh * 2 ^ (eh - e))%Z) in *.
    assert (Hk : (m < k)%Z).
    { apply lt_IZR. nra. }
    assert (IZR (m + 1) <= IZR k) by (apply IZR_le; lia).
    rewrite plus_IZR in *. nra.
  - exfalso.
    assert (H52 : (2 ^ 52 <= m)%Z) by lia.
    apply IZR_le in H52.
    assert (Hel' : pow2 eh <= pow2 (e - 1)) by (apply pow2_le; lia).
    rewrite pow2_sub, pow2_1 in Hel'.
    assert (Hml' : IZR mh < IZR (2 ^ 53)) by (apply IZR_lt; lia).
    change (2 ^ 53)%Z with 9007199254740992%Z in Hml'.
    change (2 ^ 52)%Z with 4503599627370496%Z in H52.
    destruct (Rle_or_lt (IZR mh) 0) as [Hn|Hpos]; nra.
Qed.

Lemma round_nearest_even_cases m l :
  (round_nearest_even m l = m \/ round_nearest_even m l = (m + 1)%Z) /\
  (l = loc_Exact -> round_nearest_even m l = m).
Proof.
  destruct l as [|[| |]]; simpl; repeat split; auto; try discriminate.
  destruct (Z.even m); auto.
Qed.

Lemma Rabs_F2R_finite s p e : Rabs (F2R (S754_finite s p e)) = IZR (Z.pos p) * pow2 e.
Proof.
  pose proof (pow2_pos e). assert (0 < IZR (Z.pos p)) by (apply IZR_lt; lia).
  unfold F2R. destruct s; cbn [cond_Zopp].
  - rewrite Rabs_left; [|rewrite opp_IZR; nra]. rewrite opp_IZR. ring.
  - rewrite Rabs_right; [reflexivity|nra].
Qed.

Lemma valid_finite s p e :
  fexp (Z.pos (digits2_pos p) + e) = e -> (e <= 971)%Z ->
  valid (S754_finite s p e) = true.
Proof.
  intros Hc He. unfold valid, valid_binary, bounded, canonical_mantissa.
  fold (fexp (Z.pos (digits2_pos p) + e)). rewrite Hc, Z.eqb_refl.
  apply Z.leb_le. exact He.
Qed.

(** The rounding at the heart of every operation: a non-negative mantissa
    with the position of the exact value inside its unit interval. *)
Lemma binary_round_aux_rounds s m e l x :
  (0 <= m)%Z -> inbetween m e l x -> (e <= fexp (Zdigits2 m + e))%Z ->
  rounds_mag s x (binary_round_aux prec emax s m e l).
Proof.
  intros Hm Hin He. unfold binary_round_aux.
  pose proof (shr_fexp_spec m e l x Hm Hin He) as S1.
  destruct (shr_fexp prec emax m e l) as [mrs1 e1].
  destruct S1 as (He1 & Hm1 & Hin1).
  set (m1 := shr_m mrs1) in *. set (l1 := loc_of_shr_record mrs1) in *.
  assert (Hpn : (0 < 2 ^ (e1 - e))%Z) by (apply Z.pow_pos_nonneg; lia).
  assert (Hm1_nonneg : (0 <= m1)%Z) by (rewrite Hm1; apply Z.div_pos; lia).
  assert (He1min : (-1074 <= e1)%Z) by (rewrite He1, fexp_eq; lia).
  assert (Hm1_lt : (m1 < 2 ^ 53)%Z).
  { destruct (Z.eq_dec m 0) as [->|Hm0].
    - rewrite Hm1, Z.div_0_l by lia. reflexivity.
    - pose proof (Zdigits2_bounds m ltac:(lia)) as [_ Hd].
      pose proof (Zdigits2_nonneg m) as Hd0.
      rewrite Hm1. apply Z.div_lt_upper_bound; [assumption|].
      rewrite <- Z.pow_add_r by lia.
      apply Z.lt_le_trans with (1 := Hd). apply Z.pow_le_mono_r; [lia|].
      rewrite He1, fexp_eq. lia. }
  assert (Hm1_norm : (e1 = -1074 \/ 2 ^ 52 <= m1)%Z).
  { destruct (Z.eq_dec e1 (-1074)) as [|Hne]; [left; assumption|right].
    assert (E : e1 = (Zdigits2 m + e - 53)%Z) by (rewrite fexp_eq in He1; lia).
    destruct (Z.eq_dec m 0) as [->|Hm0]; [simpl in E; lia|].
    pose proof (Zdigits2_bounds m ltac:(lia)) as [Hd _].
    rewrite Hm1. apply Z.div_le_lower_bound; [assumption|].
    rewrite <- Z.pow_add_r by lia.
    replace (e1 - e + 52)%Z with (Zdigits2 m - 1)%Z by lia. exact Hd. }
  destruct (round_nearest_even_cases m1 l1) as [Hm2 Hm2ex].
  set (m2 := round_nearest_even m1 l1) in *.
  assert (Hm2_range : (0 <= m2 <= 2 ^ 53)%Z) by lia.
  (* the value carried by the rounded mantissa *)
  pose proof (inbetween_bounds _ _ _ _ Hin1) as [Hx1 Hx2].
  pose proof (pow2_pos e1) as Hp1.
  assert (Hlow : forall lo, representable lo -> lo <= x -> lo <= IZR m2 * pow2 e1).
  { intros lo Hr Hlo.
    assert (lo <= IZR m1 * pow2 e1) by (apply repr_grid_le; try assumption; lra).
    assert (IZR m1 <= IZR m2) by (apply IZR_le; lia). nra. }
  assert (Hupp : forall hi, representable hi -> x <= hi -> IZR m2 * pow2 e1 <= hi).
  { intros hi Hr Hhi. destruct (Req_dec x (IZR m1 * pow2 e1)) as [Ex|Nx].
    - rewrite (Hm2ex (inbetween_exact _ _ _ _ Hin1 Ex)). lra.
    - assert ((IZR m1 + 1) * pow2 e1 <= hi) by (apply repr_grid_ge; try assumption; lra).
      assert (IZR m2 <= IZR m1 + 1) by (rewrite <- plus_IZR; apply IZR_le; lia). nra. }
  (* the second shift renormalises a mantissa of 54 bits *)
  assert (S2 : exists m3 e3,
             shr_fexp prec emax m2 e1 loc_Exact
             = ({| shr_m := m3; shr_r := false; shr_s := false |}, e3) /\
             IZR m3 * pow2 e3 = IZR m2 * pow2 e1 /\
             (0 <= m3 < 2 ^ 53)%Z /\ (-1074 <= e3)%Z /\
             (e3 = -1074 \/ 2 ^ 52 <= m3)%Z).
  { unfold shr_fexp. fold (fexp (Zdigits2 m2 + e1)). cbn [shr_record_of_loc].
    destruct (Z.eq_dec m2 (2 ^ 53)) as [E53|N53].
    - exists (2 ^ 52)%Z, (e1 + 1)%Z. rewrite E53.
      change (Zdigits2 (2 ^ 53)) with 54%Z.
      replace (fexp (54 + e1) - e1)%Z with 1%Z by (rewrite fexp_eq; lia).
      split; [reflexivity|]. split; [|lia].
      rewrite pow2_add, pow2_1. change (2 ^ 53)%Z with (2 * 2 ^ 52)%Z.
      rewrite mult_IZR. ring.
    - exists m2, e1.
      assert (Hd2 : (Zdigits2 m2 <= 53)%Z) by (apply Zdigits2_le_of_lt; lia).
      rewrite shr_nonpos by (rewrite fexp_eq; lia).
      split; [reflexivity|]. split; [reflexivity|]. split; [lia|]. split; [lia|].
      destruct Hm1_norm; [left; assumption|right; lia]. }
  destruct S2 as (m3 & e3 & -> & Hval & Hm3 & He3 & Hnorm). cbn [shr_m].
  unfold rounds_mag.
  destruct m3 as [|p|p]; [| |lia].
  - (* zero *)
    assert (E0 : IZR m2 * pow2 e1 = 0) by (rewrite <- Hval; simpl; ring).
    cbn [valid valid_binary is_nan sign_of is_infinite F2R]. rewrite Rabs_R0.
    repeat split; try reflexivity.
    + intros lo Hr Hlo. rewrite <- E0. auto.
    + intros hi Hr Hhi. rewrite <- E0. auto.
  - assert (Hcanon : fexp (Z.pos (digits2_pos p) + e3) = e3).
    { change (Z.pos (digits2_pos p)) with (Zdigits2 (Z.pos p)). rewrite fexp_eq.
      destruct Hnorm as [->|H52].
      - assert (Zdigits2 (Z.pos p) <= 53)%Z by (apply Zdigits2_le_of_lt; lia). lia.
      - assert (Zdigits2 (Z.pos p) = 53)%Z by (apply Zdigits2_unique; lia). lia. }
    change (emax - prec)%Z with 971%Z.
    destruct (Z.leb_spec e3 971) as [Hfin|Hinf].
    + (* finite *)
      cbn [is_nan sign_of is_infinite]. rewrite Rabs_F2R_finite, Hval.
      repeat split; try reflexivity; try assumption.
      apply valid_finite; assumption.
    + (* overflow *)
      cbn [valid valid_binary is_nan sign_of is_infinite].
      repeat split; try reflexivity.
      intros hi Hr Hhi. apply Hupp in Hhi; [|assumption].
      rewrite <- Hval in Hhi.
      assert (H52 : (2 ^ 52 <= Z.pos p)%Z) by lia.
      apply IZR_le in H52.
      assert (Hp972 : pow2 972 <= pow2 e3) by (apply pow2_le; lia).
      replace (pow2 1024) with (IZR (2 ^ 52) * pow2 972).
      * pose proof (pow2_pos 972). pose proof (pow2_pos e3).
        assert (0 < IZR (2 ^ 52)) by (apply IZR_lt; reflexivity). nra.
      * rewrite <- pow2_IZR by lia. rewrite <- pow2_add. reflexivity.
Qed.

(** ** Signed rounding *)

Lemma F2R_sign r :
  (sign_of r = false -> F2R r = Rabs (F2R r)) /\
  (sign_of r = true -> F2R r = - Rabs (F2R r)).
Proof.
  destruct r as [s|s| |s p e]; cbn [sign_of]; try (cbn [F2R]; rewrite Rabs_R0; split; intros; ring).
  rewrite Rabs_F2R_finite. unfold F2R. split; intros ->; cbn [cond_Zopp].
  - reflexivity.
  - rewrite opp_IZR. ring.
Qed.

(** [rounds x r]: the float [r] is a rounding of the real [x]. *)
Definition rounds (x : R) (r : spec_float) : Prop :=
  rounds_mag (sign_of r) (Rabs x) r /\
  (x < 0 -> sign_of r = true) /\ (0 < x -> sign_of r = false).

Lemma rounds_of_mag s x r :
  rounds_mag s (Rabs x) r -> (x < 0 -> s = true) -> (0 < x -> s = false) -> rounds x r.
Proof.
  intros H Hn Hp. assert (Es : sign_of r = s) by apply H.
  unfold rounds. rewrite Es. auto.
Qed.

(** What a rounding gives: a finite, valid float inside any representable
    enclosure of the exact value that stays within the finite range. *)
Lemma rounds_encl x r lo hi :
  rounds x r -> representable lo -> representable hi ->
  lo <= x <= hi -> - pow2 1024 < lo -> hi < pow2 1024 ->
  is_finite r = true /\ valid r = true /\ lo <= F2R r <= hi.
Proof.
  intros [(Hv & Hnan & _ & Hlow & Hupp) [Hneg Hpos]] Hrl Hrh [Hlo Hhi] Hl Hh.
  destruct (F2R_sign r) as [Fp Fn].
  pose proof (Rabs_pos (F2R r)) as Habs.
  destruct (Rtotal_order x 0) as [Hx|[Hx|Hx]].
  - (* negative *)
    specialize (Hneg Hx). specialize (Fn Hneg).
    pose proof (Hupp (- lo) (representable_opp _ Hrl)) as U.
    rewrite Rabs_left in U by assumption. specialize (U ltac:(lra)).
    assert (Hfin : is_infinite r = false).
    { destruct (is_infinite r); [lra|reflexivity]. }
    rewrite Hfin in U.
    split; [destruct r; try discriminate; reflexivity|]. split; [assumption|].
    split; [lra|].
    destruct (Rle_or_lt 0 hi) as [H0|H0]; [lra|].
    pose proof (Hlow (- hi) (representable_opp _ Hrh)) as L.
    rewrite Rabs_left in L by assumption. specialize (L ltac:(lra)).
    rewrite Hfin in L. lra.
  - (* zero *)
    subst x. pose proof (Hupp 0 representable_0) as U.
    rewrite Rabs_R0 in U. specialize (U ltac:(lra)).
    assert (Hfin : is_infinite r = false).
    { destruct (is_infinite r); [pose proof (pow2_pos 1024); lra|reflexivity]. }
    rewrite Hfin in U.
    assert (E : F2R r = 0).
    { destruct (Rcase_abs (F2R r)) as [C|C].
      - rewrite Rabs_left in U by assumption. lra.
      - rewrite Rabs_right in U by assumption. lra. }
    split; [destruct r; try discriminate; reflexivity|]. split; [assumption|]. lra.
  - (* positive *)
    specialize (Hpos Hx). specialize (Fp Hpos).
    pose proof (Hupp hi Hrh) as U.
    rewrite Rabs_right in U by lra. specialize (U ltac:(lra)).
    assert (Hfin : is_infinite r = false).
    { destruct (is_infinite r); [lra|reflexivity]. }
    rewrite Hfin in U.
    split; [destruct r; try discriminate; reflexivity|]. split; [assumption|].
    split; [|lra].
    destruct (Rle_or_lt lo 0) as [H0|H0]; [lra|].
    pose proof (Hlow lo Hrl) as L.
    rewrite Rabs_right in L by lra. specialize (L ltac:(lra)).
    rewrite Hfin in L. lra.
Qed.

Lemma rounds_not_nan x r : rounds x r -> is_nan r = false.
Proof. intros [H _]. apply H. Qed.

Lemma rounds_valid x r : rounds x r -> valid r = true.
Proof. intros [H _]. apply H. Qed.

(** A valid finite float rounds its own value. *)
Lemma rounds_self r : is_finite r = true -> valid r = true -> rounds (F2R r) r.
Proof.
  intros Hf Hv. destruct (F2R_sign r) as [Fp Fn].
  pose proof (Rabs_pos (F2R r)).
  assert (Hinf : is_infinite r = false) by (destruct r; try discriminate; reflexivity).
  split; [|split].
  - unfold rounds_mag. rewrite Hinf.
    repeat split; try assumption; try (destruct r; try discriminate; reflexivity); auto.
  - intros Hn. destruct (sign_of r); [reflexivity|]. specialize (Fp eq_refl). lra.
  - intros Hp. destruct (sign_of r); [|reflexivity]. specialize (Fn eq_refl). lra.
Qed.

Lemma rounds_zero s : rounds 0 (S754_zero s).
Proof. apply (rounds_self (S754_zero s)); reflexivity. Qed.

Lemma valid_finite_inv s p e :
  valid (S754_finite s p e) = true ->
  fexp (Z.pos (digits2_pos p) + e) = e /\ (e <= 971)%Z.
Proof.
  unfold valid, valid_binary, bounded, canonical_mantissa.
  fold (fexp (Z.pos (digits2_pos p) + e)).
  intros H. apply andb_prop in H. destruct H as [H1 H2].
  apply Z.eqb_eq in H1. apply Z.leb_le in H2. auto.
Qed.

Lemma F2R_finite_sign s p e :
  (s = true -> F2R (S754_finite s p e) < 0) /\
  (s = false -> 0 < F2R (S754_finite s p e)).
Proof.
  pose proof (pow2_pos e). assert (0 < IZR (Z.pos p)) by (apply IZR_lt; lia).
  unfold F2R. split; intros ->; cbn [cond_Zopp]; [rewrite opp_IZR|]; nra.
Qed.

(** ** Multiplication *)

Definition mul := SFmul prec emax.

Lemma digits_mul_ge p q :
  (Z.pos (digits2_pos p) + Z.pos (digits2_pos q) - 1 <= Z.pos (digits2_pos (p * q)))%Z.
Proof.
  pose proof (digits_bounds p) as [Hp _]. pose proof (digits_bounds q) as [Hq _].
  change (Z.pos (digits2_pos (p * q))) with (Zdigits2 (Z.pos (p * q))).
  set (dp := Z.pos (digits2_pos p)) in *. set (dq := Z.pos (digits2_pos q)) in *.
  assert (H : (2 ^ (dp + dq - 2) <= Z.pos (p * q))%Z).
  { replace (dp + dq - 2)%Z with ((dp - 1) + (dq - 1))%Z by lia.
    rewrite Z.pow_add_r by lia. rewrite Pos2Z.inj_mul.
    apply Z.mul_le_mono_nonneg; try assumption; apply Z.pow_nonneg; lia. }
  apply Zdigits2_ge_of_ge in H; lia.
Qed.

Lemma mul_rounds x y :
  is_finite x = true -> is_finite y = true -> valid x = true -> valid y = true ->
  rounds (F2R x * F2R y) (mul x y).
Proof.
  intros Fx Fy Vx Vy.
  destruct x as [sx|sx| |sx mx ex]; try discriminate;
    destruct y as [sy|sy| |sy my ey]; try discriminate; cbn [mul SFmul F2R];
    rewrite ?Rmult_0_l, ?Rmult_0_r; try apply rounds_zero.
  unfold mul, SFmul.
  apply valid_finite_inv in Vx, Vy. destruct Vx as [Cx Bx], Vy as [Cy By].
  pose proof (digits_mul_ge mx my) as Hd. rewrite fexp_eq in Cx, Cy.
  destruct (F2R_finite_sign sx mx ex) as [Nx Px].
  destruct (F2R_finite_sign sy my ey) as [Ny Py].
  apply rounds_of_mag with (s := xorb sx sy).
  - apply binary_round_aux_rounds.
    + lia.
    + cbn [inbetween]. fold (F2R (S754_finite sx mx ex)) (F2R (S754_finite sy my ey)).
      rewrite Rabs_mult, !Rabs_F2R_finite, Pos2Z.inj_mul, mult_IZR, pow2_add. ring.
    + cbn [Zdigits2]. rewrite fexp_eq. lia.
  - fold (F2R (S754_finite sx mx ex)) (F2R (S754_finite sy my ey)).
    destruct sx, sy; cbn [xorb]; intros; try reflexivity; exfalso;
      try specialize (Nx eq_refl); try specialize (Ny eq_refl);
      try specialize (Px eq_refl); try specialize (Py eq_refl); nra.
  - fold (F2R (S754_finite sx mx ex)) (F2R (S754_finite sy my ey)).
    destruct sx, sy; cbn [xorb]; intros; try reflexivity; exfalso;
      try specialize (Nx eq_refl); try specialize (Ny eq_refl);
      try specialize (Px eq_refl); try specialize (Py eq_refl); nra.
Qed.

(** ** Normalisation of an integer mantissa *)

Lemma iter_xO p d : Z.pos (Pos.iter xO p d) = (Z.pos p * 2 ^ Z.pos d)%Z.
Proof.
  induction d as [|d IH] using Pos.peano_ind.
  - simpl. lia.
  - rewrite Pos.iter_succ, Pos2Z.inj_xO, IH, Pos2Z.inj_succ, Z.pow_succ_r by lia. ring.
Qed.

Lemma shl_align_spec mx ex ex' :
  let '(mz, ez) := shl_align mx ex ex' in
  ez = Z.min ex ex' /\ Z.pos mz = (Z.pos mx * 2 ^ (ex - ez))%Z.
Proof.
  unfold shl_align. destruct (ex' - ex)%Z as [|d|d] eqn:E.
  - split; [lia|]. replace (ex - ex)%Z with 0%Z by lia. simpl. lia.
  - split; [lia|]. replace (ex - ex)%Z with 0%Z by lia. simpl. lia.
  - split; [lia|]. rewrite iter_xO. f_equal. f_equal. lia.
Qed.

Lemma Zdigits2_shift m k :
  (0 < m)%Z -> (0 <= k)%Z -> Zdigits2 (m * 2 ^ k) = (Zdigits2 m + k)%Z.
Proof.
  intros Hm Hk. pose proof (Zdigits2_bounds m Hm) as [H1 H2].
  pose proof (Zdigits2_nonneg m) as H0.
  assert (Hd : (1 <= Zdigits2 m)%Z).
  { destruct m; try lia. simpl. lia. }
  assert (Hpk : (0 < 2 ^ k)%Z) by (apply Z.pow_pos_nonneg; lia).
  apply Zdigits2_unique; [lia| |nia].
  replace (Zdigits2 m + k - 1)%Z with ((Zdigits2 m - 1) + k)%Z by lia.
  rewrite !Z.pow_add_r by lia. nia.
Qed.

Lemma binary_round_rounds s m e :
  rounds_mag s (IZR (Z.pos m) * pow2 e) (binary_round prec emax s m e).
Proof.
  unfold binary_round. fold (fexp (Z.pos (digits2_pos m) + e)).
  pose proof (shl_align_spec m e (fexp (Z.pos (digits2_pos m) + e))) as S.
  destruct (shl_align _ _ _) as [mz ez]. destruct S as [Ez Em].
  apply binary_round_aux_rounds.
  - lia.
  - cbn [inbetween]. rewrite Em, mult_IZR, <- pow2_IZR by lia.
    rewrite Rmult_assoc, <- pow2_add. do 2 f_equal. lia.
  - rewrite Em, Zdigits2_shift by lia. cbn [Zdigits2].
    replace (Z.pos (digits2_pos m) + (e - ez) + ez)%Z with (Z.pos (digits2_pos m) + e)%Z by lia.
    lia.
Qed.

Lemma binary_normalize_rounds m e sz :
  rounds (IZR m * pow2 e) (binary_normalize prec emax m e sz).
Proof.
  pose proof (pow2_pos e) as Hp.
  destruct m as [|p|p]; cbn [binary_normalize].
  - rewrite Rmult_0_l. apply rounds_zero.
  - assert (0 < IZR (Z.pos p)) by (apply IZR_lt; lia).
    apply rounds_of_mag with (s := false).
    + rewrite Rabs_right by nra. apply binary_round_rounds.
    + intros; exfalso; nra.
    + reflexivity.
  - assert (IZR (Z.neg p) < 0) by (apply IZR_lt; lia).
    apply rounds_of_mag with (s := true).
    + rewrite Rabs_left by nra.
      replace (- (IZR (Z.neg p) * pow2 e)) with (IZR (Z.pos p) * pow2 e)
        by (change (Z.neg p) with (- Z.pos p)%Z; rewrite opp_IZR; ring).
      apply binary_round_rounds.
    + reflexivity.
    + intros; exfalso; nra.
Qed.

(** Conversion of an integer (round to nearest, ties to even) *)
Definition of_Z (n : Z) : spec_float := binary_normalize prec emax n 0 false.

Lemma of_Z_rounds n : rounds (IZR n) (of_Z n).
Proof.
  replace (IZR n) with (IZR n * pow2 0) by (rewrite pow2_0; ring).
  apply binary_normalize_rounds.
Qed.

(** ** Addition and subtraction *)

Definition add := SFadd prec emax.
Definition sub := SFsub prec emax.

Lemma aligned_value s m e ez :
  (ez <= e)%Z ->
  IZR (cond_Zopp s (Z.pos (fst (shl_align m e ez)))) * pow2 ez
  = F2R (S754_finite s m e).
Proof.
  intros H. pose proof (shl_align_spec m e ez) as S.
  destruct (shl_align m e ez) as [mz ez']. destruct S as [E1 E2]. cbn [fst].
  assert (Eez : ez' = ez) by lia. clear E1. subst ez'.
  assert (Ep : pow2 e = pow2 (e - ez) * pow2 ez).
  { rewrite <- pow2_add. f_equal. lia. }
  unfold F2R. rewrite Ep.
  destruct s; cbn [cond_Zopp]; rewrite ?opp_IZR, E2, mult_IZR, <- pow2_IZR by lia; ring.
Qed.

Lemma add_rounds x y :
  is_finite x = true -> is_finite y = true -> valid x = true -> valid y = true ->
  rounds (F2R x + F2R y) (add x y).
Proof.
  intros Fx Fy Vx Vy.
  destruct x as [sx|sx| |sx mx ex]; try discriminate;
    destruct y as [sy|sy| |sy my ey]; try discriminate.
  - cbn [F2R]. rewrite Rplus_0_l. destruct sx, sy; apply rounds_zero.
  - cbn [add SFadd]. replace (F2R (S754_zero sx)) with 0 by reflexivity.
    rewrite Rplus_0_l. apply rounds_self; assumption.
  - cbn [add SFadd]. replace (F2R (S754_zero sy)) with 0 by reflexivity.
    rewrite Rplus_0_r. apply rounds_self; assumption.
  - unfold add, SFadd.
    rewrite <- (aligned_value sx mx ex (Z.min ex ey)) by lia.
    rewrite <- (aligned_value sy my ey (Z.min ex ey)) by lia.
    rewrite <- Rmult_plus_distr_r, <- plus_IZR.
    apply binary_normalize_rounds.
Qed.

Lemma sub_rounds x y :
  is_finite x = true -> is_finite y = true -> valid x = true -> valid y = true ->
  rounds (F2R x - F2R y) (sub x y).
Proof.
  intros Fx Fy Vx Vy.
  destruct x as [sx|sx| |sx mx ex]; try discriminate;
    destruct y as [sy|sy| |sy my ey]; try discriminate.
  - cbn [F2R]. rewrite Rminus_0_r. destruct sx, sy; apply rounds_zero.
  - cbn [sub SFsub]. replace (F2R (S754_zero sx)) with 0 by reflexivity.
    replace (0 - F2R (S754_finite sy my ey)) with (F2R (S754_finite (negb sy) my ey)).
    + apply rounds_self; [reflexivity|exact Vy].
    + unfold F2R. destruct sy; cbn [negb cond_Zopp]; rewrite ?opp_IZR; ring.
  - cbn [sub SFsub]. replace (F2R (S754_zero sy)) with 0 by reflexivity.
    rewrite Rminus_0_r. apply rounds_self; assumption.
  - unfold sub, SFsub.
    rewrite <- (aligned_value sx mx ex (Z.min ex ey)) by lia.
    rewrite <- (aligned_value sy my ey (Z.min ex ey)) by lia.
    rewrite <- Rmult_minus_distr_r, <- minus_IZR.
    apply binary_normalize_rounds.
Qed.

(** [x - x] is [+0] *)
Lemma sub_diag x : is_finite x = true -> sub x x = S754_zero false.
Proof.
  destruct x as [s|s| |s m e]; try discriminate; intros _.
  - destruct s; reflexivity.
  - unfold sub, SFsub. rewrite Z.sub_diag. reflexivity.
Qed.

(** ** Division *)

Definition div := SFdiv prec emax.

Lemma new_location_inbetween m r q e :
  (0 < m)%Z -> (0 <= r < m)%Z ->
  inbetween q e (new_location m r) ((IZR q + IZR r / IZR m) * pow2 e).
Proof.
  intros Hm [Hr0 Hr1]. pose proof (pow2_pos e) as Hp.
  assert (Hm' : 0 < IZR m) by (apply IZR_lt; lia).
  assert (Hfrac : IZR r / IZR m * IZR m = IZR r) by (field; lra).
  assert (Hr0' : 0 <= IZR r) by (apply IZR_le; lia).
  unfold new_location, new_location_even, new_location_odd.
  destruct (Z.eq_dec r 0) as [->|Hr].
  - replace (0 / IZR m) with 0 by (unfold Rdiv; ring).
    destruct (Z.even m); cbn [Z.eqb inbetween]; ring.
  - assert (Hrpos : 0 < IZR r) by (apply IZR_lt; lia).
    assert (Hq : 0 < IZR r / IZR m) by (apply Rdiv_lt_0_compat; assumption).
    assert (Hlt1 : IZR r / IZR m < 1).
    { apply Rmult_lt_reg_r with (IZR m); [assumption|].
      rewrite Hfrac, Rmult_1_l. apply IZR_lt. lia. }
    assert (Hhalf : forall c : comparison,
               (2 * r ?= m)%Z = c ->
               match c with
               | Lt => IZR r / IZR m < 1 / 2
               | Eq => IZR r / IZR m = 1 / 2
               | Gt => 1 / 2 < IZR r / IZR m
               end).
    { intros c Hc. destruct c.
      - apply Z.compare_eq in Hc. apply (f_equal IZR) in Hc. rewrite mult_IZR in Hc.
        apply Rmult_eq_reg_r with (IZR m); [|lra]. rewrite Hfrac. lra.
      - rewrite Z.compare_lt_iff in Hc. apply IZR_lt in Hc. rewrite mult_IZR in Hc.
        apply Rmult_lt_reg_r with (IZR m); [assumption|]. rewrite Hfrac. lra.
      - rewrite Z.compare_gt_iff in Hc. apply IZR_lt in Hc. rewrite mult_IZR in Hc.
        apply Rmult_lt_reg_r with (IZR m); [assumption|]. rewrite Hfrac. lra. }
    destruct (Z.even m) eqn:Ev; destruct (Z.eqb_spec r 0) as [|_]; try contradiction.
    + specialize (Hhalf _ eq_refl). destruct (2 * r ?= m)%Z; cbn [inbetween]; nra.
    + assert (Hne : (2 * r <> m)%Z).
      { intros E. rewrite <- E, Z.even_mul in Ev. discriminate. }
      destruct (2 * r + 1 ?= m)%Z eqn:C.
      * apply Z.compare_eq in C.
        assert (H2 : (2 * r ?= m)%Z = Lt) by (rewrite Z.compare_lt_iff; lia).
        specialize (Hhalf _ H2). cbn [inbetween]. nra.
      * rewrite Z.compare_lt_iff in C.
        assert (H2 : (2 * r ?= m)%Z = Lt) by (rewrite Z.compare_lt_iff; lia).
        specialize (Hhalf _ H2). cbn [inbetween]. nra.
      * rewrite Z.compare_gt_iff in C.
        assert (H2 : (2 * r ?= m)%Z = Gt) by (rewrite Z.compare_gt_iff; lia).
        specialize (Hhalf _ H2). cbn [inbetween]. nra.
Qed.

Lemma div_core_spec m1 e1 m2 e2 :
  (0 < m1)%Z -> (0 < m2)%Z ->
  let '(q, e', l) := SFdiv_core_binary prec emax m1 e1 m2 e2 in
  (0 <= q)%Z /\
  inbetween q e' l (IZR m1 * pow2 e1 / (IZR m2 * pow2 e2)) /\
  (e' <= fexp (Zdigits2 q + e'))%Z.
Proof.
  intros H1 H2. unfold SFdiv_core_binary.
  fold (fexp (Zdigits2 m1 + e1 - (Zdigits2 m2 + e2))).
  set (D := (Zdigits2 m1 + e1 - (Zdigits2 m2 + e2))%Z).
  set (e' := Z.min (fexp D) (e1 - e2)).
  set (s := (e1 - e2 - e')%Z).
  assert (Hs : (0 <= s)%Z) by (unfold s, e'; lia).
  set (m' := match s with Z.pos _ => Z.shiftl m1 s | 0%Z => m1 | Z.neg _ => 0%Z end).
  assert (Em' : m' = (m1 * 2 ^ s)%Z).
  { unfold m'. destruct s as [|p|p]; [simpl; lia| |lia].
    apply Z.shiftl_mul_pow2. lia. }
  pose proof (Z_div_mod m' m2 ltac:(lia)) as Hdm.
  destruct (Z.div_eucl m' m2) as [q r]. destruct Hdm as [Eq Hr].
  assert (Hps : (0 < 2 ^ s)%Z) by (apply Z.pow_pos_nonneg; lia).
  assert (Hq : (0 <= q)%Z) by nia.
  split; [exact Hq|]. split.
  - replace (IZR m1 * pow2 e1 / (IZR m2 * pow2 e2))
      with ((IZR q + IZR r / IZR m2) * pow2 e').
    + apply new_location_inbetween; lia.
    + assert (Hm2 : 0 < IZR m2) by (apply IZR_lt; lia).
      pose proof (pow2_pos e2). pose proof (pow2_pos e').
      assert (Ee1 : pow2 e1 = IZR (2 ^ s) * pow2 e' * pow2 e2).
      { rewrite <- pow2_IZR, <- !pow2_add by lia. f_equal. unfold s. lia. }
      assert (Em : IZR m1 * IZR (2 ^ s) = IZR m2 * IZR q + IZR r).
      { rewrite <- !mult_IZR, <- plus_IZR. f_equal. lia. }
      rewrite Ee1. field_simplify_eq; [|lra]. nra.
  - destruct (Z.le_gt_cases e' (-1074)) as [Hlow|Hhigh].
    + rewrite fexp_eq. lia.
    + assert (He' : (e' <= D - 53)%Z) by (unfold e' in *; rewrite fexp_eq in *; lia).
      pose proof (Zdigits2_bounds m1 H1) as [Hd1 _].
      pose proof (Zdigits2_bounds m2 H2) as [_ Hd2].
      pose proof (Zdigits2_nonneg m2) as Hd20.
      set (k := (D - e' - 1)%Z).
      assert (Hk : (0 <= k)%Z) by (unfold k; lia).
      assert (Hqk : (2 ^ k <= q)%Z).
      { assert (Hm'k : (m2 * 2 ^ k <= m')%Z).
        { rewrite Em'.
          assert (E : (2 ^ (Zdigits2 m1 - 1) * 2 ^ s = 2 ^ Zdigits2 m2 * 2 ^ k)%Z).
          { assert (1 <= Zdigits2 m1)%Z by (destruct m1; simpl; lia).
            rewrite <- !Z.pow_add_r by lia. f_equal. unfold k, D, s. lia. }
          assert (0 < 2 ^ k)%Z by (apply Z.pow_pos_nonneg; lia).
          nia. }
        destruct (Z.le_gt_cases (2 ^ k) q) as [|Hlt]; [assumption|exfalso].
        assert (q + 1 <= 2 ^ k)%Z by lia. nia. }
      apply Zdigits2_ge_of_ge in Hqk; [|assumption].
      apply Z.le_trans with (fexp D); [unfold e'; lia|].
      apply fexp_mono. unfold k in Hqk. lia.
Qed.

Lemma div_rounds x y :
  is_finite x = true -> is_finite y = true -> is_zero y = false ->
  rounds (F2R x / F2R y) (div x y).
Proof.
  intros Fx Fy Zy.
  destruct y as [sy|sy| |sy my ey]; try discriminate.
  destruct x as [sx|sx| |sx mx ex]; try discriminate.
  - cbn [div SFdiv]. replace (F2R (S754_zero sx)) with 0 by reflexivity.
    unfold Rdiv. rewrite Rmult_0_l. apply rounds_zero.
  - unfold div, SFdiv.
    pose proof (div_core_spec (Z.pos mx) ex (Z.pos my) ey ltac:(lia) ltac:(lia)) as C.
    destruct (SFdiv_core_binary prec emax (Z.pos mx) ex (Z.pos my) ey) as [[q e'] l].
    destruct C as (Hq & Hin & He).
    destruct (F2R_finite_sign sx mx ex) as [Nx Px].
    destruct (F2R_finite_sign sy my ey) as [Ny Py].
    assert (Hy : Rabs (F2R (S754_finite sy my ey)) <> 0).
    { rewrite Rabs_F2R_finite. pose proof (pow2_pos ey).
      assert (0 < IZR (Z.pos my)) by (apply IZR_lt; lia). nra. }
    assert (Hy' : F2R (S754_finite sy my ey) <> 0).
    { intros E. apply Hy. rewrite E. apply Rabs_R0. }
    apply rounds_of_mag with (s := xorb sx sy).
    + apply binary_round_aux_rounds; try assumption.
      unfold Rdiv. rewrite Rabs_mult, Rabs_inv, !Rabs_F2R_finite. exact Hin.
    + intros Hneg. destruct sx, sy; cbn [xorb]; try reflexivity; exfalso;
        try specialize (Nx eq_refl); try specialize (Ny eq_refl);
        try specialize (Px eq_refl); try specialize (Py eq_refl).
      * assert (0 < F2R (S754_finite true mx ex) / F2R (S754_finite true my ey)).
        { replace (F2R (S754_finite true mx ex) / F2R (S754_finite true my ey))
            with ((- F2R (S754_finite true mx ex)) / (- F2R (S754_finite true my ey)))
            by (field; assumption).
          apply Rdiv_lt_0_compat; lra. }
        lra.
      * assert (0 < F2R (S754_finite false mx ex) / F2R (S754_finite false my ey))
          by (apply Rdiv_lt_0_compat; lra).
        lra.
    + intros Hpos. destruct sx, sy; cbn [xorb]; try reflexivity; exfalso;
        try specialize (Nx eq_refl); try specialize (Ny eq_refl);
        try specialize (Px eq_refl); try specialize (Py eq_refl).
      * assert (0 < (- F2R (S754_finite true mx ex)) / F2R (S754_finite false my ey))
          by (apply Rdiv_lt_0_compat; lra).
        unfold Rdiv in *. lra.
      * assert (0 < F2R (S754_finite false mx ex) / (- F2R (S754_finite true my ey)))
          by (apply Rdiv_lt_0_compat; lra).
        replace (F2R (S754_finite false mx ex) / - F2R (S754_finite true my ey))
          with (- (F2R (S754_finite false mx ex) / F2R (S754_finite true my ey))) in H
          by (field; assumption).
        lra.
Qed.

(** ** Square root *)

Definition sqrt := SFsqrt prec emax.

Lemma sqrt_core_spec m e :
  (0 < m)%Z ->
  let '(q, e', l) := SFsqrt_core_binary prec emax m e in
  (0 <= q)%Z /\
  inbetween q e' l (R_sqrt.sqrt (IZR m * pow2 e)) /\
  (e' <= fexp (Zdigits2 q + e'))%Z.
Proof.
  intros Hm. unfold SFsqrt_core_binary.
  fold (fexp (Z.div2 (Zdigits2 m + e + 1))).
  set (M := Z.div2 (Zdigits2 m + e + 1)).
  set (e' := Z.min (fexp M) (Z.div2 e)).
  set (s := (e - 2 * e')%Z).
  assert (HM : (2 * M <= Zdigits2 m + e + 1)%Z).
  { unfold M. rewrite Z.div2_div. pose proof (Z.mul_div_le (Zdigits2 m + e + 1) 2). lia. }
  assert (He2 : (2 * Z.div2 e <= e)%Z).
  { rewrite Z.div2_div. pose proof (Z.mul_div_le e 2). lia. }
  assert (Hs : (0 <= s)%Z) by (unfold s, e'; lia).
  set (m' := match s with Z.pos _ => Z.shiftl m s | 0%Z => m | Z.neg _ => 0%Z end).
  assert (Em' : m' = (m * 2 ^ s)%Z).
  { unfold m'. destruct s as [|p|p]; [simpl; lia| |lia].
    apply Z.shiftl_mul_pow2. lia. }
  assert (Hps : (0 < 2 ^ s)%Z) by (apply Z.pow_pos_nonneg; lia).
  assert (Hm'pos : (0 < m')%Z) by nia.
  pose proof (Z.sqrtrem_spec m' ltac:(lia)) as Hsr.
  destruct (Z.sqrtrem m') as [q r]. destruct Hsr as [Eq Hr].
  assert (Hq : (0 <= q)%Z) by lia.
  split; [exact Hq|].
  pose proof (pow2_pos e') as Hp.
  assert (Ex : R_sqrt.sqrt (IZR m * pow2 e) = R_sqrt.sqrt (IZR m') * pow2 e').
  { assert (Ee : pow2 e = IZR (2 ^ s) * (pow2 e' * pow2 e')).
    { rewrite <- pow2_IZR, <- !pow2_add by lia. f_equal. unfold s. lia. }
    rewrite Ee, <- Rmult_assoc, <- mult_IZR, <- Em'.
    rewrite sqrt_mult_alt by (apply IZR_le; lia).
    rewrite sqrt_square by lra. reflexivity. }
  rewrite Ex.
  set (t := R_sqrt.sqrt (IZR m')).
  assert (Ht0 : 0 <= t) by apply sqrt_pos.
  assert (Ht : t * t = IZR q * IZR q + IZR r).
  { unfold t. rewrite sqrt_sqrt by (apply IZR_le; lia).
    rewrite <- mult_IZR, <- plus_IZR. f_equal. exact Eq. }
  assert (Hq' : 0 <= IZR q) by (apply IZR_le; lia).
  assert (Hr0 : 0 <= IZR r) by (apply IZR_le; lia).
  assert (Hr2 : IZR r <= 2 * IZR q) by (rewrite <- mult_IZR; apply IZR_le; lia).
  split.
  - destruct (Z.eqb_spec r 0) as [->|Hrn].
    + cbn [inbetween]. f_equal. rewrite Rplus_0_r in Ht.
      destruct (Rle_or_lt t (IZR q)) as [C|C]; [|nra].
      destruct (Rle_lt_or_eq_dec _ _ C) as [C'|C']; [nra|assumption].
    + assert (Hrpos : 1 <= IZR r) by (apply IZR_le; lia).
      destruct (Z.leb_spec r q) as [Hle|Hgt].
      * apply IZR_le in Hle. cbn [inbetween]. split.
        -- destruct (Rle_or_lt t (IZR q)) as [C|C]; [nra|nra].
        -- destruct (Rle_or_lt (IZR q + 1 / 2) t) as [C|C]; [nra|nra].
      * assert (Hgt' : IZR q + 1 <= IZR r) by (rewrite <- plus_IZR; apply IZR_le; lia).
        cbn [inbetween]. split.
        -- destruct (Rle_or_lt t (IZR q + 1 / 2)) as [C|C]; [nra|nra].
        -- destruct (Rle_or_lt (IZR q + 1) t) as [C|C]; [nra|nra].
  - destruct (Z.le_gt_cases e' (-1074)) as [Hlow|Hhigh].
    + rewrite fexp_eq. lia.
    + assert (He' : (e' <= M - 53)%Z) by (unfold e' in *; rewrite fexp_eq in *; lia).
      pose proof (Zdigits2_bounds m Hm) as [Hd1 _].
      set (k := (M - e' - 1)%Z).
      assert (Hk : (0 <= k)%Z) by (unfold k; lia).
      assert (Hqk : (2 ^ k <= q)%Z).
      { assert (Hm'k : (2 ^ k * 2 ^ k <= m')%Z).
        { rewrite Em'. rewrite <- Z.pow_add_r by lia.
          assert (1 <= Zdigits2 m)%Z by (destruct m; simpl; lia).
          apply Z.le_trans with (2 ^ (Zdigits2 m - 1) * 2 ^ s)%Z.
          - rewrite <- Z.pow_add_r by lia. apply Z.pow_le_mono_r; [lia|]. unfold k, s. lia.
          - apply Z.mul_le_mono_nonneg_r; lia. }
        assert (0 < 2 ^ k)%Z by (apply Z.pow_pos_nonneg; lia).
        destruct (Z.le_gt_cases (2 ^ k) q) as [|Hlt]; [assumption|exfalso].
        assert (q + 1 <= 2 ^ k)%Z by lia. nia. }
      apply Zdigits2_ge_of_ge in Hqk; [|assumption].
      apply Z.le_trans with (fexp M); [unfold e'; lia|].
      apply fexp_mono. unfold k in Hqk. lia.
Qed.

Lemma sqrt_rounds x :
  is_finite x = true -> 0 <= F2R x -> rounds (R_sqrt.sqrt (F2R x)) (sqrt x).
Proof.
  intros Fx Hx. destruct x as [s|s| |s m e]; try discriminate.
  - cbn [sqrt SFsqrt F2R]. rewrite sqrt_0. apply rounds_zero.
  - destruct (F2R_finite_sign s m e) as [Nx Px].
    destruct s; [specialize (Nx eq_refl); lra|]. specialize (Px eq_refl).
    unfold sqrt, SFsqrt.
    pose proof (sqrt_core_spec (Z.pos m) e ltac:(lia)) as C.
    destruct (SFsqrt_core_binary prec emax (Z.pos m) e) as [[q e'] l].
    destruct C as (Hq & Hin & He).
    pose proof (sqrt_lt_R0 _ Px) as Hpos.
    apply rounds_of_mag with (s := false).
    + rewrite Rabs_right by lra. apply binary_round_aux_rounds; assumption.
    + intros; exfalso; lra.
    + reflexivity.
Qed.

(** ** Absolute value, opposite, comparison *)

Definition abs := SFabs.
Definition opp := SFopp.
Definition ltb := SFltb.

Lemma F2R_abs x : F2R (abs x) = Rabs (F2R x).
Proof.
  destruct x as [s|s| |s m e]; cbn [abs SFabs]; try (cbn [F2R]; rewrite Rabs_R0; reflexivity).
  rewrite Rabs_F2R_finite. reflexivity.
Qed.

Lemma is_finite_abs x : is_finite (abs x) = is_finite x.
Proof. destruct x; reflexivity. Qed.

Lemma valid_abs x : valid (abs x) = valid x.
Proof. destruct x; reflexivity. Qed.

Lemma sign_abs x : sign_of (abs x) = false.
Proof. destruct x; reflexivity. Qed.

(** Finite and valid *)
Definition fin (x : spec_float) : Prop := is_finite x = true /\ valid x = true.

Lemma fin_abs x : fin x -> fin (abs x).
Proof. unfold fin. rewrite is_finite_abs, valid_abs. auto. Qed.

Lemma fin_zero s : fin (S754_zero s).
Proof. split; reflexivity. Qed.

(** Magnitudes of canonical floats are ordered like (exponent, mantissa) *)
Lemma mag_compare m1 e1 m2 e2 :
  fexp (Z.pos (digits2_pos m1) + e1) = e1 ->
  fexp (Z.pos (digits2_pos m2) + e2) = e2 ->
  match (match (e1 ?= e2)%Z with
         | Lt => Lt | Gt => Gt | Eq => Pos.compare_cont Eq m1 m2
         end) with
  | Lt => IZR (Z.pos m1) * pow2 e1 < IZR (Z.pos m2) * pow2 e2
  | Eq => IZR (Z.pos m1) * pow2 e1 = IZR (Z.pos m2) * pow2 e2
  | Gt => IZR (Z.pos m2) * pow2 e2 < IZR (Z.pos m1) * pow2 e1
  end.
Proof.
  intros C1 C2. rewrite fexp_eq in C1, C2.
  pose proof (digits_bounds m1) as [L1 U1]. pose proof (digits_bounds m2) as [L2 U2].
  assert (Hlt : forall ma ea mb eb,
             (2 ^ (Z.pos (digits2_pos mb) - 1) <= Z.pos mb)%Z ->
             (Z.pos ma < 2 ^ Z.pos (digits2_pos ma))%Z ->
             Z.max (Z.pos (digits2_pos ma) + ea - 53) (-1074) = ea ->
             Z.max (Z.pos (digits2_pos mb) + eb - 53) (-1074) = eb ->
             (ea < eb)%Z ->
             IZR (Z.pos ma) * pow2 ea < IZR (Z.pos mb) * pow2 eb).
  { intros ma ea mb eb Lb Ua Ca Cb Hlt.
    set (da := Z.pos (digits2_pos ma)) in *. set (db := Z.pos (digits2_pos mb)) in *.
    assert (Hdb : db = 53%Z) by lia.
    assert (Hda : (da <= 53)%Z) by lia.
    apply IZR_lt in Ua. apply IZR_le in Lb.
    rewrite <- pow2_IZR in Ua, Lb by lia.
    pose proof (pow2_pos ea). pose proof (pow2_pos eb).
    apply Rlt_le_trans with (pow2 da * pow2 ea); [nra|].
    apply Rle_trans with (pow2 (db - 1) * pow2 eb); [|nra].
    rewrite <- !pow2_add. apply pow2_le. lia. }
  destruct (e1 ?= e2)%Z eqn:E.
  - apply Z.compare_eq in E. subst e2.
    change (Pos.compare_cont Eq m1 m2) with (m1 ?= m2)%positive.
    pose proof (pow2_pos e1).
    destruct (m1 ?= m2)%positive eqn:Em.
    + apply Pos.compare_eq in Em. subst. reflexivity.
    + rewrite Pos.compare_lt_iff in Em. apply Pos2Z.pos_lt_pos, IZR_lt in Em. nra.
    + rewrite Pos.compare_gt_iff in Em. apply Pos2Z.pos_lt_pos, IZR_lt in Em. nra.
  - rewrite Z.compare_lt_iff in E. apply Hlt; assumption.
  - rewrite Z.compare_gt_iff in E. apply Hlt; assumption.
Qed.

(** The comparison of valid finite floats is the comparison of their values. *)
Lemma ltb_spec x y : fin x -> fin y -> (ltb x y = true <-> F2R x < F2R y).
Proof.
  intros [Fx Vx] [Fy Vy].
  destruct x as [sx|sx| |sx mx ex]; try discriminate;
    destruct y as [sy|sy| |sy my ey]; try discriminate.
  - cbn. split; [discriminate|lra].
  - destruct (F2R_finite_sign sy my ey) as [Ny Py].
    replace (F2R (S754_zero sx)) with 0 by reflexivity.
    destruct sy; cbn [ltb SFltb SFcompare]; split; try discriminate; intros;
      try reflexivity; try (apply Py; reflexivity); exfalso; specialize (Ny eq_refl); lra.
  - destruct (F2R_finite_sign sx mx ex) as [Nx Px].
    replace (F2R (S754_zero sy)) with 0 by reflexivity.
    destruct sx; cbn [ltb SFltb SFcompare]; split; try discriminate; intros;
      try reflexivity; try (apply Nx; reflexivity); exfalso; specialize (Px eq_refl); lra.
  - destruct (F2R_finite_sign sx mx ex) as [Nx Px].
    destruct (F2R_finite_sign sy my ey) as [Ny Py].
    apply valid_finite_inv in Vx, Vy. destruct Vx as [Cx _], Vy as [Cy _].
    pose proof (mag_compare mx ex my ey Cx Cy) as M.
    pose proof (Rabs_F2R_finite sx mx ex) as Ax.
    pose proof (Rabs_F2R_finite sy my ey) as Ay.
    unfold ltb, SFltb, SFcompare.
    destruct sx, sy;
      try specialize (Nx eq_refl); try specialize (Ny eq_refl);
      try specialize (Px eq_refl); try specialize (Py eq_refl).
    + rewrite Rabs_left in Ax, Ay by assumption.
      destruct (ex ?= ey)%Z; [destruct (Pos.compare_cont Eq mx my)| |];
        cbn [CompOpp]; split; try discriminate; intros; try reflexivity; lra.
    + split; [intros; lra|reflexivity].
    + split; [discriminate|intros; lra].
    + rewrite Rabs_right in Ax, Ay by lra.
      destruct (match (ex ?= ey)%Z with
                | Lt => Lt | Gt => Gt | Eq => Pos.compare_cont Eq mx my end);
        split; try discriminate; intros; try reflexivity; try lra.
Qed.

Lemma ltb_false x y : fin x -> fin y -> F2R y <= F2R x -> ltb x y = false.
Proof.
  intros Hx Hy H. destruct (ltb x y) eqn:E; [|reflexivity].
  apply (ltb_spec x y Hx Hy) in E. lra.
Qed.

(** ** Enclosures *)

Definition in_range (lo hi : R) : Prop := - pow2 1024 < lo /\ hi < pow2 1024.

Lemma fin_of_rounds x r lo hi :
  rounds x r -> representable lo -> representable hi -> lo <= x <= hi ->
  in_range lo hi -> fin r /\ lo <= F2R r <= hi.
Proof.
  intros H Hl Hh Hx [R1 R2].
  destruct (rounds_encl x r lo hi H Hl Hh Hx R1 R2) as (A & B & C).
  repeat split; tauto.
Qed.

Lemma mul_encl x y lo hi :
  fin x -> fin y -> representable lo -> representable hi ->
  lo <= F2R x * F2R y <= hi -> in_range lo hi ->
  fin (mul x y) /\ lo <= F2R (mul x y) <= hi.
Proof. intros [] []. apply fin_of_rounds, mul_rounds; assumption. Qed.

Lemma add_encl x y lo hi :
  fin x -> fin y -> representable lo -> representable hi ->
  lo <= F2R x + F2R y <= hi -> in_range lo hi ->
  fin (add x y) /\ lo <= F2R (add x y) <= hi.
Proof. intros [] []. apply fin_of_rounds, add_rounds; assumption. Qed.

Lemma sub_encl x y lo hi :
  fin x -> fin y -> representable lo -> representable hi ->
  lo <= F2R x - F2R y <= hi -> in_range lo hi ->
  fin (sub x y) /\ lo <= F2R (sub x y) <= hi.
Proof. intros [] []. apply fin_of_rounds, sub_rounds; assumption. Qed.

Lemma fin_nonzero x : fin x -> F2R x <> 0 -> is_zero x = false.
Proof. intros _ H. destruct x; try reflexivity. exfalso. apply H. reflexivity. Qed.

Lemma div_encl x y lo hi :
  fin x -> fin y -> F2R y <> 0 -> representable lo -> representable hi ->
  lo <= F2R x / F2R y <= hi -> in_range lo hi ->
  fin (div x y) /\ lo <= F2R (div x y) <= hi.
Proof.
  intros [] Hy Hn. apply fin_of_rounds, div_rounds; try assumption.
  - apply Hy.
  - apply fin_nonzero; assumption.
Qed.

Lemma sqrt_encl x lo hi :
  fin x -> 0 <= F2R x -> representable lo -> representable hi ->
  lo <= R_sqrt.sqrt (F2R x) <= hi -> in_range lo hi ->
  fin (sqrt x) /\ lo <= F2R (sqrt x) <= hi.
Proof. intros [] Hx0. apply fin_of_rounds, sqrt_rounds; assumption. Qed.

Lemma of_Z_encl n lo hi :
  representable lo -> representable hi -> lo <= IZR n <= hi -> in_range lo hi ->
  fin (of_Z n) /\ lo <= F2R (of_Z n) <= hi.
Proof. apply fin_of_rounds, of_Z_rounds. Qed.

(** Integers up to [2^53] in magnitude convert exactly. *)
Lemma of_Z_exact n :
  (Z.abs n <= 2 ^ 53)%Z -> fin (of_Z n) /\ F2R (of_Z n) = IZR n.
Proof.
  intros Hn.
  assert (Hb : Rabs (IZR n) <= IZR (2 ^ 53)).
  { rewrite <- abs_IZR. apply IZR_le. exact Hn. }
  assert (Hp : IZR (2 ^ 53) < pow2 1024).
  { rewrite <- pow2_IZR by lia. apply pow2_lt. lia. }
  destruct (of_Z_encl n (IZR n) (IZR n)) as [Hf Hv].
  - apply representable_IZR. exact Hn.
  - apply representable_IZR. exact Hn.
  - lra.
  - unfold Rabs in Hb. destruct (Rcase_abs (IZR n)); split; lra.
  - split; [exact Hf|lra].
Qed.

(** ** Shapes and uniqueness *)

Lemma fin_pos_shape d : fin d -> 0 < F2R d -> exists m e, d = S754_finite false m e.
Proof.
  intros [Hf _] Hp. destruct d as [s|s| |s m e]; try discriminate.
  - cbn in Hp. lra.
  - destruct (F2R_finite_sign s m e) as [N _].
    destruct s; [specialize (N eq_refl); lra|]. eauto.
Qed.

Lemma fin_nonneg_shape d :
  fin d -> 0 <= F2R d ->
  (exists s, d = S754_zero s) \/ (exists m e, d = S754_finite false m e).
Proof.
  intros [Hf _] Hp. destruct d as [s|s| |s m e]; try discriminate.
  - left. eauto.
  - destruct (F2R_finite_sign s m e) as [N _].
    destruct s; [specialize (N eq_refl); lra|]. right. eauto.
Qed.

(** Valid finite floats are determined by their value (zeros apart). *)
Lemma F2R_inj x y : fin x -> fin y -> F2R x = F2R y -> F2R x <> 0 -> x = y.
Proof.
  intros [Fx Vx] [Fy Vy] E Hn.
  destruct x as [sx|sx| |sx mx ex]; try discriminate; [exfalso; apply Hn; reflexivity|].
  destruct y as [sy|sy| |sy my ey]; try discriminate;
    [exfalso; apply Hn; rewrite E; reflexivity|].
  destruct (F2R_finite_sign sx mx ex) as [Nx Px].
  destruct (F2R_finite_sign sy my ey) as [Ny Py].
  assert (Es : sx = sy).
  { destruct sx, sy; try reflexivity; exfalso;
      try specialize (Nx eq_refl); try specialize (Ny eq_refl);
      try specialize (Px eq_refl); try specialize (Py eq_refl); lra. }
  subst sy.
  apply valid_finite_inv in Vx, Vy. destruct Vx as [Cx _], Vy as [Cy _].
  pose proof (mag_compare mx ex my ey Cx Cy) as M.
  assert (Em : IZR (Z.pos mx) * pow2 ex = IZR (Z.pos my) * pow2 ey).
  { rewrite <- !(Rabs_F2R_finite sx). rewrite E. reflexivity. }
  destruct (ex ?= ey)%Z eqn:Ce.
  - apply Z.compare_eq in Ce. subst ey.
    change (Pos.compare_cont Eq mx my) with (mx ?= my)%positive in M.
    destruct (mx ?= my)%positive eqn:Cm; try lra.
    apply Pos.compare_eq in Cm. subst. reflexivity.
  - lra.
  - lra.
Qed.

(** ** Constants *)

Lemma pow2_Zpos p : pow2 (Z.pos p) = IZR (Z.pow_pos 2 p).
Proof. rewrite pow2_IZR by lia. reflexivity. Qed.

Lemma pow2_Zneg p : pow2 (Z.neg p) = / IZR (Z.pow_pos 2 p).
Proof. change (Z.neg p) with (- Z.pos p)%Z. rewrite pow2_opp, pow2_Zpos. reflexivity. Qed.

(** Turns [pow2] of a literal exponent into a rational constant *)
Ltac pow2_const :=
  repeat match goal with
    | |- context [pow2 (Z.pos ?p)] =>
        let v := eval vm_compute in (Z.pow_pos 2 p) in
        rewrite (pow2_Zpos p); change (Z.pow_pos 2 p) with v
    | |- context [pow2 (Z.neg ?p)] =>
        let v := eval vm_compute in (Z.pow_pos 2 p) in
        rewrite (pow2_Zneg p); change (Z.pow_pos 2 p) with v
    | |- context [pow2 0] => rewrite pow2_0
    end.

Lemma in_range_pow2 k lo hi :
  (k < 1024)%Z -> - pow2 k <= lo -> hi <= pow2 k -> in_range lo hi.
Proof. intros Hk Hl Hh. pose proof (pow2_lt k 1024 Hk). split; lra. Qed.

(** ** The values of floats are representable *)

Lemma fin_representable x : fin x -> representable (F2R x).
Proof.
  intros [Hf Hv]. destruct x as [s|s| |s m e]; try discriminate.
  - apply representable_0.
  - apply valid_finite_inv in Hv. destruct Hv as [Hc _]. rewrite fexp_eq in Hc.
    pose proof (digits_bounds m) as [_ Hm].
    assert (Hd : (Z.pos (digits2_pos m) <= 53)%Z) by lia.
    assert (Hm53 : (Z.pos m < 2 ^ 53)%Z).
    { apply Z.lt_le_trans with (1 := Hm). apply Z.pow_le_mono_r; lia. }
    exists (cond_Zopp s (Z.pos m)), e. split; [reflexivity|].
    split; [destruct s; cbn [cond_Zopp]; lia|lia].
Qed.

(** No float lies strictly between [m * 2^e] and [(m+1) * 2^e] when the
    former is in normal position. *)
Lemma fin_grid_le x m e :
  fin x -> (0 <= m)%Z -> (-1074 <= e)%Z -> (e = -1074 \/ 2 ^ 52 <= m)%Z ->
  F2R x < (IZR m + 1) * pow2 e -> F2R x <= IZR m * pow2 e.
Proof. intros Hx. apply repr_grid_le, fin_representable, Hx. Qed.

Lemma fin_grid_ge x m e :
  fin x -> (0 <= m)%Z -> (-1074 <= e)%Z -> (e = -1074 \/ 2 ^ 52 <= m)%Z ->
  IZR m * pow2 e < F2R x -> (IZR m + 1) * pow2 e <= F2R x.
Proof. intros Hx. apply repr_grid_ge, fin_representable, Hx. Qed.

(** The largest float below 1 is [1 - 2^-53]; the smallest positive one is
    [2^-1074]. *)
Lemma fin_lt_1 x : fin x -> F2R x < 1 -> F2R x <= 1 - pow2 (-53).
Proof.
  intros Hx H1.
  assert (E : (IZR (2 ^ 53 - 1) + 1) * pow2 (-53) = 1).
  { rewrite <- plus_IZR. replace (2 ^ 53 - 1 + 1)%Z with (2 ^ 53)%Z by lia.
    rewrite <- pow2_IZR, <- pow2_add by lia. reflexivity. }
  replace (1 - pow2 (-53)) with (IZR (2 ^ 53 - 1) * pow2 (-53)) by lra.
  apply fin_grid_le;
    [assumption | vm_compute; discriminate | lia
    | right; vm_compute; discriminate | rewrite E; exact H1].
Qed.

Lemma fin_pos_min x : fin x -> 0 < F2R x -> pow2 (-1074) <= F2R x.
Proof.
  intros Hx H0.
  replace (pow2 (-1074)) with ((IZR 0 + 1) * pow2 (-1074)) by ring.
  apply fin_grid_ge; try assumption; try lia. rewrite Rmult_0_l. exact H0.
Qed.

(** Adding a finite float to an infinity *)
Lemma add_inf_l s y : fin y -> add (S754_infinity s) y = S754_infinity s.
Proof. intros [Hf _]. destruct y; try discriminate; reflexivity. Qed.

End Binary64.

Module B64 := Binary64.

(** * Part III: the notebook in exact arithmetic *)

(** ** Floating-point values *)

Inductive npfloat : Type :=
| Fin (r : R)
| PInf
| NInf
| NaN.

Definition fopp (x : npfloat) : npfloat :=
  match x with
  | Fin a => Fin (- a)
  | PInf => NInf
  | NInf => PInf
  | NaN => NaN
  end.

Definition fabs (x : npfloat) : npfloat :=
  match x with
  | Fin a => Fin (Rabs a)
  | PInf | NInf => PInf
  | NaN => NaN
  end.

Definition fadd (x y : npfloat) : npfloat :=
  match x, y with
  | NaN, _ | _, NaN => NaN
  | Fin a, Fin b => Fin (a + b)
  | PInf, NInf | NInf, PInf => NaN
  | PInf, _ | _, PInf => PInf
  | NInf, _ | _, NInf => NInf
  end.

Definition fsub (x y : npfloat) : npfloat := fadd x (fopp y).

(** An infinity of sign [pos] times the finite value [b] *)
Definition inf_times (pos : bool) (b : R) : npfloat :=
  if Rlt_dec 0 b then (if pos then PInf else NInf)
  else if Rlt_dec b 0 then (if pos then NInf else PInf)
  else NaN.

Definition fmul (x y : npfloat) : npfloat :=
  match x, y with
  | NaN, _ | _, NaN => NaN
  | Fin a, Fin b => Fin (a * b)
  | PInf, Fin b | Fin b, PInf => inf_times true b
  | NInf, Fin b | Fin b, NInf => inf_times false b
  | PInf, PInf | NInf, NInf => PInf
  | PInf, NInf | NInf, PInf => NInf
  end.

(** numpy division: dividing by zero raises nothing, it yields an infinity
    or NaN (and a RuntimeWarning, which is not an exception). *)
Definition fdiv (x y : npfloat) : npfloat :=
  match x, y with
  | NaN, _ | _, NaN => NaN
  | Fin a, Fin b =>
      if Req_dec_T b 0
      then (if Rlt_dec 0 a then PInf else if Rlt_dec a 0 then NInf else NaN)
      else Fin (a / b)
  | Fin _, (PInf | NInf) => Fin 0
  | PInf, Fin b => if Rlt_dec b 0 then NInf else PInf
  | NInf, Fin b => if Rlt_dec b 0 then PInf else NInf
  | (PInf | NInf), (PInf | NInf) => NaN
  end.

(** [x > d]; every comparison with NaN is false. *)
Definition fgt (x : npfloat) (d : R) : bool :=
  match x with
  | Fin a => if Rlt_dec d a then true else false
  | PInf => true
  | NInf | NaN => false
  end.

(** [np.sqrt] of a Python float: NaN below zero. *)
Definition np_sqrt (x : R) : npfloat :=
  if Rlt_dec x 0 then NaN else Fin (sqrt x).

Definition np_ceil (x : npfloat) : npfloat :=
  match x with
  | Fin a => Fin (IZR (Zceil a))
  | _ => x
  end.

(** ** Exceptions *)

Inductive exn : Type := ZeroDivisionError | OverflowError | ValueError.

Inductive result (A : Type) : Type :=
| Return (a : A)
| Raise (e : exn).
Arguments Return {A} a.
Arguments Raise {A} e.

Definition bind {A B : Type} (m : result A) (k : A -> result B) : result B :=
  match m with
  | Return a => k a
  | Raise e => Raise e
  end.

Notation "x <- m ;; k" := (bind m (fun x => k))
  (at level 61, m at next level, right associativity).

(** [int(x)]: truncation toward zero; infinities and NaN cannot be converted. *)
Definition py_int (x : npfloat) : result Z :=
  match x with
  | Fin a => Return (if Rlt_dec a 0 then Zceil a else Zfloor a)
  | PInf | NInf => Raise OverflowError
  | NaN => Raise ValueError
  end.

(** [a / b] on Python integers *)
Definition py_truediv (a b : Z) : result R :=
  if (b =? 0)%Z then Raise ZeroDivisionError else Return (IZR a / IZR b).

(** [x / n] for a Python float [x] and a Python integer [n] *)
Definition py_fdiv_int (x : R) (n : Z) : result R :=
  if (n =? 0)%Z then Raise ZeroDivisionError else Return (x / IZR n).

(** ** [scipy.stats.norm] *)

(** Modelled from the spec: [norm.cdf] (scipy, not under src/) is "the
    standard normal cumulative distribution function". *)
Definition norm_cdf (x : npfloat) : npfloat :=
  match x with
  | Fin a => Fin (Phi a)
  | PInf => Fin 1
  | NInf => Fin 0
  | NaN => NaN
  end.

(** Modelled from the spec: [norm.ppf] (scipy, not under src/) is the
    inverse of the standard normal cumulative distribution function on
    (0,1); scipy returns -inf at 0, +inf at 1 and NaN elsewhere. *)
Definition norm_ppf (q : R) : npfloat :=
  match Rlt_dec 0 q, Rlt_dec q 1 with
  | left H0, left H1 => Fin (Phi_inv q (conj H0 H1))
  | _, _ => if Req_dec_T q 0 then NInf else if Req_dec_T q 1 then PInf else NaN
  end.

(** ** Observation pairs and the analytic test *)

(** [variation = namedtuple('variation', 'clicks impressions')] *)
Record variation : Type := { clicks : Z; impressions : Z }.

(** [A = variation(clicks=127, impressions=5734)],
    [B = variation(clicks=174, impressions=5851)] *)
Definition A : variation := {| clicks := 127; impressions := 5734 |}.
Definition B : variation := {| clicks := 174; impressions := 5851 |}.

(** [rate = v.clicks/v.impressions] *)
Definition rate (v : variation) : result R := py_truediv (clicks v) (impressions v).

Definition get_p_value_analytic (variationA variationB : variation) : result npfloat :=
  p_A <- py_truediv (clicks variationA) (impressions variationA) ;;
  p_B <- py_truediv (clicks variationB) (impressions variationB) ;;
  p <- py_truediv (clicks variationA + clicks variationB)
                  (impressions variationA + impressions variationB) ;;
  v_A <- py_fdiv_int (p * (1 - p)) (impressions variationA) ;;
  v_B <- py_fdiv_int (p * (1 - p)) (impressions variationB) ;;
  let variance := v_A + v_B in
  let abs_z := fdiv (Fin (Rabs (p_A - p_B))) (np_sqrt variance) in
  let p_value := fmul (Fin 2) (fsub (Fin 1) (norm_cdf abs_z)) in
  Return p_value.

(** ** The sample-size calculator *)

Definition power_function (p_A_base DeltaPi alpha beta : R) : result Z :=
  let p_B := p_A_base + DeltaPi in
  let p := 5 / 10 * (p_A_base + p_B) in
  let z2 := fabs (norm_ppf (1 - beta)) in
  let z_crit := norm_ppf (1 - alpha / 2) in
  let root_N :=
    fdiv (fadd (fmul z2 (np_sqrt (p_A_base * (1 - p_A_base) + p_B * (1 - p_B))))
               (fmul z_crit (np_sqrt (2 * p * (1 - p)))))
         (Fin DeltaPi) in
  py_int (np_ceil (fmul root_N root_N)).

(** ** The random source and the simulation test *)

(** [np.random]: [seed k] is the generator state after [np.random.seed(k)],
    [binomial n p s] one binomial draw from state [s] and the state after it. *)
Class RandomSource : Type := {
  rng_state : Type;
  seed : Z -> rng_state;
  binomial : Z -> R -> rng_state -> Z * rng_state;
  binomial_range : forall n p s, (0 <= n)%Z -> 0 <= p <= 1 ->
                                 (0 <= fst (binomial n p s) <= n)%Z
}.

Section Simulation.
Context {RS : RandomSource}.

(** Computations that read and advance the global generator state *)
Definition rand (A : Type) : Type := rng_state -> result A * rng_state.

Definition ret {A : Type} (a : A) : rand A := fun s => (Return a, s).
Definition lift {A : Type} (m : result A) : rand A := fun s => (m, s).
Definition rbind {A B : Type} (m : rand A) (k : A -> rand B) : rand B :=
  fun s => match m s with
           | (Return a, s') => k a s'
           | (Raise e, s') => (Raise e, s')
           end.

(** [np.random.seed(n)] *)
Definition np_random_seed (n : Z) : rand unit := fun _ => (Return tt, seed n).

Fixpoint binomial_draws (k : nat) (n : Z) (p : R) (s : rng_state) : list Z * rng_state :=
  match k with
  | O => ([], s)
  | S k' => let (x, s1) := binomial n p s in
            let (xs, s2) := binomial_draws k' n p s1 in
            (x :: xs, s2)
  end.

(** [np.random.binomial(n, p, size=(size, ))]: ValueError on [n < 0],
    [p < 0], [p > 1] or a negative dimension. *)
Definition np_random_binomial (n : Z) (p : R) (size : Z) : rand (list Z) :=
  fun s =>
    if (n <? 0)%Z then (Raise ValueError, s)
    else if Rlt_dec p 0 then (Raise ValueError, s)
    else if Rlt_dec 1 p then (Raise ValueError, s)
    else if (size <? 0)%Z then (Raise ValueError, s)
    else let (xs, s') := binomial_draws (Z.to_nat size) n p s in (Return xs, s').

Definition draw_clicks_from_n_samples (impressions : Z) (prob_click : R) (num_trials : Z)
  : rand (list Z) :=
  np_random_binomial impressions prob_click num_trials.

Definition draw_p_sample_from_n_samples (impressions : Z) (prob_click : R) (num_trials : Z)
  : rand (list npfloat) :=
  rbind (draw_clicks_from_n_samples impressions prob_click num_trials)
        (fun cs => ret (map (fun c => fdiv (Fin (IZR c)) (Fin (IZR impressions))) cs)).

(** Element-wise difference of two arrays (of equal length in every use) *)
Fixpoint array_minus (xs ys : list npfloat) : list npfloat :=
  match xs, ys with
  | x :: xs', y :: ys' => fsub x y :: array_minus xs' ys'
  | _, _ => []
  end.

(** [sum] of an array of booleans *)
Definition py_sum (bs : list bool) : Z :=
  fold_left (fun acc (b : bool) => if b then (acc + 1)%Z else acc) bs 0%Z.

Definition py_len {X : Type} (l : list X) : Z := Z.of_nat (length l).

Definition get_p_value_from_simulation (num_simulations : Z)
  (variation_A variation_B : variation) : rand R :=
  let imp_A := impressions variation_A in
  let imp_B := impressions variation_B in
  let click_A := clicks variation_A in
  let click_B := clicks variation_B in
  rbind (lift (py_truediv (click_A + click_B) (imp_A + imp_B))) (fun p =>
  rbind (lift (py_truediv click_A imp_A)) (fun r_A =>
  rbind (lift (py_truediv click_B imp_B)) (fun r_B =>
  let difference_in_rate := Rabs (r_A - r_B) in
  rbind (draw_p_sample_from_n_samples imp_A p num_simulations) (fun p_A_array =>
  rbind (draw_p_sample_from_n_samples imp_B p num_simulations) (fun p_B_array =>
  let result_by_chance :=
    map (fun x => fgt (fabs x) difference_in_rate) (array_minus p_B_array p_A_array) in
  lift (py_truediv (py_sum result_by_chance) (py_len result_by_chance))))))).

End Simulation.

(** A random source that replays a recorded list of raw draws, each reduced
    into the range of the requested binomial *)
Definition replay_binomial (n : Z) (p : R) (s : list Z) : Z * list Z :=
  match s with
  | [] => (0%Z, [])
  | x :: s' => ((x mod (n + 1))%Z, s')
  end.

Definition replay_seed (k : Z) : list Z :=
  map (fun i => (k * 1103515245 + Z.of_nat i * 12345) mod 2147483648)%Z (seq 0 64).

Lemma replay_binomial_range n p s :
  (0 <= n)%Z -> 0 <= p <= 1 -> (0 <= fst (replay_binomial n p s) <= n)%Z.
Proof.
  intros Hn _. destruct s as [|x s]; simpl; [lia|].
  pose proof (Z.mod_pos_bound x (n + 1) ltac:(lia)). lia.
Qed.

Definition replay_source : RandomSource :=
  {| rng_state := list Z;
     seed := replay_seed;
     binomial := replay_binomial;
     binomial_range := replay_binomial_range |}.

(** ** Vocabulary of the specification *)

(** An observation pair: [0 <= successes <= trials] and [trials > 0] *)
Definition valid (v : variation) : Prop :=
  (0 <= clicks v <= impressions v)%Z /\ (0 < impressions v)%Z.

Definition pooled_rate (a b : variation) : R :=
  IZR (clicks a + clicks b) / IZR (impressions a + impressions b).

Definition pooled_variance (a b : variation) : R :=
  let p := pooled_rate a b in
  p * (1 - p) / IZR (impressions a) + p * (1 - p) / IZR (impressions b).

Definition observed_difference (a b : variation) : R :=
  Rabs (IZR (clicks a) / IZR (impressions a) - IZR (clicks b) / IZR (impressions b)).

(** The specification's description of the simulation estimate: the
    fraction of repetitions whose simulated absolute difference of rates
    strictly exceeds the observed one. *)
Definition exceeds (d_obs x : R) : bool := if Rlt_dec d_obs x then true else false.

Fixpoint simulated_differences (trials_A trials_B : Z) (sim_A sim_B : list Z) : list R :=
  match sim_A, sim_B with
  | a :: sim_A', b :: sim_B' =>
      Rabs (IZR a / IZR trials_A - IZR b / IZR trials_B)
      :: simulated_differences trials_A trials_B sim_A' sim_B'
  | _, _ => []
  end.

(** Observation pairs used as examples *)
Definition A0 : variation := {| clicks := 0; impressions := 10 |}.
Definition B0 : variation := {| clicks := 0; impressions := 20 |}.
Definition A1 : variation := {| clicks := 1; impressions := 2 |}.
Definition B1 : variation := {| clicks := 1; impressions := 4 |}.

(** * Part IV: facts about the exact embedding *)

(** ** Evaluation lemmas *)

Lemma py_truediv_ok a b : (b <> 0)%Z -> py_truediv a b = Return (IZR a / IZR b).
Proof. intro H. unfold py_truediv. destruct (Z.eqb_spec b 0); [contradiction|reflexivity]. Qed.

Lemma norm_ppf_in_range q (H : 0 < q < 1) : norm_ppf q = Fin (Phi_inv q H).
Proof.
  unfold norm_ppf. destruct (Rlt_dec 0 q) as [H0|H0]; [|exfalso; lra].
  destruct (Rlt_dec q 1) as [H1|H1]; [|exfalso; lra].
  f_equal. apply Phi_inv_irrelevant.
Qed.

Lemma py_int_np_ceil a : py_int (np_ceil (Fin a)) = Return (Zceil a).
Proof.
  cbn [np_ceil py_int]. destruct (Rlt_dec (IZR (Zceil a)) 0) as [H|H]; f_equal.
  - unfold Zceil at 1. rewrite <- opp_IZR, ZfloorZ. lia.
  - apply ZfloorZ.
Qed.

Lemma fdiv_by_zero x : fdiv x (Fin 0) = PInf \/ fdiv x (Fin 0) = NInf \/ fdiv x (Fin 0) = NaN.
Proof.
  destruct x as [a| | |]; cbn [fdiv]; auto.
  - destruct (Req_dec_T 0 0) as [_|E]; [|exfalso; apply E; reflexivity].
    destruct (Rlt_dec 0 a); auto. destruct (Rlt_dec a 0); auto.
  - destruct (Rlt_dec 0 0); auto.
  - destruct (Rlt_dec 0 0); auto.
Qed.

(** ** The analytic test *)

Lemma pooled_rate_range a b : valid a -> valid b -> 0 <= pooled_rate a b <= 1.
Proof.
  intros [[Ha1 Ha2] Ha3] [[Hb1 Hb2] Hb3]. unfold pooled_rate.
  assert (Hi : 0 < IZR (impressions a + impressions b)) by (apply IZR_lt; lia).
  assert (Hc : 0 <= IZR (clicks a + clicks b)) by (apply IZR_le; lia).
  assert (Hle : IZR (clicks a + clicks b) <= IZR (impressions a + impressions b))
    by (apply IZR_le; lia).
  split.
  - apply Rmult_le_pos; [exact Hc | left; apply Rinv_0_lt_compat, Hi].
  - apply Rmult_le_reg_r with (IZR (impressions a + impressions b)); [exact Hi|].
    unfold Rdiv. rewrite Rmult_assoc, Rinv_l, Rmult_1_r, Rmult_1_l; lra.
Qed.

Lemma get_p_value_analytic_sym a b :
  get_p_value_analytic a b = get_p_value_analytic b a.
Proof.
  unfold get_p_value_analytic, py_truediv, py_fdiv_int.
  rewrite (Z.add_comm (impressions b) (impressions a)).
  rewrite (Z.add_comm (clicks b) (clicks a)).
  destruct (Z.eqb_spec (impressions a) 0) as [Ea|Ea];
    destruct (Z.eqb_spec (impressions b) 0) as [Eb|Eb]; cbn [bind]; try reflexivity.
  destruct (Z.eqb_spec (impressions a + impressions b) 0) as [Es|Es]; cbn [bind];
    [reflexivity|].
  rewrite (Rabs_minus_sym (IZR (clicks b) / IZR (impressions b))).
  rewrite (Rplus_comm (_ / IZR (impressions b))). reflexivity.
Qed.

Lemma div_sqrt_bounds d v zl zh :
  0 < v -> 0 <= d -> 0 < zl -> 0 < zh ->
  zl * zl * v <= d * d -> d * d <= zh * zh * v ->
  zl <= d / sqrt v <= zh.
Proof.
  intros Hv Hd Hzl Hzh H1 H2.
  pose proof (sqrt_lt_R0 v Hv) as Hs. pose proof (sqrt_sqrt v (Rlt_le _ _ Hv)) as Hss.
  set (s := sqrt v) in *.
  assert (Hl : zl * zl * v = (zl * s) * (zl * s)) by (rewrite <- Hss; ring).
  assert (Hh : zh * zh * v = (zh * s) * (zh * s)) by (rewrite <- Hss; ring).
  assert (0 < zl * s) by (apply Rmult_lt_0_compat; lra).
  assert (0 < zh * s) by (apply Rmult_lt_0_compat; lra).
  split.
  - apply Rmult_le_reg_r with s; [lra|].
    replace (d / s * s) with d by (field; lra).
    apply Rnot_lt_le. intro Hlt.
    assert (d * d < (zl * s) * (zl * s)) by (apply Rmult_le_0_lt_compat; lra). lra.
  - apply Rmult_le_reg_r with s; [lra|].
    replace (d / s * s) with d by (field; lra).
    apply Rnot_lt_le. intro Hlt.
    assert ((zh * s) * (zh * s) < d * d) by (apply Rmult_le_0_lt_compat; lra). lra.
Qed.

(** ** The sample-size calculator *)

(** The real number whose square [power_function] rounds up, given the two
    quantiles *)
Definition root_N_value (p_A_base DeltaPi : R) (z_power z_crit : R) : R :=
  let p_B := p_A_base + DeltaPi in
  let p := 5 / 10 * (p_A_base + p_B) in
  (Rabs z_power * sqrt (p_A_base * (1 - p_A_base) + p_B * (1 - p_B))
   + z_crit * sqrt (2 * p * (1 - p))) / DeltaPi.

Lemma power_function_value p_A_base DeltaPi alpha beta
  (Hb : 0 < 1 - beta < 1) (Ha : 0 < 1 - alpha / 2 < 1) :
  0 <= p_A_base * (1 - p_A_base) + (p_A_base + DeltaPi) * (1 - (p_A_base + DeltaPi)) ->
  0 <= 2 * (5 / 10 * (p_A_base + (p_A_base + DeltaPi)))
       * (1 - 5 / 10 * (p_A_base + (p_A_base + DeltaPi))) ->
  DeltaPi <> 0 ->
  power_function p_A_base DeltaPi alpha beta =
  Return (Zceil (Rsqr (root_N_value p_A_base DeltaPi
                         (Phi_inv (1 - beta) Hb) (Phi_inv (1 - alpha / 2) Ha)))).
Proof.
  intros H1 H2 Hd. unfold power_function.
  rewrite (norm_ppf_in_range _ Hb), (norm_ppf_in_range _ Ha).
  unfold np_sqrt.
  destruct (Rlt_dec _ 0) as [Hn|_]; [exfalso; lra|].
  destruct (Rlt_dec _ 0) as [Hn|_]; [exfalso; lra|].
  cbn [fabs fmul fadd fdiv].
  destruct (Req_dec_T DeltaPi 0) as [Hz|_]; [contradiction|].
  cbn [fmul]. rewrite py_int_np_ceil. reflexivity.
Qed.

Lemma power_function_zero_delta p_A_base alpha beta :
  power_function p_A_base 0 alpha beta = Raise OverflowError \/
  power_function p_A_base 0 alpha beta = Raise ValueError.
Proof.
  unfold power_function. cbv zeta.
  match goal with |- context [fdiv ?x (Fin 0)] =>
    destruct (fdiv_by_zero x) as [E|[E|E]]; rewrite E end;
    cbn [fmul np_ceil py_int]; auto.
Qed.

(** Enclosures of the two quantiles used by the notebook's example *)
Lemma z_power_80 (H : 0 < 1 - 8 / 10 < 1) :
  841621 / 1000000 <= Rabs (Phi_inv (1 - 8 / 10) H) <= 841622 / 1000000.
Proof.
  pose proof Phi_at_0_841622 as HL. pose proof Phi_at_0_841621 as HU.
  assert (Hb : - (841622 / 1000000) <= Phi_inv (1 - 8 / 10) H <= - (841621 / 1000000)).
  { apply Phi_inv_bounds; rewrite Phi_symmetry; lra. }
  rewrite Rabs_left by lra. lra.
Qed.

Lemma z_crit_05 (H : 0 < 1 - 5 / 100 / 2 < 1) :
  1959963 / 1000000 <= Phi_inv (1 - 5 / 100 / 2) H <= 1959965 / 1000000.
Proof.
  pose proof Phi_at_1_959965 as HL. pose proof Phi_at_1_959963 as HU.
  apply Phi_inv_bounds; lra.
Qed.

Lemma root_N_value_bounds pA d zp zc zpl zph zcl zch s1l s1h s2l s2h :
  d <> 0 ->
  0 <= zpl -> zpl <= Rabs zp <= zph -> 0 <= zcl -> zcl <= zc <= zch ->
  0 <= s1l -> s1l * s1l <= pA * (1 - pA) + (pA + d) * (1 - (pA + d)) <= s1h * s1h ->
  0 <= s1h ->
  0 <= s2l -> s2l * s2l <= 2 * (5 / 10 * (pA + (pA + d))) * (1 - 5 / 10 * (pA + (pA + d)))
              <= s2h * s2h ->
  0 <= s2h ->
  Rsqr (zpl * s1l + zcl * s2l) / Rsqr d <= Rsqr (root_N_value pA d zp zc)
  <= Rsqr (zph * s1h + zch * s2h) / Rsqr d.
Proof.
  intros Hd Hzpl Hzp Hzcl Hzc Hs1l Hs1 Hs1h Hs2l Hs2 Hs2h.
  unfold root_N_value. cbv zeta.
  pose proof (sqrt_bounds _ s1l s1h Hs1l Hs1h (proj1 Hs1) (proj2 Hs1)) as [A1 A2].
  pose proof (sqrt_bounds _ s2l s2h Hs2l Hs2h (proj1 Hs2) (proj2 Hs2)) as [B1 B2].
  set (s1 := sqrt (pA * (1 - pA) + (pA + d) * (1 - (pA + d)))) in *.
  set (s2 := sqrt (2 * (5 / 10 * (pA + (pA + d))) * (1 - 5 / 10 * (pA + (pA + d))))) in *.
  assert (zpl * s1l <= Rabs zp * s1) by (apply Rmult_le_compat; lra).
  assert (Rabs zp * s1 <= zph * s1h) by (apply Rmult_le_compat; lra).
  assert (zcl * s2l <= zc * s2) by (apply Rmult_le_compat; lra).
  assert (zc * s2 <= zch * s2h) by (apply Rmult_le_compat; lra).
  assert (0 <= zpl * s1l) by (apply Rmult_le_pos; lra).
  assert (0 <= zcl * s2l) by (apply Rmult_le_pos; lra).
  rewrite Rsqr_div' .
  assert (Hd2 : 0 < Rsqr d) by (apply Rlt_0_sqr, Hd).
  split; apply Rmult_le_compat_r; try (left; apply Rinv_0_lt_compat, Hd2);
    apply Rsqr_incr_1; lra.
Qed.

Lemma power_function_example :
  power_function (2 / 100) (1 / 100) (5 / 100) (8 / 10) = Return 3826%Z.
Proof.
  assert (Hb : 0 < 1 - 8 / 10 < 1) by lra.
  assert (Ha : 0 < 1 - 5 / 100 / 2 < 1) by lra.
  rewrite (power_function_value _ _ _ _ Hb Ha) by lra.
  f_equal. apply Zceil_eq.
  assert (HR := root_N_value_bounds (2 / 100) (1 / 100)
                  (Phi_inv (1 - 8 / 10) Hb) (Phi_inv (1 - 5 / 100 / 2) Ha)
                  (841621 / 1000000) (841622 / 1000000)
                  (1959963 / 1000000) (1959965 / 1000000)
                  (2206807 / 10000000) (2206808 / 10000000)
                  (2207940 / 10000000) (2207941 / 10000000)).
  do 2 (lapply HR; [clear HR; intro HR | lra]).
  specialize (HR (z_power_80 Hb)). lapply HR; [clear HR; intro HR | lra].
  specialize (HR (z_crit_05 Ha)).
  do 6 (lapply HR; [clear HR; intro HR | lra]).
  set (r := Rsqr (root_N_value _ _ _ _)) in *. unfold Rsqr in HR.
  simpl. lra.
Qed.

Lemma power_function_example_negative :
  power_function (2 / 100) (-1 / 100) (5 / 100) (8 / 10) = Return 2319%Z.
Proof.
  assert (Hb : 0 < 1 - 8 / 10 < 1) by lra.
  assert (Ha : 0 < 1 - 5 / 100 / 2 < 1) by lra.
  rewrite (power_function_value _ _ _ _ Hb Ha) by lra.
  f_equal. apply Zceil_eq.
  assert (HR := root_N_value_bounds (2 / 100) (-1 / 100)
                  (Phi_inv (1 - 8 / 10) Hb) (Phi_inv (1 - 5 / 100 / 2) Ha)
                  (841621 / 1000000) (841622 / 1000000)
                  (1959963 / 1000000) (1959965 / 1000000)
                  (1717556 / 10000000) (1717557 / 10000000)
                  (1719011 / 10000000) (1719012 / 10000000)).
  do 2 (lapply HR; [clear HR; intro HR | lra]).
  specialize (HR (z_power_80 Hb)). lapply HR; [clear HR; intro HR | lra].
  specialize (HR (z_crit_05 Ha)).
  do 6 (lapply HR; [clear HR; intro HR | lra]).
  set (r := Rsqr (root_N_value _ _ _ _)) in *. unfold Rsqr in HR.
  simpl. lra.
Qed.

(** ** The simulation test *)

Lemma py_sum_count bs : py_sum bs = Z.of_nat (length (filter (fun b => b) bs)).
Proof.
  unfold py_sum.
  assert (H : forall acc, fold_left (fun a (b : bool) => if b then (a + 1)%Z else a) bs acc
                          = (acc + Z.of_nat (length (filter (fun b => b) bs)))%Z).
  { induction bs as [|b bs IH]; intro acc; simpl.
    - lia.
    - rewrite IH. destruct b; simpl length; lia. }
  rewrite H. lia.
Qed.

Lemma filter_map_length {X : Type} (f : X -> bool) l :
  length (filter (fun b => b) (map f l)) = length (filter f l).
Proof. induction l as [|x l IH]; simpl; [reflexivity|]. destruct (f x); simpl; lia. Qed.

Lemma result_by_chance_spec iA iB d a b :
  (iA <> 0)%Z -> (iB <> 0)%Z ->
  map (fun x => fgt (fabs x) d)
    (array_minus (map (fun c => fdiv (Fin (IZR c)) (Fin (IZR iB))) b)
                 (map (fun c => fdiv (Fin (IZR c)) (Fin (IZR iA))) a))
  = map (exceeds d) (simulated_differences iA iB a b).
Proof.
  intros HA HB. revert a. induction b as [|y b IH]; intros [|x a]; simpl; try reflexivity.
  rewrite IH. f_equal.
  destruct (Req_dec_T (IZR iB) 0) as [E|_]; [apply eq_IZR in E; contradiction|].
  destruct (Req_dec_T (IZR iA) 0) as [E|_]; [apply eq_IZR in E; contradiction|].
  cbn [fsub fopp fadd fabs fgt]. unfold exceeds.
  replace (Rabs (IZR y / IZR iB + - (IZR x / IZR iA)))
    with (Rabs (IZR x / IZR iA - IZR y / IZR iB)); [reflexivity|].
  rewrite Rabs_minus_sym. reflexivity.
Qed.

Lemma simulated_differences_sym iA iB a b :
  simulated_differences iB iA b a = simulated_differences iA iB a b.
Proof.
  revert b. induction a as [|x a IH]; intros [|y b]; simpl; try reflexivity.
  rewrite IH, Rabs_minus_sym. reflexivity.
Qed.

Section SimulationFacts.
Context {RS : RandomSource}.

Lemma binomial_draws_length k n p s : length (fst (binomial_draws k n p s)) = k.
Proof.
  revert s. induction k as [|k IH]; intro s; simpl; [reflexivity|].
  destruct (binomial n p s) as [x s1]. specialize (IH s1).
  destruct (binomial_draws k n p s1) as [xs s2]. simpl in *. lia.
Qed.

Lemma np_random_binomial_ok n p size s :
  (0 <= n)%Z -> 0 <= p <= 1 -> (0 <= size)%Z ->
  np_random_binomial n p size s =
  (Return (fst (binomial_draws (Z.to_nat size) n p s)),
   snd (binomial_draws (Z.to_nat size) n p s)).
Proof.
  intros Hn Hp Hs. unfold np_random_binomial.
  destruct (Z.ltb_spec n 0); [lia|].
  destruct (Rlt_dec p 0); [exfalso; lra|].
  destruct (Rlt_dec 1 p); [exfalso; lra|].
  destruct (Z.ltb_spec size 0); [lia|].
  destruct (binomial_draws _ n p s); reflexivity.
Qed.

Lemma np_random_binomial_negative_size n p size s :
  (0 <= n)%Z -> 0 <= p <= 1 -> (size < 0)%Z ->
  np_random_binomial n p size s = (Raise ValueError, s).
Proof.
  intros Hn Hp Hs. unfold np_random_binomial.
  destruct (Z.ltb_spec n 0); [lia|].
  destruct (Rlt_dec p 0); [exfalso; lra|].
  destruct (Rlt_dec 1 p); [exfalso; lra|].
  destruct (Z.ltb_spec size 0); [reflexivity|lia].
Qed.

(** Draws obtained by a call on (a, b) from state s: first for a, then for b *)
Definition draws_first (n : Z) (a b : variation) (s : rng_state) : list Z :=
  fst (binomial_draws (Z.to_nat n) (impressions a) (pooled_rate a b) s).

Definition draws_second (n : Z) (a b : variation) (s : rng_state) : list Z :=
  fst (binomial_draws (Z.to_nat n) (impressions b) (pooled_rate a b)
         (snd (binomial_draws (Z.to_nat n) (impressions a) (pooled_rate a b) s))).

Lemma simulation_normal_form n a b s :
  valid a -> valid b -> (0 <= n)%Z ->
  fst (get_p_value_from_simulation n a b s) =
  let diffs := simulated_differences (impressions a) (impressions b)
                 (draws_first n a b s) (draws_second n a b s) in
  py_truediv (Z.of_nat (length (filter (exceeds (observed_difference a b)) diffs)))
             (Z.of_nat (length diffs)).
Proof.
  intros Ha Hb Hn. pose proof (pooled_rate_range a b Ha Hb) as Hp.
  destruct Ha as [[Ha1 Ha2] Ha3]. destruct Hb as [[Hb1 Hb2] Hb3].
  unfold get_p_value_from_simulation, rbind, lift, draw_p_sample_from_n_samples,
    draw_clicks_from_n_samples, ret.
  rewrite !py_truediv_ok by lia. fold (pooled_rate a b). unfold rbind.
  rewrite np_random_binomial_ok by (try lia; exact Hp).
  rewrite np_random_binomial_ok by (try lia; exact Hp).
  cbn [fst snd]. rewrite result_by_chance_spec by lia.
  rewrite py_sum_count, filter_map_length. unfold py_len. rewrite length_map.
  reflexivity.
Qed.

Lemma simulation_negative_size n a b s :
  valid a -> valid b -> (n < 0)%Z ->
  get_p_value_from_simulation n a b s = (Raise ValueError, s).
Proof.
  intros Ha Hb Hn. pose proof (pooled_rate_range a b Ha Hb) as Hp.
  destruct Ha as [[Ha1 Ha2] Ha3]. destruct Hb as [[Hb1 Hb2] Hb3].
  unfold get_p_value_from_simulation, rbind, lift, draw_p_sample_from_n_samples,
    draw_clicks_from_n_samples, ret.
  rewrite !py_truediv_ok by lia. fold (pooled_rate a b). unfold rbind.
  rewrite np_random_binomial_negative_size by (try lia; exact Hp). reflexivity.
Qed.

End SimulationFacts.

Lemma filter_length_bound {X : Type} (f : X -> bool) l :
  (length (filter f l) <= length l)%nat.
Proof. induction l as [|x l IH]; simpl; [lia|]. destruct (f x); simpl; lia. Qed.

(** The pooled variance of two valid pairs vanishes only when no trial
    succeeded or every trial did. *)
Lemma zero_variance_cases (a b : variation) :
  valid a -> valid b -> pooled_variance a b = 0 ->
  (clicks a = 0 /\ clicks b = 0)%Z \/
  (clicks a = impressions a /\ clicks b = impressions b).
Proof.
  intros Ha Hb Hv. pose proof (pooled_rate_range a b Ha Hb) as Hp.
  destruct Ha as [[Ha1 Ha2] Ha3]. destruct Hb as [[Hb1 Hb2] Hb3].
  assert (HiA : 0 < IZR (impressions a)) by (apply IZR_lt; lia).
  assert (HiB : 0 < IZR (impressions b)) by (apply IZR_lt; lia).
  assert (Hpq : pooled_rate a b * (1 - pooled_rate a b) = 0).
  { unfold pooled_variance in Hv. cbv zeta in Hv.
    set (w := pooled_rate a b * (1 - pooled_rate a b)) in *.
    assert (Hw : 0 <= w) by (apply Rmult_le_pos; lra).
    destruct Hw as [Hw|Hw]; [|symmetry; exact Hw].
    assert (0 < w / IZR (impressions a)) by (apply Rdiv_lt_0_compat; assumption).
    assert (0 < w / IZR (impressions b)) by (apply Rdiv_lt_0_compat; assumption).
    lra. }
  assert (Hsum : 0 < IZR (impressions a + impressions b)) by (apply IZR_lt; lia).
  apply Rmult_integral in Hpq. destruct Hpq as [H0|H1].
  - left. unfold pooled_rate in H0.
    assert (E : IZR (clicks a + clicks b) = 0).
    { apply Rmult_eq_reg_r with (/ IZR (impressions a + impressions b)).
      - rewrite Rmult_0_l. exact H0.
      - apply Rinv_neq_0_compat. lra. }
    apply eq_IZR in E. lia.
  - right. unfold pooled_rate in H1.
    assert (E : IZR (clicks a + clicks b) = IZR (impressions a + impressions b)).
    { apply Rmult_eq_reg_r with (/ IZR (impressions a + impressions b)).
      - rewrite Rinv_r by lra. unfold Rdiv in H1. lra.
      - apply Rinv_neq_0_compat. lra. }
    apply eq_IZR in E. lia.
Qed.

(** * Part V: the specification's claims in exact arithmetic *)

(** C1.  For A = (clicks 127, impressions 5734) and B = (clicks 174,
    impressions 5851), [get_p_value_analytic] returns a finite two-sided
    p-value within 0.001 of 0.0108. *)
Theorem analytic_p_value_literal :
  exists v, get_p_value_analytic A B = Return (Fin v) /\
            Rabs (v - 108 / 10000) <= 1 / 1000.
Proof.
  unfold get_p_value_analytic, py_truediv, py_fdiv_int, A, B. cbn [clicks impressions bind].
  cbn [Z.eqb Z.add Pos.eqb Pos.add Pos.succ Pos.add_carry bind].
  set (p := 301 / 11585).
  set (v := p * (1 - p) / 5734 + p * (1 - p) / 5851).
  set (d := Rabs (127 / 5734 - 174 / 5851)).
  assert (Hv : 0 < v) by (unfold v, p; lra).
  assert (Hd : d = 174 / 5851 - 127 / 5734).
  { unfold d. rewrite Rabs_left; lra. }
  unfold np_sqrt. destruct (Rlt_dec v 0) as [Hn|_]; [lra|].
  unfold fdiv. destruct (Req_dec_T (sqrt v) 0) as [Hz|_].
  { pose proof (sqrt_lt_R0 v Hv). lra. }
  cbn [norm_cdf fsub fopp fadd fmul].
  eexists; split; [reflexivity|].
  apply Rabs_le.
  assert (Hz : 25675 / 10000 <= d / sqrt v <= 25676 / 10000).
  { apply div_sqrt_bounds; try lra; rewrite Hd; unfold v, p; lra. }
  destruct Hz as [Hzl Hzh].
  apply Phi_monotone in Hzl, Hzh.
  pose proof Phi_at_2_5675 as HL. pose proof Phi_at_2_5676 as HU.
  lra.
Qed.

(** C2.  [power_function] with baseline rate 0.02, delta 0.01, alpha 0.05
    and beta 0.8 returns 3826, hence a value within 1 of 3826. *)
Theorem power_function_literal :
  exists n, power_function (2 / 100) (1 / 100) (5 / 100) (8 / 10) = Return n /\
            n = 3826%Z /\ (Z.abs (n - 3826) <= 1)%Z.
Proof. exists 3826%Z. split; [apply power_function_example | split; [reflexivity | lia]]. Qed.

(** C5.  With a trial count of 0 in an observation pair, the proportion
    estimator, the analytic test and the simulation test (whichever argument
    holds the pair) raise ZeroDivisionError, the simulation test before it
    draws anything; with delta = 0 the sample-size calculator raises at the
    conversion of a non-finite value to an integer.  In each case an
    exception is the whole outcome. *)
Theorem degenerate_inputs_fail :
  (forall c, rate {| clicks := c; impressions := 0 |} = Raise ZeroDivisionError) /\
  (forall c v,
      get_p_value_analytic {| clicks := c; impressions := 0 |} v = Raise ZeroDivisionError /\
      get_p_value_analytic v {| clicks := c; impressions := 0 |} = Raise ZeroDivisionError) /\
  (forall (RS : RandomSource) n c v s,
      get_p_value_from_simulation n {| clicks := c; impressions := 0 |} v s
      = (Raise ZeroDivisionError, s) /\
      get_p_value_from_simulation n v {| clicks := c; impressions := 0 |} s
      = (Raise ZeroDivisionError, s)) /\
  (forall p_A_base alpha beta,
      power_function p_A_base 0 alpha beta = Raise OverflowError \/
      power_function p_A_base 0 alpha beta = Raise ValueError).
Proof.
  split; [|split; [|split]].
  - intro c. reflexivity.
  - intros c v. split; [reflexivity|].
    unfold get_p_value_analytic, py_truediv. cbn [impressions clicks].
    destruct (Z.eqb_spec (impressions v) 0); reflexivity.
  - intros RS n c v s. split.
    + unfold get_p_value_from_simulation, rbind, lift, py_truediv. cbn [impressions clicks].
      destruct (Z.eqb_spec (0 + impressions v) 0); reflexivity.
    + unfold get_p_value_from_simulation, rbind, lift, py_truediv. cbn [impressions clicks].
      destruct (Z.eqb_spec (impressions v + 0) 0); [reflexivity|].
      destruct (Z.eqb_spec (impressions v) 0); reflexivity.
  - apply power_function_zero_delta.
Qed.

(** C6, as stated, fails: |-0.01| <= |0.01|, yet [power_function] returns
    2319 for delta = -0.01 and 3826 for delta = 0.01 (baseline 0.02, alpha
    0.05, beta 0.8). *)
Lemma power_function_not_monotone_in_abs_delta :
  Rabs (-1 / 100) <= Rabs (1 / 100) /\
  power_function (2 / 100) (-1 / 100) (5 / 100) (8 / 10) = Return 2319%Z /\
  power_function (2 / 100) (1 / 100) (5 / 100) (8 / 10) = Return 3826%Z /\
  (2319 < 3826)%Z.
Proof.
  split; [|split; [|split]].
  - rewrite Rabs_left, Rabs_right; lra.
  - apply power_function_example_negative.
  - apply power_function_example.
  - lia.
Qed.

(** C7.  Swapping the two observation pairs changes neither the result of
    the analytic test (on any input) nor, for valid pairs that receive the
    same simulated counts in both calls, the result of the simulation test. *)
Theorem significance_tests_symmetric {RS : RandomSource}
  (n : Z) (a b : variation) (s s' : rng_state) :
  valid a -> valid b ->
  draws_first n a b s = draws_second n b a s' ->
  draws_second n a b s = draws_first n b a s' ->
  get_p_value_analytic a b = get_p_value_analytic b a /\
  fst (get_p_value_from_simulation n a b s) = fst (get_p_value_from_simulation n b a s').
Proof.
  intros Ha Hb H1 H2. split; [apply get_p_value_analytic_sym|].
  destruct (Z.lt_ge_cases n 0) as [Hn|Hn].
  - rewrite !simulation_negative_size by assumption. reflexivity.
  - rewrite !simulation_normal_form by assumption. cbv zeta.
    rewrite <- H1, <- H2, simulated_differences_sym.
    unfold observed_difference.
    rewrite (Rabs_minus_sym (IZR (clicks b) / IZR (impressions b))). reflexivity.
Qed.

Lemma significance_tests_symmetric_witness :
  (valid A1 /\ valid B1) /\
  get_p_value_analytic A1 B1 = get_p_value_analytic B1 A1 /\
  fst (@get_p_value_from_simulation replay_source 2 A1 B1 [1; 0; 3; 2]%Z)
  = fst (@get_p_value_from_simulation replay_source 2 B1 A1 [3; 2; 1; 0]%Z).
Proof.
  assert (Ha : valid A1) by (unfold valid, A1; simpl; lia).
  assert (Hb : valid B1) by (unfold valid, B1; simpl; lia).
  split; [split; assumption|].
  exact (@significance_tests_symmetric replay_source 2 A1 B1
           [1; 0; 3; 2]%Z [3; 2; 1; 0]%Z Ha Hb eq_refl eq_refl).
Defined.

(** The symmetry of the simulation test is about the simulated counts each
    pair receives.  Started from one generator state, the two argument orders
    hand the same raw draws to different pairs, and the results can differ. *)
Remark simulation_swap_from_one_state :
  fst (@get_p_value_from_simulation replay_source 1 A1 B1 [0; 3]%Z)
  <> fst (@get_p_value_from_simulation replay_source 1 B1 A1 [0; 3]%Z).
Proof.
  assert (Ha : valid A1) by (unfold valid, A1; simpl; lia).
  assert (Hb : valid B1) by (unfold valid, B1; simpl; lia).
  rewrite !(@simulation_normal_form replay_source) by (try assumption; lia).
  change (@draws_first replay_source 1 A1 B1 [0; 3]%Z) with [0%Z].
  change (@draws_second replay_source 1 A1 B1 [0; 3]%Z) with [3%Z].
  change (@draws_first replay_source 1 B1 A1 [0; 3]%Z) with [0%Z].
  change (@draws_second replay_source 1 B1 A1 [0; 3]%Z) with [0%Z].
  unfold observed_difference.
  cbv zeta. cbn [simulated_differences A1 B1 clicks impressions filter].
  assert (E1 : exceeds (Rabs (1 / 2 - 1 / 4)) (Rabs (0 / 2 - 3 / 4)) = true).
  { unfold exceeds. destruct (Rlt_dec _ _) as [_|Hn]; [reflexivity|].
    exfalso. apply Hn. rewrite Rabs_right, Rabs_left; lra. }
  assert (E2 : exceeds (Rabs (1 / 4 - 1 / 2)) (Rabs (0 / 4 - 0 / 2)) = false).
  { unfold exceeds. destruct (Rlt_dec _ _) as [Hn|_]; [|reflexivity].
    exfalso. rewrite Rabs_left, Rabs_right in Hn; lra. }
  rewrite E1, E2. cbn [length Z.of_nat Pos.of_succ_nat].
  rewrite !py_truediv_ok by lia. intro Heq. injection Heq. lra.
Qed.

(** * Part VI: further properties in exact arithmetic *)

(** ** Further facts about [Phi] and its inverse *)

Lemma Phi_inv_symmetry q H H' : Phi_inv (1 - q) H' = - Phi_inv q H.
Proof.
  apply Phi_injective. rewrite Phi_symmetry, !Phi_Phi_inv. reflexivity.
Qed.

Lemma Phi_half_le z : 0 <= z -> 1 / 2 <= Phi z.
Proof. intro Hz. rewrite <- Phi_0. apply Phi_monotone, Hz. Qed.

(** ** The sample-size calculator *)

Lemma fabs_fopp x : fabs (fopp x) = fabs x.
Proof. destruct x; cbn [fopp fabs]; try reflexivity. rewrite Rabs_Ropp. reflexivity. Qed.

Lemma norm_ppf_symmetry q : norm_ppf (1 - q) = fopp (norm_ppf q).
Proof.
  unfold norm_ppf.
  destruct (Rlt_dec 0 q) as [H0|H0]; destruct (Rlt_dec q 1) as [H1|H1];
    destruct (Rlt_dec 0 (1 - q)) as [G0|G0]; destruct (Rlt_dec (1 - q) 1) as [G1|G1];
    try (exfalso; lra).
  - cbn [fopp]. f_equal. apply Phi_inv_symmetry.
  - destruct (Req_dec_T (1 - q) 0) as [E|E]; destruct (Req_dec_T q 0) as [F|F];
      try (exfalso; lra); destruct (Req_dec_T q 1) as [F1|F1]; try (exfalso; lra);
      try reflexivity.
    destruct (Req_dec_T (1 - q) 1) as [E1|E1]; [exfalso; lra | reflexivity].
  - destruct (Req_dec_T (1 - q) 0) as [E|E]; destruct (Req_dec_T q 0) as [F|F];
      try (exfalso; lra); try reflexivity.
    + destruct (Req_dec_T (1 - q) 1) as [E1|E1]; [reflexivity | exfalso; lra].
    + destruct (Req_dec_T (1 - q) 1) as [E1|E1]; [exfalso; lra|].
      destruct (Req_dec_T q 1) as [F1|F1]; [exfalso; lra | reflexivity].
Qed.

(** X10.  Because of the absolute value around the power quantile,
    [power_function] returns the same size for power [1 - beta] as for power
    [beta], on any input. *)
Theorem power_function_beta_complement (p_A_base DeltaPi alpha beta : R) :
  power_function p_A_base DeltaPi alpha (1 - beta)
  = power_function p_A_base DeltaPi alpha beta.
Proof.
  unfold power_function. cbv zeta.
  rewrite (norm_ppf_symmetry (1 - beta)), fabs_fopp. reflexivity.
Qed.

(** ** The proportion estimator *)

(** X19.  For a valid observation pair the proportion estimator returns a
    rate in [0,1]. *)
Theorem rate_range (v : variation) :
  valid v -> exists r, rate v = Return r /\ 0 <= r <= 1.
Proof.
  intros [[H0 H1] Hi]. unfold rate. rewrite py_truediv_ok by lia.
  eexists. split; [reflexivity|].
  assert (Hi' : 0 < IZR (impressions v)) by (apply IZR_lt; exact Hi).
  apply IZR_le in H0, H1. split.
  - apply Rmult_le_pos; [exact H0 | left; apply Rinv_0_lt_compat, Hi'].
  - apply Rmult_le_reg_r with (IZR (impressions v)); [exact Hi'|].
    unfold Rdiv. rewrite Rmult_assoc, Rinv_l, Rmult_1_r, Rmult_1_l; lra.
Qed.

Lemma rate_range_witness :
  valid A /\ exists r, rate A = Return r /\ 0 <= r <= 1.
Proof.
  assert (Ha : valid A) by (unfold valid, A; simpl; lia).
  split; [exact Ha | exact (rate_range A Ha)].
Defined.

(** ** Drawing simulated counts and rates *)

Section DrawFacts.
Context {RS : RandomSource}.




End DrawFacts.


(** * Part VII: the notebook in binary64 arithmetic *)

Module Machine.

Abbreviation float := spec_float.

(** ** Exceptions *)

Inductive exn : Type := ZeroDivisionError | OverflowError | ValueError | MemoryError.

Inductive result (A : Type) : Type :=
| Return (a : A)
| Raise (e : exn).
Arguments Return {A} a.
Arguments Raise {A} e.

Definition bind {A B : Type} (m : result A) (k : A -> result B) : result B :=
  match m with
  | Return a => k a
  | Raise e => Raise e
  end.

Notation "x <-- m ;; k" := (bind m (fun x => k))
  (at level 61, m at next level, right associativity).

(** ** Python numbers *)

Definition zero : float := S754_zero false.
Definition one : float := B64.of_Z 1.
Definition two : float := B64.of_Z 2.
(** The literal [0.5] *)
Definition half : float := B64.div one two.

(** [float(n)] as Python converts an integer operand: round to nearest,
    OverflowError when the result would not be finite. *)
Definition py_float (n : Z) : result float :=
  let x := B64.of_Z n in
  if B64.is_infinite x then Raise OverflowError else Return x.

(** [a / b] on Python integers: the correctly rounded quotient;
    ZeroDivisionError when [b] is 0, OverflowError when the quotient is
    too large for a float; [0 / b] is a zero of the sign of [b]. *)
Definition py_truediv (a b : Z) : result float :=
  if (b =? 0)%Z then Raise ZeroDivisionError
  else if (a =? 0)%Z then Return (S754_zero (b <? 0)%Z)
  else
    let q := B64.div (S754_finite (a <? 0)%Z (Z.to_pos (Z.abs a)) 0)
                     (S754_finite (b <? 0)%Z (Z.to_pos (Z.abs b)) 0) in
    if B64.is_infinite q then Raise OverflowError else Return q.

(** [x / n] for a Python float [x] and a Python integer [n]: [n] is
    converted first. *)
Definition py_fdiv_int (x : float) (n : Z) : result float :=
  d <-- py_float n ;;
  if B64.is_zero d then Raise ZeroDivisionError else Return (B64.div x d).

(** [np.ceil] *)
Definition np_ceil (x : float) : float :=
  match x with
  | S754_finite s m e =>
      if (0 <=? e)%Z then x
      else
        let q := Z.shiftr (Z.pos m) (- e) in
        let exact := (Z.shiftl q (- e) =? Z.pos m)%Z in
        let c := if s then (- q)%Z else if exact then q else (q + 1)%Z in
        binary_normalize B64.prec B64.emax c 0 s
  | _ => x
  end.

(** [int(x)]: truncation toward zero; infinities and NaN cannot be converted. *)
Definition py_int (x : float) : result Z :=
  match x with
  | S754_nan => Raise ValueError
  | S754_infinity _ => Raise OverflowError
  | S754_zero _ => Return 0%Z
  | S754_finite s m e =>
      Return (cond_Zopp s (if (0 <=? e)%Z then Z.shiftl (Z.pos m) e
                           else Z.shiftr (Z.pos m) (- e)))
  end.

(** ** [scipy.stats.norm] *)

Class NormalDist : Type := {
  norm_cdf : float -> float;
  norm_ppf : float -> float;
  cdf_nan : norm_cdf S754_nan = S754_nan;
  cdf_zero : forall s, norm_cdf (S754_zero s) = half;
  cdf_nonneg : forall x, B64.fin x -> 0 <= B64.F2R x ->
               B64.fin (norm_cdf x) /\ 1 / 2 <= B64.F2R (norm_cdf x) <= 1;
  ppf_one : norm_ppf one = S754_infinity false;
  ppf_inside : forall q, B64.fin q -> 0 < B64.F2R q < 1 ->
               B64.fin (norm_ppf q) /\ Rabs (B64.F2R (norm_ppf q)) <= 1024
}.

(** ** The power operator on NumPy floats

    [root_N**2] is computed by the C library's [pow], which is accurate to
    less than one unit in the last place: the result is one of the two
    floats around the exact square (the square itself when that is a float).
    The laws ask no more. *)

Class Libm : Type := {
  pow_2 : float -> float;
  pow_2_infinity : forall s, pow_2 (S754_infinity s) = S754_infinity false;
  pow_2_faithful : forall x lo hi, B64.fin x ->
      B64.representable lo -> B64.representable hi ->
      lo <= B64.F2R x * B64.F2R x <= hi -> B64.in_range lo hi ->
      B64.fin (pow_2 x) /\ lo <= B64.F2R (pow_2 x) <= hi
}.

(** ** The notebook *)

Definition rate (v : variation) : result float := py_truediv (clicks v) (impressions v).

Definition get_p_value_analytic {ND : NormalDist} (variationA variationB : variation)
  : result float :=
  p_A <-- py_truediv (clicks variationA) (impressions variationA) ;;
  p_B <-- py_truediv (clicks variationB) (impressions variationB) ;;
  p <-- py_truediv (clicks variationA + clicks variationB)
                  (impressions variationA + impressions variationB) ;;
  v_A <-- py_fdiv_int (B64.mul p (B64.sub one p)) (impressions variationA) ;;
  v_B <-- py_fdiv_int (B64.mul p (B64.sub one p)) (impressions variationB) ;;
  let variance := B64.add v_A v_B in
  let abs_z := B64.div (B64.abs (B64.sub p_A p_B)) (B64.sqrt variance) in
  let p_value := B64.mul two (B64.sub one (norm_cdf abs_z)) in
  Return p_value.

Definition power_function {ND : NormalDist} {LM : Libm}
    (p_A_base DeltaPi alpha beta : float)
  : result Z :=
  let p_B := B64.add p_A_base DeltaPi in
  let p := B64.mul half (B64.add p_A_base p_B) in
  let z2 := B64.abs (norm_ppf (B64.sub one beta)) in
  let z_crit := norm_ppf (B64.sub one (B64.div alpha two)) in
  let root_N :=
    B64.div
      (B64.add
         (B64.mul z2 (B64.sqrt (B64.add (B64.mul p_A_base (B64.sub one p_A_base))
                                        (B64.mul p_B (B64.sub one p_B)))))
         (B64.mul z_crit (B64.sqrt (B64.mul (B64.mul two p) (B64.sub one p)))))
      DeltaPi in
  py_int (np_ceil (pow_2 root_N)).

(** ** The simulation *)

Class Platform : Type := { max_array : Z }.

Section Simulation.
Context {RS : RandomSource} {PF : Platform}.

Definition rand (A : Type) : Type := rng_state -> result A * rng_state.
Definition ret {A : Type} (a : A) : rand A := fun s => (Return a, s).
Definition lift {A : Type} (m : result A) : rand A := fun s => (m, s).
Definition rbind {A B : Type} (m : rand A) (k : A -> rand B) : rand B :=
  fun s => match m s with
           | (Return a, s') => k a s'
           | (Raise e, s') => (Raise e, s')
           end.

Definition np_random_seed (n : Z) : rand unit := fun _ => (Return tt, seed n).

Definition np_random_binomial (n : Z) (p : float) (size : Z) : rand (list Z) :=
  fun s =>
    if negb ((- 2 ^ 63 <=? n) && (n <? 2 ^ 63))%Z then (Raise OverflowError, s)
    else if B64.is_nan p || B64.ltb p zero || B64.ltb one p then (Raise ValueError, s)
    else if (n <? 0)%Z then (Raise ValueError, s)
    else if (size <? 0)%Z then (Raise ValueError, s)
    else if (max_array <? size)%Z then (Raise MemoryError, s)
    else let (xs, s') := binomial_draws (Z.to_nat size) n (B64.F2R p) s in (Return xs, s').

Definition draw_clicks_from_n_samples (impressions : Z) (prob_click : float) (num_trials : Z)
  : rand (list Z) :=
  np_random_binomial impressions prob_click num_trials.

Definition draw_p_sample_from_n_samples (impressions : Z) (prob_click : float) (num_trials : Z)
  : rand (list float) :=
  rbind (draw_clicks_from_n_samples impressions prob_click num_trials)
        (fun cs => ret (map (fun c => B64.div (B64.of_Z c) (B64.of_Z impressions)) cs)).

Fixpoint array_minus (xs ys : list float) : list float :=
  match xs, ys with
  | x :: xs', y :: ys' => B64.sub x y :: array_minus xs' ys'
  | _, _ => []
  end.

Definition get_p_value_from_simulation (num_simulations : Z)
  (variation_A variation_B : variation) : rand float :=
  let imp_A := impressions variation_A in
  let imp_B := impressions variation_B in
  let click_A := clicks variation_A in
  let click_B := clicks variation_B in
  rbind (lift (py_truediv (click_A + click_B) (imp_A + imp_B))) (fun p =>
  rbind (lift (py_truediv click_A imp_A)) (fun r_A =>
  rbind (lift (py_truediv click_B imp_B)) (fun r_B =>
  let difference_in_rate := B64.abs (B64.sub r_A r_B) in
  rbind (draw_p_sample_from_n_samples imp_A p num_simulations) (fun p_A_array =>
  rbind (draw_p_sample_from_n_samples imp_B p num_simulations) (fun p_B_array =>
  let result_by_chance :=
    map (fun x => B64.ltb difference_in_rate (B64.abs x))
        (array_minus p_B_array p_A_array) in
  lift (if (py_len result_by_chance =? 0)%Z then Raise ZeroDivisionError
        else Return (B64.div (B64.of_Z (py_sum result_by_chance))
                             (B64.of_Z (py_len result_by_chance))))))))).

End Simulation.

(** ** Vocabulary of the specification, on binary64 values *)

(** A simulated rate: the simulated count over its trial count *)
Definition simulated_rate (count trials : Z) : float :=
  B64.div (B64.of_Z count) (B64.of_Z trials).

(** The absolute differences of the simulated rates, repetition by
    repetition, as computed *)
Fixpoint computed_differences (trials_A trials_B : Z) (sim_A sim_B : list Z) : list float :=
  match sim_A, sim_B with
  | a :: sim_A', b :: sim_B' =>
      B64.abs (B64.sub (simulated_rate b trials_B) (simulated_rate a trials_A))
      :: computed_differences trials_A trials_B sim_A' sim_B'
  | _, _ => []
  end.

(** The fraction of the differences that strictly exceed [d_obs] *)
Definition computed_fraction (d_obs : float) (diffs : list float) : float :=
  B64.div (B64.of_Z (Z.of_nat (length (filter (B64.ltb d_obs) diffs))))
          (B64.of_Z (Z.of_nat (length diffs))).

(** The generator state after [k] binomial draws *)
Definition advance {RS : RandomSource} (k : nat) (n : Z) (p : R) (s : rng_state) : rng_state :=
  snd (binomial_draws k n p s).

(** A platform on which arrays of up to a billion elements can be allocated *)
Definition example_platform : Platform := {| max_array := 10 ^ 9 |}.

(** Observation pairs used as examples *)
Definition T1 : variation := {| clicks := 3; impressions := 10 |}.
Definition T2 : variation := {| clicks := 1; impressions := 10 |}.

Definition V_huge : variation := {| clicks := 1; impressions := 10 ^ 200 |}.
Definition V_overflow : variation := {| clicks := 5; impressions := 10 ^ 400 |}.

(** The float a decimal literal [num/den] denotes: the nearest to the
    quotient (for [num] and [den] below 2^53) *)
Definition decimal (num den : Z) : float := B64.div (B64.of_Z num) (B64.of_Z den).

(** * Facts about the binary64 embedding *)

Lemma F2R_finite_eq s m e :
  B64.F2R (S754_finite s m e) = IZR (cond_Zopp s (Z.pos m)) * B64.pow2 e.
Proof. reflexivity. Qed.

Ltac f2r_const :=
  rewrite ?F2R_finite_eq; cbn [cond_Zopp Z.opp]; B64.pow2_const.

Lemma fin_one : B64.fin one.
Proof. split; reflexivity. Qed.
Lemma F2R_one : B64.F2R one = 1.
Proof. change one with (S754_finite false 4503599627370496 (-52)). f2r_const. lra. Qed.
Lemma fin_two : B64.fin two.
Proof. split; reflexivity. Qed.
Lemma F2R_two : B64.F2R two = 2.
Proof. change two with (S754_finite false 4503599627370496 (-51)). f2r_const. lra. Qed.
Lemma fin_half : B64.fin half.
Proof. split; reflexivity. Qed.
Lemma F2R_half : B64.F2R half = 1 / 2.
Proof. change half with (S754_finite false 4503599627370496 (-53)). f2r_const. lra. Qed.

Lemma fin_not_infinite x : B64.fin x -> B64.is_infinite x = false.
Proof. intros [H _]. destruct x; try discriminate; reflexivity. Qed.

Lemma fin_not_nan x : B64.fin x -> B64.is_nan x = false.
Proof. intros [H _]. destruct x; try discriminate; reflexivity. Qed.

Lemma F2R_of_int_operand a :
  a <> 0%Z -> B64.F2R (S754_finite (a <? 0)%Z (Z.to_pos (Z.abs a)) 0) = IZR a.
Proof.
  intros Ha. unfold B64.F2R. rewrite B64.pow2_0, Rmult_1_r. f_equal.
  destruct (Z.ltb_spec a 0); cbn [cond_Zopp]; rewrite Z2Pos.id by lia; lia.
Qed.

(** Integer division returns a float inside any representable enclosure of
    the exact quotient. *)
Lemma py_truediv_encl a b lo hi :
  b <> 0%Z -> B64.representable lo -> B64.representable hi ->
  lo <= IZR a / IZR b <= hi -> B64.in_range lo hi ->
  exists r, py_truediv a b = Return r /\ B64.fin r /\ lo <= B64.F2R r <= hi.
Proof.
  intros Hb Hl Hh Hq Hr. unfold py_truediv.
  destruct (Z.eqb_spec b 0) as [|_]; [contradiction|].
  destruct (Z.eqb_spec a 0) as [->|Ha].
  - eexists. split; [reflexivity|]. split; [apply B64.fin_zero|].
    cbn [B64.F2R]. unfold Rdiv in Hq. rewrite Rmult_0_l in Hq. exact Hq.
  - set (x := S754_finite (a <? 0)%Z (Z.to_pos (Z.abs a)) 0).
    set (y := S754_finite (b <? 0)%Z (Z.to_pos (Z.abs b)) 0).
    assert (R : B64.rounds (IZR a / IZR b) (B64.div x y)).
    { rewrite <- (F2R_of_int_operand a Ha), <- (F2R_of_int_operand b Hb).
      apply B64.div_rounds; reflexivity. }
    destruct (B64.fin_of_rounds _ _ lo hi R Hl Hh Hq Hr) as [Hf Hv].
    rewrite (fin_not_infinite _ Hf). eauto.
Qed.

Lemma py_truediv_zero_l b : b <> 0%Z -> py_truediv 0 b = Return (S754_zero (b <? 0)%Z).
Proof. intros Hb. unfold py_truediv. destruct (Z.eqb_spec b 0); [contradiction|reflexivity]. Qed.

Lemma py_truediv_by_zero a : py_truediv a 0 = Raise ZeroDivisionError.
Proof. reflexivity. Qed.

Lemma representable_1 : B64.representable 1.
Proof. apply (B64.representable_IZR 1). vm_compute. discriminate. Qed.

Lemma in_range_unit : B64.in_range 0 1.
Proof.
  apply (B64.in_range_pow2 0); [lia| |]; rewrite B64.pow2_0; lra.
Qed.

(** The rate of a valid pair *)
Lemma py_truediv_valid c i :
  (0 <= c <= i)%Z -> (0 < i)%Z ->
  exists r, py_truediv c i = Return r /\ B64.fin r /\ 0 <= B64.F2R r <= 1.
Proof.
  intros Hc Hi. apply py_truediv_encl.
  - lia.
  - apply B64.representable_0.
  - apply representable_1.
  - assert (0 < IZR i) by (apply IZR_lt; lia).
    assert (0 <= IZR c <= IZR i) by (split; apply IZR_le; lia).
    split.
    + apply Rmult_le_pos; [lra|]. left. apply Rinv_0_lt_compat. assumption.
    + apply Rmult_le_reg_r with (IZR i); [assumption|].
      unfold Rdiv. rewrite Rmult_assoc, Rinv_l by lra. lra.
  - apply in_range_unit.
Qed.

(** [i / i] is exactly 1.0 *)
Lemma py_truediv_self i : (0 < i)%Z -> py_truediv i i = Return one.
Proof.
  intros Hi.
  destruct (py_truediv_encl i i 1 1) as (r & E & Hf & Hv).
  - lia.
  - apply representable_1.
  - apply representable_1.
  - assert (0 < IZR i) by (apply IZR_lt; lia). unfold Rdiv. rewrite Rinv_r; lra.
  - apply (B64.in_range_pow2 0); [lia| |]; rewrite B64.pow2_0; lra.
  - rewrite E. f_equal. apply B64.F2R_inj; try assumption.
    + apply fin_one.
    + rewrite F2R_one. lra.
    + lra.
Qed.

Lemma py_float_encl n lo hi :
  B64.representable lo -> B64.representable hi ->
  lo <= IZR n <= hi -> B64.in_range lo hi ->
  py_float n = Return (B64.of_Z n) /\ B64.fin (B64.of_Z n) /\ lo <= B64.F2R (B64.of_Z n) <= hi.
Proof.
  intros Hl Hh Hn Hr.
  destruct (B64.of_Z_encl n lo hi Hl Hh Hn Hr) as [Hf Hv].
  unfold py_float. cbv zeta. rewrite (fin_not_infinite _ Hf). auto.
Qed.

(** ** A reference implementation of [scipy.stats.norm]

    The distribution function and the quantile function of Part I, rounded
    down to a multiple of [2^-53] (respectively [2^-40], after saturation at
    +-1024).  It shows that the laws of [NormalDist] can be met. *)

Definition grid (k : Z) (y : R) : float :=
  binary_normalize B64.prec B64.emax (Zfloor (y * B64.pow2 k)) (- k) false.

Lemma grid_exact k y :
  (0 <= k <= 1074)%Z -> (Z.abs (Zfloor (y * B64.pow2 k)) < 2 ^ 53)%Z ->
  B64.fin (grid k y) /\
  B64.F2R (grid k y) = IZR (Zfloor (y * B64.pow2 k)) * B64.pow2 (- k).
Proof.
  intros Hk Hz. set (z := Zfloor (y * B64.pow2 k)) in *.
  unfold grid. fold z.
  pose proof (B64.binary_normalize_rounds z (- k) false) as R.
  assert (Hrep : B64.representable (IZR z * B64.pow2 (- k)))
    by (apply B64.representable_mul_pow2; lia).
  assert (Hb : Rabs (IZR z * B64.pow2 (- k)) <= B64.pow2 53).
  { rewrite Rabs_mult, <- abs_IZR, (Rabs_right (B64.pow2 (- k)))
      by (left; apply B64.pow2_pos).
    assert (IZR (Z.abs z) <= B64.pow2 53).
    { rewrite B64.pow2_IZR by lia. apply IZR_le. lia. }
    assert (B64.pow2 (- k) <= 1).
    { rewrite <- B64.pow2_0. apply B64.pow2_le. lia. }
    assert (0 <= IZR (Z.abs z)) by (apply IZR_le; lia).
    pose proof (B64.pow2_pos (- k)). nra. }
  destruct (B64.fin_of_rounds _ _ _ _ R Hrep Hrep) as [Hf Hv].
  - lra.
  - unfold Rabs in Hb. apply (B64.in_range_pow2 53); [lia| |];
      destruct (Rcase_abs _); lra.
  - split; [exact Hf|lra].
Qed.

Definition Phi_inv_total (q : R) : R :=
  match Rlt_dec 0 q, Rlt_dec q 1 with
  | left H0, left H1 => Phi_inv q (conj H0 H1)
  | _, _ => 0
  end.

Definition saturate (t : R) : R := Rmax (- 1024) (Rmin 1024 t).

Definition reference_cdf (x : float) : float :=
  match x with
  | S754_nan => S754_nan
  | S754_infinity false => one
  | S754_infinity true => zero
  | _ => grid 53 (Phi (B64.F2R x))
  end.

Definition reference_ppf (q : float) : float :=
  match q with
  | S754_zero _ => S754_infinity true
  | S754_finite false _ _ =>
      if B64.ltb q one then grid 40 (saturate (Phi_inv_total (B64.F2R q)))
      else if B64.ltb one q then S754_nan
      else S754_infinity false
  | _ => S754_nan
  end.

Lemma reference_cdf_zero s : reference_cdf (S754_zero s) = half.
Proof.
  unfold reference_cdf, grid. cbn [B64.F2R]. rewrite Phi_0.
  replace (1 / 2 * B64.pow2 53) with (IZR (2 ^ 52)).
  - rewrite ZfloorZ. reflexivity.
  - B64.pow2_const. change (2 ^ 52)%Z with 4503599627370496%Z. lra.
Qed.

Lemma reference_cdf_nonneg x :
  B64.fin x -> 0 <= B64.F2R x ->
  B64.fin (reference_cdf x) /\ 1 / 2 <= B64.F2R (reference_cdf x) <= 1.
Proof.
  intros Hf Hx.
  assert (E : reference_cdf x = grid 53 (Phi (B64.F2R x))).
  { destruct Hf as [Hf _]. destruct x; try discriminate; reflexivity. }
  rewrite E. set (y := Phi (B64.F2R x)).
  assert (Hy : 1 / 2 <= y < 1).
  { unfold y. split; [apply Phi_half_le; exact Hx|apply Phi_range]. }
  clearbody y. destruct Hy as [Hy1 Hy2].
  pose proof (Zfloor_bound (y * B64.pow2 53)) as [Z1 Z2].
  pose proof (Zfloor_lub (2 ^ 52) (y * B64.pow2 53)) as Z3.
  pose proof (grid_exact 53 y ltac:(lia)) as G.
  set (z := Zfloor (y * B64.pow2 53)) in *. clearbody z.
  assert (P53 : B64.pow2 53 = 9007199254740992) by (B64.pow2_const; reflexivity).
  assert (Q53 : B64.pow2 (-53) = / 9007199254740992) by (B64.pow2_const; reflexivity).
  rewrite P53 in *. change (2 ^ 52)%Z with 4503599627370496%Z in Z3.
  assert (Hz1 : (4503599627370496 <= z)%Z) by (apply Z3; lra).
  assert (Hz2 : (z < 9007199254740992)%Z) by (apply lt_IZR; lra).
  destruct G as [Gf Gv]; [change (2 ^ 53)%Z with 9007199254740992%Z; lia|].
  split; [exact Gf|]. cbn [Z.opp] in Gv. rewrite Gv, Q53.
  apply IZR_le in Hz1. lra.
Qed.

Lemma reference_ppf_inside q :
  B64.fin q -> 0 < B64.F2R q < 1 ->
  B64.fin (reference_ppf q) /\ Rabs (B64.F2R (reference_ppf q)) <= 1024.
Proof.
  intros Hf [H0 H1].
  destruct (B64.fin_pos_shape q Hf H0) as (m & e & ->).
  assert (L : B64.ltb (S754_finite false m e) one = true).
  { apply B64.ltb_spec; [assumption|apply fin_one|]. rewrite F2R_one. exact H1. }
  unfold reference_ppf. rewrite L.
  set (t := saturate (Phi_inv_total (B64.F2R (S754_finite false m e)))).
  assert (Ht : -1024 <= t <= 1024).
  { unfold t, saturate. split.
    - apply Rmax_l.
    - apply Rmax_lub; [lra|apply Rmin_l]. }
  clearbody t. destruct Ht as [Ht1 Ht2].
  pose proof (Zfloor_bound (t * B64.pow2 40)) as [Z1 Z2].
  pose proof (Zfloor_lub (- 2 ^ 50) (t * B64.pow2 40)) as Z3.
  pose proof (grid_exact 40 t ltac:(lia)) as G.
  set (z := Zfloor (t * B64.pow2 40)) in *. clearbody z.
  assert (P40 : B64.pow2 40 = 1099511627776) by (B64.pow2_const; reflexivity).
  assert (Q40 : B64.pow2 (-40) = / 1099511627776) by (B64.pow2_const; reflexivity).
  rewrite P40 in *. change (- 2 ^ 50)%Z with (-1125899906842624)%Z in Z3.
  assert (Hz1 : (-1125899906842624 <= z)%Z) by (apply Z3; lra).
  assert (Hz2 : (z <= 1125899906842624)%Z) by (apply le_IZR; lra).
  destruct G as [Gf Gv]; [change (2 ^ 53)%Z with 9007199254740992%Z; lia|].
  split; [exact Gf|]. cbn [Z.opp] in Gv. rewrite Gv, Q40.
  apply IZR_le in Hz1, Hz2. apply Rabs_le. lra.
Qed.

Definition reference_norm : NormalDist :=
  {| norm_cdf := reference_cdf;
     norm_ppf := reference_ppf;
     cdf_nan := eq_refl;
     cdf_zero := reference_cdf_zero;
     cdf_nonneg := reference_cdf_nonneg;
     ppf_one := eq_refl;
     ppf_inside := reference_ppf_inside |}.

(** The correctly rounded product is a faithful square. *)
Lemma reference_pow_2_faithful x lo hi :
  B64.fin x -> B64.representable lo -> B64.representable hi ->
  lo <= B64.F2R x * B64.F2R x <= hi -> B64.in_range lo hi ->
  B64.fin (B64.mul x x) /\ lo <= B64.F2R (B64.mul x x) <= hi.
Proof. intros Hx Hlo Hhi H R. apply B64.mul_encl; assumption. Qed.

Definition reference_libm : Libm :=
  {| pow_2 := fun x => B64.mul x x;
     pow_2_infinity := fun s => match s with true => eq_refl | false => eq_refl end;
     pow_2_faithful := reference_pow_2_faithful |}.

(** ** Conversions of trial counts *)

Lemma py_float_pos i :
  (0 < i < 2 ^ 1023)%Z ->
  exists m e, py_float i = Return (S754_finite false m e) /\
              B64.fin (S754_finite false m e) /\
              1 <= B64.F2R (S754_finite false m e).
Proof.
  intros [H0 H1].
  destruct (py_float_encl i 1 (B64.pow2 1023)) as (E & Hf & Hv).
  - apply representable_1.
  - apply B64.representable_pow2. lia.
  - split; [apply IZR_le; lia|]. rewrite B64.pow2_IZR by lia. apply IZR_le. lia.
  - apply (B64.in_range_pow2 1023); [lia| |lra].
    pose proof (B64.pow2_pos 1023). lra.
  - destruct (B64.fin_pos_shape _ Hf ltac:(lra)) as (m & e & Ed).
    exists m, e. rewrite E, <- Ed. split; [reflexivity|]. split; [exact Hf|lra].
Qed.

Lemma py_fdiv_int_zero s i :
  (0 < i < 2 ^ 1023)%Z -> py_fdiv_int (S754_zero s) i = Return (S754_zero s).
Proof.
  intros Hi. destruct (py_float_pos i Hi) as (m & e & E & _).
  unfold py_fdiv_int. rewrite E. cbn. destruct s; reflexivity.
Qed.

(** ** The simulation *)

Lemma result_by_chance_count iA iB d a b :
  map (fun x => B64.ltb d (B64.abs x))
    (array_minus (map (fun c => B64.div (B64.of_Z c) (B64.of_Z iB)) b)
                 (map (fun c => B64.div (B64.of_Z c) (B64.of_Z iA)) a))
  = map (B64.ltb d) (computed_differences iA iB a b).
Proof.
  revert a. induction b as [|y b IH]; intros [|x a]; simpl; try reflexivity.
  rewrite IH. reflexivity.
Qed.

Lemma computed_differences_length iA iB a b :
  length (computed_differences iA iB a b) = Nat.min (length a) (length b).
Proof.
  revert b. induction a as [|x a IH]; intros [|y b]; simpl; try reflexivity.
  rewrite IH. reflexivity.
Qed.

Lemma probability_accepted p :
  B64.fin p -> 0 <= B64.F2R p <= 1 ->
  B64.is_nan p || B64.ltb p zero || B64.ltb one p = false.
Proof.
  intros Hf [H0 H1]. rewrite (fin_not_nan _ Hf).
  rewrite (B64.ltb_false p zero Hf (B64.fin_zero false)) by (cbn [zero B64.F2R]; lra).
  rewrite (B64.ltb_false one p fin_one Hf) by (rewrite F2R_one; lra).
  reflexivity.
Qed.

Section SimulationFacts.
Context {RS : RandomSource} {PF : Platform}.

Lemma np_random_binomial_draws n p size s :
  (0 <= n < 2 ^ 63)%Z -> B64.fin p -> 0 <= B64.F2R p <= 1 ->
  (0 <= size <= max_array)%Z ->
  np_random_binomial n p size s =
  (Return (fst (binomial_draws (Z.to_nat size) n (B64.F2R p) s)),
   advance (Z.to_nat size) n (B64.F2R p) s).
Proof.
  intros Hn Hf Hp Hs. unfold np_random_binomial, advance.
  destruct (Z.leb_spec (- 2 ^ 63) n); [|lia].
  destruct (Z.ltb_spec n (2 ^ 63)); [|lia]. cbn [andb negb].
  rewrite (probability_accepted p Hf Hp).
  destruct (Z.ltb_spec n 0); [lia|].
  destruct (Z.ltb_spec size 0); [lia|].
  destruct (Z.ltb_spec max_array size); [lia|].
  destruct (binomial_draws _ n _ s); reflexivity.
Qed.

Lemma np_random_binomial_overflow n p size s :
  (2 ^ 63 <= n)%Z -> np_random_binomial n p size s = (Raise OverflowError, s).
Proof.
  intros Hn. unfold np_random_binomial.
  destruct (Z.ltb_spec n (2 ^ 63)); [lia|]. rewrite andb_false_r. reflexivity.
Qed.

Lemma np_random_binomial_size_error n p size s :
  (0 <= n < 2 ^ 63)%Z -> B64.fin p -> 0 <= B64.F2R p <= 1 -> (size < 0)%Z ->
  np_random_binomial n p size s = (Raise ValueError, s).
Proof.
  intros Hn Hf Hp Hs. unfold np_random_binomial.
  destruct (Z.leb_spec (- 2 ^ 63) n); [|lia].
  destruct (Z.ltb_spec n (2 ^ 63)); [|lia]. cbn [andb negb].
  rewrite (probability_accepted p Hf Hp).
  destruct (Z.ltb_spec n 0); [lia|].
  destruct (Z.ltb_spec size 0); [reflexivity|lia].
Qed.

(** What a call does on valid pairs with trial counts in the range of a C
    long: three divisions, then [n] draws for the first pair and [n] draws
    for the second, from the state it was started in. *)
Lemma simulation_steps n a b s :
  valid a -> valid b ->
  (impressions a < 2 ^ 63)%Z -> (impressions b < 2 ^ 63)%Z ->
  (0 <= n <= max_array)%Z ->
  exists p r_A r_B,
    py_truediv (clicks a + clicks b) (impressions a + impressions b) = Return p /\
    B64.fin p /\ 0 <= B64.F2R p <= 1 /\
    py_truediv (clicks a) (impressions a) = Return r_A /\
    py_truediv (clicks b) (impressions b) = Return r_B /\
    let k := Z.to_nat n in
    let s1 := advance k (impressions a) (B64.F2R p) s in
    let sim_A := fst (binomial_draws k (impressions a) (B64.F2R p) s) in
    let sim_B := fst (binomial_draws k (impressions b) (B64.F2R p) s1) in
    let diffs := computed_differences (impressions a) (impressions b) sim_A sim_B in
    length diffs = k /\
    get_p_value_from_simulation n a b s =
    (if (n =? 0)%Z then Raise ZeroDivisionError
     else Return (computed_fraction (B64.abs (B64.sub r_A r_B)) diffs),
     advance k (impressions b) (B64.F2R p) s1).
Proof.
  intros [[Ha1 Ha2] Ha3] [[Hb1 Hb2] Hb3] Hia Hib Hn.
  destruct (py_truediv_valid (clicks a + clicks b) (impressions a + impressions b))
    as (p & Ep & Fp & Vp); try lia.
  destruct (py_truediv_valid (clicks a) (impressions a)) as (r_A & EA & _); try lia.
  destruct (py_truediv_valid (clicks b) (impressions b)) as (r_B & EB & _); try lia.
  exists p, r_A, r_B. repeat (split; [assumption|]). cbv zeta.
  assert (Hlen : length (computed_differences (impressions a) (impressions b)
                   (fst (binomial_draws (Z.to_nat n) (impressions a) (B64.F2R p) s))
                   (fst (binomial_draws (Z.to_nat n) (impressions b) (B64.F2R p)
                      (advance (Z.to_nat n) (impressions a) (B64.F2R p) s))))
                 = Z.to_nat n).
  { rewrite computed_differences_length, !binomial_draws_length. apply Nat.min_id. }
  split; [exact Hlen|].
  unfold get_p_value_from_simulation, rbind, lift, draw_p_sample_from_n_samples,
    draw_clicks_from_n_samples, ret.
  rewrite Ep, EA, EB. unfold rbind.
  rewrite np_random_binomial_draws by (try assumption; lia).
  rewrite np_random_binomial_draws by (try assumption; lia).
  rewrite result_by_chance_count.
  rewrite py_sum_count, filter_map_length. unfold py_len. rewrite length_map.
  unfold computed_fraction. rewrite Hlen.
  replace (Z.of_nat (Z.to_nat n)) with n by lia. reflexivity.
Qed.

End SimulationFacts.

Lemma computed_fraction_range d diffs :
  (0 < length diffs)%nat -> (Z.of_nat (length diffs) <= 2 ^ 53)%Z ->
  B64.fin (computed_fraction d diffs) /\ 0 <= B64.F2R (computed_fraction d diffs) <= 1.
Proof.
  intros Hpos Hmax. unfold computed_fraction.
  pose proof (filter_length_bound (B64.ltb d) diffs) as Hle.
  set (c := Z.of_nat (length (filter (B64.ltb d) diffs))) in *.
  set (n := Z.of_nat (length diffs)) in *.
  assert (Hc : (0 <= c <= n)%Z) by (unfold c, n; lia).
  assert (Hn : (0 < n)%Z) by (unfold n; lia).
  destruct (B64.of_Z_exact c ltac:(lia)) as [Fc Vc].
  destruct (B64.of_Z_exact n ltac:(lia)) as [Fn Vn].
  assert (Hn' : 0 < IZR n) by (apply IZR_lt; lia).
  assert (Hc' : 0 <= IZR c <= IZR n) by (split; apply IZR_le; lia).
  apply B64.div_encl; try assumption.
  - rewrite Vn. lra.
  - apply B64.representable_0.
  - apply representable_1.
  - rewrite Vc, Vn. split.
    + apply Rmult_le_pos; [lra|]. left. apply Rinv_0_lt_compat. assumption.
    + apply Rmult_le_reg_r with (IZR n); [assumption|].
      unfold Rdiv. rewrite Rmult_assoc, Rinv_l by lra. lra.
  - apply in_range_unit.
Qed.

(** ** The analytic test away from the degenerate rates *)

Lemma representable_below_1 : B64.representable (1 - B64.pow2 (-53)).
Proof.
  replace (1 - B64.pow2 (-53)) with (IZR (2 ^ 53 - 1) * B64.pow2 (-53)).
  - apply B64.representable_mul_pow2; [reflexivity|lia].
  - B64.pow2_const. change (2 ^ 53 - 1)%Z with 9007199254740991%Z. lra.
Qed.

Lemma pow2_m53 : B64.pow2 (-53) = / 9007199254740992.
Proof. B64.pow2_const. reflexivity. Qed.

Lemma in_range_small lo hi : -2 <= lo -> hi <= 2 -> B64.in_range lo hi.
Proof. intros. apply (B64.in_range_pow2 1); [lia| |]; rewrite B64.pow2_1; lra. Qed.

(** The rate [c / i] for [0 < c < i <= 2^53] stays away from 0 and 1. *)
Lemma py_truediv_inside c i k :
  (0 < c < i)%Z -> (i <= 2 ^ 53)%Z -> (0 < k)%Z ->
  exists r, py_truediv (k * c) (k * i) = Return r /\ B64.fin r /\
            B64.pow2 (-53) <= B64.F2R r <= 1 - B64.pow2 (-53).
Proof.
  intros [Hc Hci] Hi Hk.
  assert (Hq : IZR (k * c) / IZR (k * i) = IZR c / IZR i).
  { rewrite !mult_IZR. field. split; apply not_0_IZR; lia. }
  apply py_truediv_encl.
  - nia.
  - apply B64.representable_pow2. lia.
  - apply representable_below_1.
  - rewrite Hq, pow2_m53.
    assert (Hi0 : 0 < IZR i) by (apply IZR_lt; lia).
    assert (Hc1 : 1 <= IZR c) by (apply IZR_le; lia).
    assert (Hc2 : IZR c <= IZR i - 1) by (rewrite <- minus_IZR; apply IZR_le; lia).
    assert (Himax : IZR i <= 9007199254740992) by (apply IZR_le; exact Hi).
    assert (Hinv : / 9007199254740992 <= / IZR i) by (apply Rinv_le_contravar; lra).
    pose proof (Rinv_0_lt_compat _ Hi0) as Hinv0.
    unfold Rdiv. split.
    + nra.
    + assert (IZR c * / IZR i <= (IZR i - 1) * / IZR i) by nra.
      replace ((IZR i - 1) * / IZR i) with (1 - / IZR i) in H by (field; lra). lra.
  - apply in_range_small; rewrite pow2_m53; lra.
Qed.

(** One term [p * (1 - p) / i] of the variance *)
Lemma variance_term p i :
  B64.fin p -> B64.pow2 (-53) <= B64.F2R p <= 1 - B64.pow2 (-53) ->
  (0 < i <= 2 ^ 53)%Z ->
  exists v, py_fdiv_int (B64.mul p (B64.sub one p)) i = Return v /\ B64.fin v /\
            B64.pow2 (-159) <= B64.F2R v <= 1.
Proof.
  intros Fp Vp Hi.
  pose proof pow2_m53 as Hu. set (u := B64.pow2 (-53)) in *.
  assert (Hupos : 0 < u) by apply B64.pow2_pos.
  destruct (B64.sub_encl one p u (1 - u)) as [Fq Vq]; try assumption.
  - apply fin_one.
  - apply B64.representable_pow2. lia.
  - apply representable_below_1.
  - rewrite F2R_one. lra.
  - apply in_range_small; lra.
  - set (q := B64.sub one p) in *.
    assert (E106 : B64.pow2 (-106) = u * u) by (unfold u; rewrite <- B64.pow2_add; reflexivity).
    destruct (B64.mul_encl p q (B64.pow2 (-106)) 1) as [Fw Vw]; try assumption.
    + apply B64.representable_pow2. lia.
    + apply representable_1.
    + rewrite E106. nra.
    + apply in_range_small; [|lra]. pose proof (B64.pow2_pos (-106)). lra.
    + set (w := B64.mul p q) in *.
      destruct (B64.of_Z_exact i ltac:(lia)) as [Fd Vd].
      assert (Hi1 : 1 <= IZR i) by (apply IZR_le; lia).
      assert (Hi2 : IZR i <= 9007199254740992) by (apply IZR_le; lia).
      unfold py_fdiv_int, py_float. cbv zeta.
      rewrite (fin_not_infinite _ Fd). cbn [bind].
      rewrite (B64.fin_nonzero _ Fd) by (rewrite Vd; lra).
      eexists. split; [reflexivity|].
      assert (E159 : B64.pow2 (-159) = B64.pow2 (-106) * u)
        by (unfold u; rewrite <- B64.pow2_add; reflexivity).
      apply B64.div_encl; try assumption.
      * rewrite Vd. lra.
      * apply B64.representable_pow2. lia.
      * apply representable_1.
      * rewrite Vd, E159.
        assert (Hinv : u <= / IZR i) by (rewrite Hu; apply Rinv_le_contravar; lra).
        assert (Hinv1 : / IZR i <= 1) by (rewrite <- Rinv_1; apply Rinv_le_contravar; lra).
        pose proof (B64.pow2_pos (-106)). unfold Rdiv. split; nra.
      * apply in_range_small; [|lra]. pose proof (B64.pow2_pos (-159)). lra.
Qed.

(** The square root of the variance is a positive finite float. *)
Lemma sqrt_variance v_A v_B :
  B64.fin v_A -> B64.pow2 (-159) <= B64.F2R v_A <= 1 ->
  B64.fin v_B -> B64.pow2 (-159) <= B64.F2R v_B <= 1 ->
  exists m e, B64.sqrt (B64.add v_A v_B) = S754_finite false m e /\
              B64.fin (S754_finite false m e) /\
              B64.pow2 (-79) <= B64.F2R (S754_finite false m e) <= 2.
Proof.
  intros FA VA FB VB.
  assert (E158 : B64.pow2 (-158) = 2 * B64.pow2 (-159)).
  { replace (-158)%Z with (-159 + 1)%Z by lia. apply B64.pow2_succ. }
  pose proof (B64.pow2_pos (-159)) as P159.
  destruct (B64.add_encl v_A v_B (B64.pow2 (-158)) 2) as [Fs Vs]; try assumption.
  - apply B64.representable_pow2. lia.
  - apply (B64.representable_IZR 2). vm_compute. discriminate.
  - rewrite E158. lra.
  - apply in_range_small; lra.
  - set (x := B64.add v_A v_B) in *.
    assert (E79 : B64.pow2 (-158) = B64.pow2 (-79) * B64.pow2 (-79))
      by (rewrite <- B64.pow2_add; reflexivity).
    pose proof (B64.pow2_pos (-79)) as P79.
    destruct (B64.sqrt_encl x (B64.pow2 (-79)) 2) as [Fr Vr]; try assumption.
    + lra.
    + apply B64.representable_pow2. lia.
    + apply (B64.representable_IZR 2). vm_compute. discriminate.
    + split.
      * rewrite <- (sqrt_square (B64.pow2 (-79))) by lra. rewrite <- E79.
        apply sqrt_le_1_alt. lra.
      * rewrite <- (sqrt_square 2) by lra. apply sqrt_le_1_alt. lra.
    + apply in_range_small; lra.
    + destruct (B64.fin_pos_shape _ Fr ltac:(lra)) as (m & e & Es).
      exists m, e. rewrite <- Es. auto.
Qed.

(** ** Rounding up and conversion to an integer *)

Lemma py_int_exact y c : B64.is_finite y = true -> B64.F2R y = IZR c -> py_int y = Return c.
Proof.
  intros Hf Hv. destruct y as [s|s| |s m e]; try discriminate.
  - cbn in Hv. apply eq_IZR in Hv. subst. reflexivity.
  - cbn [py_int]. f_equal. unfold B64.F2R in Hv.
    destruct (Z.leb_spec 0 e) as [He|He].
    + rewrite B64.pow2_IZR, <- mult_IZR in Hv by assumption. apply eq_IZR in Hv.
      rewrite Z.shiftl_mul_pow2 by assumption.
      destruct s; cbn [cond_Zopp] in *; lia.
    + assert (Hk : (0 < 2 ^ (- e))%Z) by (apply Z.pow_pos_nonneg; lia).
      assert (E : cond_Zopp s (Z.pos m) = (c * 2 ^ (- e))%Z).
      { apply eq_IZR. rewrite mult_IZR, <- B64.pow2_IZR by lia. rewrite <- Hv.
        rewrite Rmult_assoc, <- B64.pow2_add. replace (e + - e)%Z with 0%Z by lia.
        rewrite B64.pow2_0. ring. }
      rewrite Z.shiftr_div_pow2 by lia.
      destruct s; cbn [cond_Zopp] in *.
      * replace (Z.pos m) with (- c * 2 ^ (- e))%Z by lia.
        rewrite Z.div_mul by lia. lia.
      * rewrite E, Z.div_mul by lia. reflexivity.
Qed.

Lemma np_ceil_spec x :
  B64.fin x -> B64.fin (np_ceil x) /\ B64.F2R (np_ceil x) = IZR (Zceil (B64.F2R x)).
Proof.
  intros Hx. pose proof Hx as [Hf Hv].
  destruct x as [s|s| |s m e]; try discriminate.
  - split; [exact Hx|]. cbn. symmetry. f_equal. apply Zceil_eq. simpl. lra.
  - cbn [np_ceil]. destruct (Z.leb_spec 0 e) as [He|He].
    + split; [exact Hx|]. unfold B64.F2R.
      rewrite B64.pow2_IZR, <- mult_IZR by assumption.
      f_equal. symmetry. apply Zceil_eq. lra.
    + set (k := (- e)%Z). assert (Hk : (0 < k)%Z) by (unfold k; lia).
      assert (Hpk : (0 < 2 ^ k)%Z) by (apply Z.pow_pos_nonneg; lia).
      assert (Hpk2 : (2 <= 2 ^ k)%Z).
      { change 2%Z with (2 ^ 1)%Z at 1. apply Z.pow_le_mono_r; lia. }
      rewrite Z.shiftr_div_pow2 by lia.
      set (q := (Z.pos m / 2 ^ k)%Z).
      rewrite Z.shiftl_mul_pow2 by lia.
      pose proof (Z.div_mod (Z.pos m) (2 ^ k) ltac:(lia)) as Hdm.
      pose proof (Z.mod_pos_bound (Z.pos m) (2 ^ k) Hpk) as Hr.
      fold q in Hdm. set (r := (Z.pos m mod 2 ^ k)%Z) in *.
      assert (Hq0 : (0 <= q)%Z) by (apply Z.div_pos; lia).
      (* the mantissa has at most 53 bits *)
      assert (Hm53 : (Z.pos m < 2 ^ 53)%Z).
      { apply B64.valid_finite_inv in Hv. destruct Hv as [Hc _]. rewrite B64.fexp_eq in Hc.
        pose proof (B64.digits_bounds m) as [_ Hm].
        apply Z.lt_le_trans with (1 := Hm). apply Z.pow_le_mono_r; lia. }
      assert (Hq52 : (q + 1 <= 2 ^ 53)%Z) by nia.
      (* the real value *)
      assert (Ev : IZR (Z.pos m) * B64.pow2 e = IZR q + IZR r / IZR (2 ^ k)).
      { assert (Hp : B64.pow2 e = / IZR (2 ^ k)).
        { replace e with (- k)%Z by (unfold k; lia).
          rewrite B64.pow2_opp, B64.pow2_IZR by lia. reflexivity. }
        rewrite Hp, Hdm, plus_IZR, mult_IZR. field. apply not_0_IZR. lia. }
      assert (Hfrac : 0 <= IZR r / IZR (2 ^ k) < 1).
      { assert (0 < IZR (2 ^ k)) by (apply IZR_lt; lia).
        assert (0 <= IZR r < IZR (2 ^ k)) by (split; [apply IZR_le|apply IZR_lt]; lia).
        split.
        - apply Rmult_le_pos; [lra|]. left. apply Rinv_0_lt_compat. assumption.
        - apply Rmult_lt_reg_r with (IZR (2 ^ k)); [assumption|].
          unfold Rdiv. rewrite Rmult_assoc, Rinv_l by lra. lra. }
      assert (Hr0 : r = 0%Z -> IZR r / IZR (2 ^ k) = 0).
      { intros ->. unfold Rdiv. ring. }
      assert (Hrpos : r <> 0%Z -> 0 < IZR r / IZR (2 ^ k)).
      { intros Hn. apply Rdiv_lt_0_compat; apply IZR_lt; lia. }
      set (c := if s then (- q)%Z
                else if (q * 2 ^ k =? Z.pos m)%Z then q else (q + 1)%Z).
      assert (Ec : Zceil (B64.F2R (S754_finite s m e)) = c).
      { apply Zceil_eq. unfold B64.F2R, c. destruct s; cbn [cond_Zopp].
        - change (Z.neg m) with (- Z.pos m)%Z. rewrite !opp_IZR.
          rewrite Ropp_mult_distr_l_reverse, Ev. lra.
        - rewrite Ev. destruct (Z.eqb_spec (q * 2 ^ k) (Z.pos m)) as [Eq|Nq].
          + rewrite Hr0 by lia. lra.
          + specialize (Hrpos ltac:(lia)). rewrite plus_IZR. lra. }
      assert (Hc53 : (Z.abs c <= 2 ^ 53)%Z).
      { unfold c. destruct s; [lia|]. destruct (_ =? _)%Z; lia. }
      rewrite Ec.
      pose proof (B64.binary_normalize_rounds c 0 s) as R.
      rewrite B64.pow2_0, Rmult_1_r in R.
      assert (Hrep : B64.representable (IZR c)) by (apply B64.representable_IZR; exact Hc53).
      assert (Hb : - IZR (2 ^ 53) <= IZR c <= IZR (2 ^ 53)).
      { rewrite <- opp_IZR. split; apply IZR_le; lia. }
      destruct (B64.fin_of_rounds _ _ _ _ R Hrep Hrep) as [Fc Vc].
      * lra.
      * apply (B64.in_range_pow2 53); [lia| |]; rewrite B64.pow2_IZR by lia; lra.
      * split; [exact Fc|lra].
Qed.

(** [int(np.ceil(x))] is the least integer not below [x]. *)
Lemma py_int_of_np_ceil x : B64.fin x -> py_int (np_ceil x) = Return (Zceil (B64.F2R x)).
Proof.
  intros Hx. destruct (np_ceil_spec x Hx) as [[Hf _] Hv].
  apply py_int_exact; assumption.
Qed.

(** ** Steps of the sample-size formula *)

Lemma Rabs_bound x b : Rabs x <= b -> - b <= x <= b.
Proof. unfold Rabs. destruct (Rcase_abs x); lra. Qed.

Lemma representable_small n : (Z.abs n <= 4096)%Z -> B64.representable (IZR n).
Proof.
  intros Hn. apply B64.representable_IZR.
  apply Z.le_trans with (1 := Hn). vm_compute. discriminate.
Qed.

Lemma in_range_4096 lo hi : -4096 <= lo -> hi <= 4096 -> B64.in_range lo hi.
Proof.
  intros. apply (B64.in_range_pow2 12); [lia| |];
    replace (B64.pow2 12) with 4096 by (B64.pow2_const; reflexivity); lra.
Qed.

Lemma sub_one_unit x :
  B64.fin x -> 0 <= B64.F2R x <= 1 ->
  B64.fin (B64.sub one x) /\ 0 <= B64.F2R (B64.sub one x) <= 1.
Proof.
  intros Fx Vx. apply B64.sub_encl; try assumption.
  - apply fin_one.
  - apply B64.representable_0.
  - apply representable_1.
  - rewrite F2R_one. lra.
  - apply in_range_unit.
Qed.

Lemma mul_bounded x y (a b : Z) :
  B64.fin x -> 0 <= B64.F2R x <= IZR a ->
  B64.fin y -> 0 <= B64.F2R y <= IZR b ->
  (0 <= a)%Z -> (0 <= b)%Z -> (a * b <= 4096)%Z ->
  B64.fin (B64.mul x y) /\ 0 <= B64.F2R (B64.mul x y) <= IZR (a * b).
Proof.
  intros Fx Vx Fy Vy Ha Hb Hab.
  assert (Hab' : IZR (a * b) <= 4096) by (apply IZR_le; exact Hab).
  apply B64.mul_encl; try assumption.
  - apply B64.representable_0.
  - apply representable_small. nia.
  - rewrite mult_IZR. split; nra.
  - apply in_range_4096; lra.
Qed.

Lemma add_bounded x y (a b : Z) :
  B64.fin x -> 0 <= B64.F2R x <= IZR a ->
  B64.fin y -> 0 <= B64.F2R y <= IZR b ->
  (0 <= a)%Z -> (0 <= b)%Z -> (a + b <= 4096)%Z ->
  B64.fin (B64.add x y) /\ 0 <= B64.F2R (B64.add x y) <= IZR (a + b).
Proof.
  intros Fx Vx Fy Vy Ha Hb Hab.
  assert (Hab' : IZR (a + b) <= 4096) by (apply IZR_le; exact Hab).
  apply B64.add_encl; try assumption.
  - apply B64.representable_0.
  - apply representable_small. lia.
  - rewrite plus_IZR. split; lra.
  - apply in_range_4096; lra.
Qed.

Lemma sqrt_bounded x :
  B64.fin x -> 0 <= B64.F2R x <= 2 ->
  B64.fin (B64.sqrt x) /\ 0 <= B64.F2R (B64.sqrt x) <= 2.
Proof.
  intros Fx Vx. apply B64.sqrt_encl; try assumption.
  - lra.
  - apply B64.representable_0.
  - apply (representable_small 2). lia.
  - split; [apply sqrt_pos|].
    rewrite <- (sqrt_square 2) by lra. apply sqrt_le_1_alt. lra.
  - apply in_range_4096; lra.
Qed.

(** The two quantile arguments stay inside (0,1) when alpha and beta are
    not below the spacing of the floats under 1. *)
Lemma power_quantile_argument beta :
  B64.fin beta -> B64.pow2 (-53) <= B64.F2R beta < 1 ->
  B64.fin (B64.sub one beta) /\
  B64.pow2 (-53) <= B64.F2R (B64.sub one beta) <= 1 - B64.pow2 (-53).
Proof.
  intros Fb [Hb0 Hb1]. pose proof (B64.fin_lt_1 beta Fb Hb1) as Hb2.
  apply B64.sub_encl; try assumption.
  - apply fin_one.
  - apply B64.representable_pow2. lia.
  - apply representable_below_1.
  - rewrite F2R_one. lra.
  - rewrite pow2_m53. apply in_range_small; lra.
Qed.

Lemma critical_quantile_argument alpha :
  B64.fin alpha -> B64.pow2 (-52) <= B64.F2R alpha < 1 ->
  B64.fin (B64.sub one (B64.div alpha two)) /\
  1 / 2 <= B64.F2R (B64.sub one (B64.div alpha two)) <= 1 - B64.pow2 (-53).
Proof.
  intros Fa [Ha0 Ha1].
  assert (P52 : B64.pow2 (-52) = / 4503599627370496) by (B64.pow2_const; reflexivity).
  assert (Rh : B64.representable (1 / 2)).
  { replace (1 / 2) with (B64.pow2 (-1)) by (B64.pow2_const; lra).
    apply B64.representable_pow2. lia. }
  destruct (B64.div_encl alpha two (B64.pow2 (-53)) (1 / 2)) as [Fh Vh];
    try assumption.
  - apply fin_two.
  - rewrite F2R_two. lra.
  - apply B64.representable_pow2. lia.
  - rewrite F2R_two, pow2_m53. rewrite P52 in Ha0. lra.
  - rewrite pow2_m53. apply in_range_small; lra.
  - apply B64.sub_encl; try assumption.
    + apply fin_one.
    + apply representable_below_1.
    + rewrite F2R_one. lra.
    + rewrite pow2_m53. apply in_range_small; lra.
Qed.

(** Both square-root arguments of the sample-size formula are finite and in
    [0, 2] for rates in the unit interval. *)
Lemma unit_variance x : B64.fin x -> 0 <= B64.F2R x <= 1 ->
  B64.fin (B64.mul x (B64.sub one x)) /\ 0 <= B64.F2R (B64.mul x (B64.sub one x)) <= 1.
Proof.
  intros Fx Vx. destruct (sub_one_unit x Fx Vx) as [F1 V1].
  apply (mul_bounded x (B64.sub one x) 1 1); try assumption; lia.
Qed.

(** * The claims that depend on the binary64 arithmetic *)

(** C4, as stated, fails: for A0 = (0, 10) and B0 = (0, 20) the pooled
    variance is 0 and [get_p_value_analytic] raises nothing; it returns NaN. *)
Lemma analytic_zero_variance_returns :
  pooled_variance A0 B0 = 0 /\
  @get_p_value_analytic reference_norm A0 B0 = Return S754_nan /\
  ~ (exists e, @get_p_value_analytic reference_norm A0 B0 = Raise e).
Proof.
  assert (Hv : pooled_variance A0 B0 = 0).
  { unfold pooled_variance, pooled_rate, A0, B0. simpl. lra. }
  assert (Hr : @get_p_value_analytic reference_norm A0 B0 = Return S754_nan)
    by (vm_compute; reflexivity).
  repeat split; try assumption. intros [e He]. rewrite Hr in He. discriminate.
Qed.

(** C4, amended.  For every two observation pairs (trials positive and
    below 2^1023, successes between 0 and trials) whose pooled variance is
    0, the analytic test raises no error and returns NaN. *)
Theorem analytic_zero_variance_nan {ND : NormalDist} (a b : variation) :
  valid a -> valid b -> pooled_variance a b = 0 ->
  (impressions a < 2 ^ 1023)%Z -> (impressions b < 2 ^ 1023)%Z ->
  get_p_value_analytic a b = Return S754_nan.
Proof.
  intros Ha Hb Hv Hia Hib.
  destruct (zero_variance_cases a b Ha Hb Hv) as [[Ea Eb]|[Ea Eb]];
    destruct Ha as [_ Ha], Hb as [_ Hb]; unfold get_p_value_analytic; rewrite Ea, Eb.
  - rewrite !py_truediv_zero_l by lia. cbn [bind].
    replace (impressions a + impressions b <? 0)%Z with false by (symmetry; apply Z.ltb_ge; lia).
    change (B64.mul (S754_zero false) (B64.sub one (S754_zero false))) with (S754_zero false).
    rewrite py_fdiv_int_zero by lia. cbn [bind].
    rewrite py_fdiv_int_zero by lia. cbn [bind].
    replace (impressions a <? 0)%Z with false by (symmetry; apply Z.ltb_ge; lia).
    replace (impressions b <? 0)%Z with false by (symmetry; apply Z.ltb_ge; lia).
    change (B64.div (B64.abs (B64.sub (S754_zero false) (S754_zero false)))
                    (B64.sqrt (B64.add (S754_zero false) (S754_zero false))))
      with S754_nan.
    rewrite cdf_nan. reflexivity.
  - rewrite !py_truediv_self by lia. cbn [bind].
    change (B64.mul one (B64.sub one one)) with (S754_zero false).
    rewrite py_fdiv_int_zero by lia. cbn [bind].
    rewrite py_fdiv_int_zero by lia. cbn [bind].
    change (B64.div (B64.abs (B64.sub one one))
                    (B64.sqrt (B64.add (S754_zero false) (S754_zero false))))
      with S754_nan.
    rewrite cdf_nan. reflexivity.
Qed.

Lemma analytic_zero_variance_nan_witness :
  valid A0 /\ valid B0 /\ pooled_variance A0 B0 = 0 /\
  @get_p_value_analytic reference_norm A0 B0 = Return S754_nan.
Proof.
  assert (Ha : valid A0) by (unfold valid, A0; simpl; lia).
  assert (Hb : valid B0) by (unfold valid, B0; simpl; lia).
  assert (Hv : pooled_variance A0 B0 = 0)
    by (unfold pooled_variance, pooled_rate, A0, B0; simpl; lra).
  split; [exact Ha|]. split; [exact Hb|]. split; [exact Hv|].
  apply (@analytic_zero_variance_nan reference_norm A0 B0 Ha Hb Hv); reflexivity.
Defined.




(** C8, as stated, fails in two ways.  Here: the pairs are (3, 10) and
    (1, 10), the single repetition draws 2 and 4 successes, so the simulated
    difference |4/10 - 2/10| equals the observed |3/10 - 1/10| and does not
    exceed it; in binary64 the observed difference is 0.19999999999999998 and
    the simulated one 0.2, and the repetition is counted: the result is 1.0. *)
Lemma simulation_counts_a_tie :
  let s0 := [2; 4]%Z in
  valid T1 /\ valid T2 /\
  fst (@binomial_draws replay_source 1 10 (2 / 10) s0) = [2%Z] /\
  fst (@binomial_draws replay_source 1 10 (2 / 10) [4%Z]) = [4%Z] /\
  ~ (Rabs (3 / 10 - 1 / 10) < Rabs (4 / 10 - 2 / 10)) /\
  fst (@get_p_value_from_simulation replay_source example_platform 1 T1 T2 s0) = Return one.
Proof.
  cbv zeta. split; [unfold valid, T1; simpl; lia|]. split; [unfold valid, T2; simpl; lia|].
  split; [reflexivity|]. split; [reflexivity|]. split.
  - rewrite !Rabs_right by lra. lra.
  - vm_compute. reflexivity.
Qed.

(** C8, amended.  For valid pairs with trial counts below 2^63 and a number
    of simulations between 1 and what the platform can allocate (at most
    2^53), whatever the random source draws, the simulation test returns the
    fraction of the repetitions whose simulated absolute difference of
    rates, as computed in binary64, strictly exceeds the computed observed
    difference; the fraction is over exactly [num_simulations] repetitions
    and lies in [0,1]. *)
Theorem simulation_is_fraction_exceeding {RS : RandomSource} {PF : Platform}
  (n : Z) (a b : variation) (s : rng_state) :
  valid a -> valid b ->
  (impressions a < 2 ^ 63)%Z -> (impressions b < 2 ^ 63)%Z ->
  (1 <= n <= max_array)%Z -> (n <= 2 ^ 53)%Z ->
  exists p r_A r_B,
    py_truediv (clicks a + clicks b) (impressions a + impressions b) = Return p /\
    py_truediv (clicks a) (impressions a) = Return r_A /\
    py_truediv (clicks b) (impressions b) = Return r_B /\
    let after_A := advance (Z.to_nat n) (impressions a) (B64.F2R p) s in
    let sim_A := fst (binomial_draws (Z.to_nat n) (impressions a) (B64.F2R p) s) in
    let sim_B := fst (binomial_draws (Z.to_nat n) (impressions b) (B64.F2R p) after_A) in
    let d_obs := B64.abs (B64.sub r_A r_B) in
    let diffs := computed_differences (impressions a) (impressions b) sim_A sim_B in
    length diffs = Z.to_nat n /\
    fst (get_p_value_from_simulation n a b s) = Return (computed_fraction d_obs diffs) /\
    B64.fin (computed_fraction d_obs diffs) /\
    0 <= B64.F2R (computed_fraction d_obs diffs) <= 1.
Proof.
  intros Ha Hb Hia Hib Hn Hn53.
  assert (Hn0 : (0 <= n <= max_array)%Z) by lia.
  destruct (simulation_steps n a b s Ha Hb Hia Hib Hn0)
    as (p & r_A & r_B & Ep & _ & _ & EA & EB & Hlen & E).
  exists p, r_A, r_B.
  split; [exact Ep|]. split; [exact EA|]. split; [exact EB|]. cbv zeta in *.
  split; [exact Hlen|]. split.
  - rewrite E. destruct (Z.eqb_spec n 0); [lia|reflexivity].
  - apply computed_fraction_range; rewrite Hlen; lia.
Qed.

Lemma simulation_is_fraction_exceeding_witness :
  exists p r_A r_B,
    py_truediv (clicks A1 + clicks B1) (impressions A1 + impressions B1) = Return p /\
    py_truediv (clicks A1) (impressions A1) = Return r_A /\
    py_truediv (clicks B1) (impressions B1) = Return r_B /\
    let diffs := computed_differences 2 4 [1; 0]%Z [3; 2]%Z in
    length diffs = 2%nat /\
    fst (@get_p_value_from_simulation replay_source example_platform 2 A1 B1 [1; 0; 3; 2]%Z)
    = Return (computed_fraction (B64.abs (B64.sub r_A r_B)) diffs) /\
    B64.fin (computed_fraction (B64.abs (B64.sub r_A r_B)) diffs) /\
    0 <= B64.F2R (computed_fraction (B64.abs (B64.sub r_A r_B)) diffs) <= 1.
Proof.
  assert (Ha : valid A1) by (unfold valid, A1; simpl; lia).
  assert (Hb : valid B1) by (unfold valid, B1; simpl; lia).
  exact (@simulation_is_fraction_exceeding replay_source example_platform 2 A1 B1
           [1; 0; 3; 2]%Z Ha Hb eq_refl eq_refl
           ltac:(vm_compute; intuition discriminate) ltac:(vm_compute; discriminate)).
Defined.

(** C9, as stated, fails: for the pair (1, 10^200) the two terms of the
    variance underflow to 0.0, the z statistic is 0.0/0.0 and the result is
    NaN; for the pair (5, 10^400) the trial count cannot be converted to a
    float and the call raises OverflowError. *)
Lemma analytic_identical_pairs_out_of_range :
  (0 < clicks V_huge < impressions V_huge)%Z /\
  @get_p_value_analytic reference_norm V_huge V_huge = Return S754_nan /\
  (0 < clicks V_overflow < impressions V_overflow)%Z /\
  @get_p_value_analytic reference_norm V_overflow V_overflow = Raise OverflowError.
Proof.
  split; [vm_compute; intuition congruence|]. split; [vm_compute; reflexivity|].
  split; [vm_compute; intuition congruence|]. vm_compute; reflexivity.
Qed.

(** C9, amended.  For every pair [v] with 0 < clicks < impressions and at
    most 2^53 impressions, [get_p_value_analytic v v] returns exactly 1.0. *)
Theorem analytic_identical_pairs {ND : NormalDist} (v : variation) :
  (0 < clicks v < impressions v)%Z -> (impressions v <= 2 ^ 53)%Z ->
  get_p_value_analytic v v = Return one.
Proof.
  intros Hc Hi.
  destruct (py_truediv_inside (clicks v) (impressions v) 1 Hc Hi ltac:(lia))
    as (r & Er & Fr & Vr).
  destruct (py_truediv_inside (clicks v) (impressions v) 2 Hc Hi ltac:(lia))
    as (p & Ep & Fp & Vp).
  rewrite !Z.mul_1_l in Er.
  replace (2 * clicks v)%Z with (clicks v + clicks v)%Z in Ep by lia.
  replace (2 * impressions v)%Z with (impressions v + impressions v)%Z in Ep by lia.
  destruct (variance_term p (impressions v) Fp Vp ltac:(lia)) as (w & Ew & Fw & Vw).
  destruct (sqrt_variance w w Fw Vw Fw Vw) as (m & e & Es & _).
  unfold get_p_value_analytic. rewrite Er. cbn [bind]. rewrite Ep. cbn [bind].
  rewrite Ew. cbn [bind]. rewrite Es, (B64.sub_diag r) by apply Fr.
  change (B64.div (B64.abs (S754_zero false)) (S754_finite false m e))
    with (S754_zero false).
  rewrite cdf_zero. reflexivity.
Qed.

Lemma analytic_identical_pairs_witness :
  ((0 < clicks A < impressions A)%Z /\ (impressions A <= 2 ^ 53)%Z) /\
  @get_p_value_analytic reference_norm A A = Return one.
Proof.
  assert (H : (0 < clicks A < impressions A)%Z) by (unfold A; simpl; lia).
  assert (H53 : (impressions A <= 2 ^ 53)%Z) by (vm_compute; discriminate).
  split; [split; assumption|]. exact (@analytic_identical_pairs reference_norm A H H53).
Defined.

(** C10, as stated, fails: for beta = 1e-17, inside (0,1), the binary64
    difference 1 - beta is 1.0, so the inverse-CDF argument is not inside
    (0,1); the quantile is +inf and [power_function] raises OverflowError
    (baseline 0.02, delta 0.01, alpha 0.05). *)
Lemma power_function_tiny_beta :
  let beta := decimal 1 (10 ^ 17) in
  B64.fin beta /\ 0 < B64.F2R beta < 1 /\
  B64.sub one beta = one /\
  @power_function reference_norm reference_libm (decimal 2 100) (decimal 1 100) (decimal 5 100) beta
  = Raise OverflowError.
Proof.
  cbv zeta.
  assert (Eb : decimal 1 (10 ^ 17) = S754_finite false 6490371073168535 (-109))
    by (vm_compute; reflexivity).
  rewrite Eb. split; [split; reflexivity|]. split.
  { rewrite F2R_finite_eq. cbn [cond_Zopp]. pose proof (B64.pow2_pos (-109)) as P.
    assert (B64.pow2 (-109) < B64.pow2 (-53)) by (apply B64.pow2_lt; lia).
    rewrite pow2_m53 in H. nra. }
  split; [vm_compute; reflexivity|].
  unfold power_function.
  (* the critical quantile is finite *)
  set (q_crit := B64.sub one (B64.div (decimal 5 100) two)).
  assert (Eq : q_crit = S754_finite false 8782019273372467 (-53)) by (vm_compute; reflexivity).
  destruct (@ppf_inside reference_norm q_crit) as [Fz Vz].
  { rewrite Eq. split; reflexivity. }
  { rewrite Eq. rewrite F2R_finite_eq. cbn [cond_Zopp]. rewrite pow2_m53. lra. }
  set (z_crit := @norm_ppf reference_norm q_crit) in *.
  (* the power quantile is +inf *)
  replace (B64.sub one (S754_finite false 6490371073168535 (-109))) with one
    by (vm_compute; reflexivity).
  rewrite (@ppf_one reference_norm). cbn [B64.abs SFabs].
  set (r_1 := B64.sqrt _). set (r_2 := B64.sqrt _).
  assert (E1 : r_1 = S754_finite false 7950862484829021 (-55)) by (vm_compute; reflexivity).
  assert (E2 : r_2 = S754_finite false 7954942989323884 (-55)) by (vm_compute; reflexivity).
  rewrite E1.
  change (B64.mul (S754_infinity false) (S754_finite false 7950862484829021 (-55)))
    with (S754_infinity false).
  assert (Ft : B64.fin (B64.mul z_crit r_2)).
  { apply Rabs_bound in Vz.
    refine (proj1 (B64.mul_encl z_crit r_2 (-2048) 2048 Fz _ _ _ _ _)).
    - rewrite E2. split; reflexivity.
    - apply (representable_small (-2048)). lia.
    - apply (representable_small 2048). lia.
    - assert (0 <= B64.F2R r_2 <= 2).
      { rewrite E2, F2R_finite_eq. cbn [cond_Zopp].
        replace (B64.pow2 (-55)) with (/ 36028797018963968) by (B64.pow2_const; reflexivity).
        lra. }
      split; nra.
    - apply in_range_4096; lra. }
  rewrite (B64.add_inf_l false _ Ft).
  vm_compute. reflexivity.
Qed.

(** C10 (amended).  For finite binary64 parameters with baseline_rate in
    (0,1), baseline_rate + delta in (0,1), |delta| at least 2^-499, alpha in
    [2^-52, 1) and beta in [2^-53, 1): both square-root arguments are finite
    and non-negative, the inverse-CDF arguments 1-beta and 1-alpha/2 are
    finite and inside (0,1), the divisor is not zero, and [power_function]
    returns a non-negative integer, whatever the normal distribution and
    power implementations (within their laws) are. *)
Theorem power_function_no_domain_error {ND : NormalDist} {LM : Libm}
    (p_A_base DeltaPi alpha beta : float) :
  B64.fin p_A_base -> B64.fin DeltaPi -> B64.fin alpha -> B64.fin beta ->
  0 < B64.F2R p_A_base < 1 ->
  0 < B64.F2R p_A_base + B64.F2R DeltaPi < 1 ->
  B64.pow2 (-499) <= Rabs (B64.F2R DeltaPi) ->
  B64.pow2 (-52) <= B64.F2R alpha < 1 ->
  B64.pow2 (-53) <= B64.F2R beta < 1 ->
  let p_B := B64.add p_A_base DeltaPi in
  let p := B64.mul half (B64.add p_A_base p_B) in
  let s_1 := B64.add (B64.mul p_A_base (B64.sub one p_A_base))
                     (B64.mul p_B (B64.sub one p_B)) in
  let s_2 := B64.mul (B64.mul two p) (B64.sub one p) in
  let q_power := B64.sub one beta in
  let q_crit := B64.sub one (B64.div alpha two) in
  (B64.fin s_1 /\ 0 <= B64.F2R s_1) /\
  (B64.fin s_2 /\ 0 <= B64.F2R s_2) /\
  (B64.fin q_power /\ 0 < B64.F2R q_power < 1) /\
  (B64.fin q_crit /\ 0 < B64.F2R q_crit < 1) /\
  B64.is_zero DeltaPi = false /\
  exists n, power_function p_A_base DeltaPi alpha beta = Return n /\ (0 <= n)%Z.
Proof.
  intros FA FD Fa Fb HA HB HD Ha Hb p_B p s_1 s_2 q_power q_crit.
  pose proof (B64.pow2_pos (-499)) as P499.
  pose proof (B64.pow2_pos (-53)) as P53.
  (* rates *)
  assert (R1 : B64.representable 1) by apply representable_1.
  assert (R0 : B64.representable 0) by apply B64.representable_0.
  destruct (B64.add_encl p_A_base DeltaPi 0 1 FA FD R0 R1 ltac:(lra) in_range_unit)
    as [FB VB]. fold p_B in FB, VB.
  destruct (add_bounded p_A_base p_B 1 1 FA ltac:(lra) FB VB) as [Fs Vs]; try lia.
  change (IZR (1 + 1)) with 2 in Vs.
  destruct (B64.mul_encl half (B64.add p_A_base p_B) 0 1 fin_half Fs R0 R1) as [Fp Vp].
  { rewrite F2R_half. lra. }
  { apply in_range_unit. }
  fold p in Fp, Vp.
  (* square-root arguments *)
  destruct (unit_variance p_A_base FA ltac:(lra)) as [FvA VvA].
  destruct (unit_variance p_B FB VB) as [FvB VvB].
  destruct (add_bounded _ _ 1 1 FvA VvA FvB VvB) as [F1 V1]; try lia.
  fold s_1 in F1, V1. change (IZR (1 + 1)) with 2 in V1.
  destruct (mul_bounded two p 2 1 fin_two ltac:(rewrite F2R_two; lra) Fp Vp)
    as [F2p V2p]; try lia.
  destruct (sub_one_unit p Fp Vp) as [F1p V1p].
  destruct (mul_bounded _ _ 2 1 F2p V2p F1p V1p) as [F2 V2]; try lia.
  fold s_2 in F2, V2. change (IZR (2 * 1)) with 2 in V2.
  (* quantile arguments *)
  destruct (power_quantile_argument beta Fb Hb) as [Fqp Vqp]. fold q_power in Fqp, Vqp.
  destruct (critical_quantile_argument alpha Fa Ha) as [Fqc Vqc]. fold q_crit in Fqc, Vqc.
  (* divisor *)
  assert (HD0 : B64.F2R DeltaPi <> 0).
  { intros E. rewrite E, Rabs_R0 in HD. lra. }
  split; [split; [exact F1|lra]|]. split; [split; [exact F2|lra]|].
  split; [split; [exact Fqp|lra]|]. split; [split; [exact Fqc|lra]|].
  split; [apply B64.fin_nonzero; assumption|].
  (* the quantiles *)
  destruct (ppf_inside q_power Fqp ltac:(lra)) as [Fz2 Vz2].
  destruct (ppf_inside q_crit Fqc ltac:(lra)) as [Fzc Vzc].
  apply B64.fin_abs in Fz2. rewrite <- B64.F2R_abs in Vz2.
  pose proof (Rabs_pos (B64.F2R (norm_ppf q_power))) as Pz2.
  rewrite <- B64.F2R_abs in Pz2.
  set (z2 := B64.abs (norm_ppf q_power)) in *.
  set (z_crit := norm_ppf q_crit) in *.
  apply Rabs_bound in Vzc.
  destruct (sqrt_bounded s_1 F1 V1) as [Fr1 Vr1].
  destruct (sqrt_bounded s_2 F2 V2) as [Fr2 Vr2].
  set (r_1 := B64.sqrt s_1) in *. set (r_2 := B64.sqrt s_2) in *.
  destruct (mul_bounded z2 r_1 1024 2 Fz2 ltac:(lra) Fr1 Vr1) as [Ft1 Vt1]; try lia.
  change (IZR (1024 * 2)) with 2048 in Vt1.
  destruct (B64.mul_encl z_crit r_2 (-2048) 2048 Fzc Fr2) as [Ft2 Vt2].
  { apply (representable_small (-2048)). lia. }
  { apply (representable_small 2048). lia. }
  { split; nra. }
  { apply in_range_4096; lra. }
  destruct (B64.add_encl _ _ (-4096) 4096 Ft1 Ft2) as [Fn Vn].
  { apply (representable_small (-4096)). lia. }
  { apply (representable_small 4096). lia. }
  { lra. }
  { apply in_range_4096; lra. }
  set (num := B64.add (B64.mul z2 r_1) (B64.mul z_crit r_2)) in *.
  (* the quotient *)
  assert (P511 : B64.pow2 511 = 4096 * B64.pow2 499).
  { replace 4096 with (B64.pow2 12) by (B64.pow2_const; reflexivity).
    rewrite <- B64.pow2_add. reflexivity. }
  assert (Pinv : B64.pow2 499 * B64.pow2 (-499) = 1).
  { rewrite <- B64.pow2_add. apply B64.pow2_0. }
  pose proof (B64.pow2_pos 499) as Q499. pose proof (B64.pow2_pos 511) as Q511.
  assert (Hq : Rabs (B64.F2R num / B64.F2R DeltaPi) <= B64.pow2 511).
  { unfold Rdiv. rewrite Rabs_mult, Rabs_inv.
    assert (Hn : Rabs (B64.F2R num) <= 4096) by (apply Rabs_le; lra).
    pose proof (Rabs_pos (B64.F2R num)) as Pn.
    assert (Hi : / Rabs (B64.F2R DeltaPi) <= B64.pow2 499).
    { replace (B64.pow2 499) with (/ B64.pow2 (-499)).
      - apply Rinv_le_contravar; assumption.
      - apply (Rmult_eq_reg_l (B64.pow2 (-499))); [rewrite Rinv_r by lra; lra|lra]. }
    assert (Pi : 0 < / Rabs (B64.F2R DeltaPi)) by (apply Rinv_0_lt_compat; lra).
    rewrite P511. nra. }
  apply Rabs_bound in Hq.
  destruct (B64.div_encl num DeltaPi (- B64.pow2 511) (B64.pow2 511) Fn FD HD0)
    as [Froot Vroot].
  { apply B64.representable_opp, B64.representable_pow2. lia. }
  { apply B64.representable_pow2. lia. }
  { exact Hq. }
  { apply (B64.in_range_pow2 511); [lia|lra|lra]. }
  set (root_N := B64.div num DeltaPi) in *.
  destruct (pow_2_faithful root_N 0 (B64.pow2 1022) Froot R0) as [Fsq Vsq].
  { apply B64.representable_pow2. lia. }
  { replace (B64.pow2 1022) with (B64.pow2 511 * B64.pow2 511)
      by (rewrite <- B64.pow2_add; reflexivity).
    split; nra. }
  { apply (B64.in_range_pow2 1022); [lia| |lra]. pose proof (B64.pow2_pos 1022). lra. }
  exists (Zceil (B64.F2R (pow_2 root_N))). split.
  - unfold power_function. fold p_B p. fold s_1 s_2. fold q_power q_crit.
    fold z2 z_crit r_1 r_2 num root_N. apply py_int_of_np_ceil. exact Fsq.
  - apply le_IZR. pose proof (Zceil_bound (B64.F2R (pow_2 root_N))) as [_ Hc].
    set (c := Zceil _) in *. clearbody c. lra.
Qed.

Lemma power_function_no_domain_error_witness :
  let p_A_base := decimal 2 100 in
  let DeltaPi := decimal 1 100 in
  let alpha := decimal 5 100 in
  let beta := decimal 8 10 in
  (0 < B64.F2R p_A_base < 1 /\ 0 < B64.F2R p_A_base + B64.F2R DeltaPi < 1 /\
   B64.pow2 (-52) <= B64.F2R alpha < 1 /\ B64.pow2 (-53) <= B64.F2R beta < 1) /\
  exists n, @power_function reference_norm reference_libm p_A_base DeltaPi alpha beta
            = Return n /\ (0 <= n)%Z.
Proof.
  cbv zeta.
  assert (EA : decimal 2 100 = S754_finite false 5764607523034235 (-58))
    by (vm_compute; reflexivity).
  assert (ED : decimal 1 100 = S754_finite false 5764607523034235 (-59))
    by (vm_compute; reflexivity).
  assert (Ea : decimal 5 100 = S754_finite false 7205759403792794 (-57))
    by (vm_compute; reflexivity).
  assert (Eb : decimal 8 10 = S754_finite false 7205759403792794 (-53))
    by (vm_compute; reflexivity).
  rewrite EA, ED, Ea, Eb.
  assert (HA : 0 < B64.F2R (S754_finite false 5764607523034235 (-58)) < 1)
    by (f2r_const; lra).
  assert (HB : 0 < B64.F2R (S754_finite false 5764607523034235 (-58))
                   + B64.F2R (S754_finite false 5764607523034235 (-59)) < 1)
    by (f2r_const; lra).
  assert (Ha : B64.pow2 (-52) <= B64.F2R (S754_finite false 7205759403792794 (-57)) < 1)
    by (f2r_const; lra).
  assert (Hb : B64.pow2 (-53) <= B64.F2R (S754_finite false 7205759403792794 (-53)) < 1)
    by (f2r_const; lra).
  assert (HD : B64.pow2 (-499) <= Rabs (B64.F2R (S754_finite false 5764607523034235 (-59)))).
  { apply Rle_trans with (B64.pow2 (-59)); [apply B64.pow2_le; lia|].
    rewrite Rabs_pos_eq; f2r_const; lra. }
  split; [repeat split; lra|].
  apply (@power_function_no_domain_error reference_norm reference_libm
           (S754_finite false 5764607523034235 (-58))
           (S754_finite false 5764607523034235 (-59))
           (S754_finite false 7205759403792794 (-57))
           (S754_finite false 7205759403792794 (-53))
           (conj eq_refl eq_refl) (conj eq_refl eq_refl)
           (conj eq_refl eq_refl) (conj eq_refl eq_refl) HA HB HD Ha Hb).
Defined.

End Machine.
